(** * MindLogger backend: response routes and the JSON-LD expander

    A shallow embedding of

    - [girderformindlogger/utility/jsonld_expander.py]
      (contextualize, expand, formatLdObject's retry handler, the language-tag
      resolver, keyExpansion, camelCase and snake_case), and
    - [girder/api/v1/response.py] (getResponses, createResponseItem),

    followed by the properties of the specification that are settled on it.

    Python strings are modelled as lists of 8-bit characters and cover the
    ASCII fragment of [str]: the only cased characters are [A-Z] and [a-z].
    Where a property depends on the text being ASCII, it is stated on
    the module [Unicode], which models [str] as a sequence of code points
    with the case mappings of the Unicode Character Database.
    Python dicts are association lists in insertion order. *)

From Stdlib Require Import String Ascii List Bool Arith ZArith Lia.
Import ListNotations.

Set Warnings "-register-all".
Set Implicit Arguments.

(** ** Python strings *)

Abbreviation str := (list ascii) (only parsing).

Coercion list_ascii_of_string : string >-> list.

Open Scope string_scope.
Open Scope list_scope.

Definition str_eq_dec : forall a b : str, {a = b} + {a <> b} :=
  list_eq_dec ascii_dec.

Definition str_eqb (a b : str) : bool :=
  if str_eq_dec a b then true else false.

Module Char.

Definition between (lo hi : nat) (c : ascii) : bool :=
  Nat.leb lo (nat_of_ascii c) && Nat.leb (nat_of_ascii c) hi.

(** The regular-expression classes [A-Z], [a-z] and [0-9]. *)
Definition is_upper : ascii -> bool := between 65 90.
Definition is_lower : ascii -> bool := between 97 122.
Definition is_digit : ascii -> bool := between 48 57.

Definition is_cased (c : ascii) : bool := is_upper c || is_lower c.
Definition is_alnum (c : ascii) : bool := is_cased c || is_digit c.

Definition to_lower (c : ascii) : ascii :=
  if is_upper c then ascii_of_nat (nat_of_ascii c + 32) else c.

Definition to_upper (c : ascii) : ascii :=
  if is_lower c then ascii_of_nat (nat_of_ascii c - 32) else c.

Definition newline : ascii := ascii_of_nat 10.

End Char.

Import Char.

(** [s.lower()] *)
Definition lower (s : str) : str := map to_lower s.

(** [s.title()]: a letter that follows a cased character is lowered, any other
    letter is raised. *)
Fixpoint title_from (previous_is_cased : bool) (s : str) : str :=
  match s with
  | [] => []
  | c :: s' =>
      (if previous_is_cased then to_lower c else to_upper c)
        :: title_from (is_cased c) s'
  end.

Definition title (s : str) : str := title_from false s.

(** [s.split(sep)] for a one-character separator: never an empty list. *)
Fixpoint split (sep : ascii) (s : str) : list str :=
  match s with
  | [] => [[]]
  | c :: s' =>
      if Ascii.eqb c sep then [] :: split sep s'
      else match split sep s' with
           | w :: ws => (c :: w) :: ws
           | [] => [[c]]
           end
  end.

(** [sep.join(words)] *)
Fixpoint join (sep : str) (words : list str) : str :=
  match words with
  | [] => []
  | [w] => w
  | w :: ws => w ++ sep ++ join sep ws
  end.

(** [c in s] for a one-character needle. *)
Definition has_char (c : ascii) (s : str) : bool := existsb (Ascii.eqb c) s.

(** [s.replace(c, '')] for a one-character pattern. *)
Definition remove_char (c : ascii) (s : str) : str :=
  filter (fun x => negb (Ascii.eqb x c)) s.

(** The longest prefix whose characters satisfy [p], and the rest. *)
Fixpoint span (p : ascii -> bool) (s : str) : str * str :=
  match s with
  | [] => ([], [])
  | c :: s' =>
      if p c then let (run, rest) := span p s' in (c :: run, rest)
      else ([], s)
  end.

(** ** Regular expressions of [snake_case]

    A pattern with two groups is a function that tries to match at the head
    of its input and returns the two groups and the unread rest. *)

Definition pattern := str -> option (str * str * str).

(** [(.)([A-Z][a-z]+)]: the dot does not match a line feed, the [+] is greedy
    and nothing follows it. *)
Definition first_cap_re : pattern := fun s =>
  match s with
  | c :: u :: s' =>
      if negb (Ascii.eqb c newline) && is_upper u then
        match span is_lower s' with
        | ([], _) => None
        | (run, rest) => Some ([c], u :: run, rest)
        end
      else None
  | _ => None
  end.

(** [([a-z0-9])([A-Z])] *)
Definition all_cap_re : pattern := fun s =>
  match s with
  | a :: b :: rest =>
      if (is_lower a || is_digit a) && is_upper b
      then Some ([a], [b], rest)
      else None
  | _ => None
  end.

(** [re.sub(r'\1_\2', s)]: leftmost non-overlapping matches, scanning from
    the left; a character at which the pattern does not match is copied. *)
Fixpoint sub_from (re : pattern) (fuel : nat) (s : str) : str :=
  match s with
  | [] => []
  | c :: s' =>
      match fuel with
      | 0 => s
      | S fuel' =>
          match re s with
          | Some (g1, g2, rest) => g1 ++ "_"%char :: g2 ++ sub_from re fuel' rest
          | None => c :: sub_from re fuel' s'
          end
      end
  end.

Definition sub (re : pattern) (s : str) : str := sub_from re (length s) s.

Definition snake_case (camelCase : str) : str :=
  lower (sub all_cap_re (sub first_cap_re camelCase)).

Definition camelCase (snake_case : str) : str :=
  match split "_"%char snake_case with
  | w :: words => w ++ concat (map title words)
  | [] => []
  end.


(** ** Identifier shapes used by the case-conversion laws *)

(** Some pair of neighbouring characters satisfies [r]. *)
Fixpoint adjacent (r : ascii -> ascii -> bool) (s : str) : bool :=
  match s with
  | a :: (b :: _) as t => r a b || adjacent r t
  | _ => false
  end.

Fixpoint dropwhile (p : ascii -> bool) (s : str) : str :=
  match s with
  | [] => []
  | c :: s' => if p c then dropwhile p s' else s
  end.

Definition two_capitals (a b : ascii) : bool := is_upper a && is_upper b.

(** A camelCase identifier: ASCII letters and digits, a lowercase letter
    first, every hump a single capital. *)
Definition is_camelCase (x : str) : bool :=
  match x with c :: _ => is_lower c | [] => false end
  && forallb is_alnum x
  && negb (adjacent two_capitals x).

(** A digit stands directly before or directly after a capital. *)
Definition digit_next_to_capital (x : str) : bool :=
  adjacent (fun a b => (is_digit a && is_upper b) || (is_upper a && is_digit b)) x.

Definition digit_then_lower (a b : ascii) : bool := is_digit a && is_lower b.

(** From the first capital on, a digit is directly followed by a lowercase
    letter. *)
Definition digit_then_lower_in_hump (x : str) : bool :=
  adjacent digit_then_lower (dropwhile (fun c => negb (is_upper c)) x).

(** [x] with an underscore put before every capital. *)
Definition mark (x : str) : str :=
  flat_map (fun c => if is_upper c then ["_"%char; c] else [c]) x.

(** [y] is [x] with an underscore put before some of its capitals. *)
Inductive marked : str -> str -> Prop :=
| marked_nil : marked [] []
| marked_keep c x y : marked x y -> marked (c :: x) (c :: y)
| marked_here u x y :
    is_upper u = true -> marked x y -> marked (u :: x) ("_"%char :: u :: y).

(** The titled words of [s] concatenated, read one character at a time:
    an underscore starts a new word. *)
Fixpoint retitle (previous_is_cased : bool) (s : str) : str :=
  match s with
  | [] => []
  | c :: s' =>
      if Ascii.eqb c "_"%char then retitle false s'
      else (if previous_is_cased then to_lower c else to_upper c)
             :: retitle (is_cased c) s'
  end.

(** [camelCase] read one character at a time: the first word is copied. *)
Fixpoint recamel (s : str) : str :=
  match s with
  | [] => []
  | c :: s' => if Ascii.eqb c "_"%char then retitle false s' else c :: recamel s'
  end.

(** A pattern consumes at least one character. *)
Definition shrinking (re : pattern) : Prop :=
  forall s g1 g2 rest, re s = Some (g1, g2, rest) -> length rest < length s.


(** ** Python values

    The JSON fragment of Python's objects. Floats do not occur in the code
    under study and are left out. *)

Inductive JSON : Type :=
| JNull
| JBool (b : bool)
| JNum (n : Z)
| JStr (s : str)
| JList (l : list JSON)
| JDict (d : list (str * JSON)).

(** [bool(v)] *)
Definition truthy (v : JSON) : bool :=
  match v with
  | JNull => false
  | JBool b => b
  | JNum n => negb (Z.eqb n 0)
  | JStr s => match s with [] => false | _ => true end
  | JList l => match l with [] => false | _ => true end
  | JDict d => match d with [] => false | _ => true end
  end.

Definition is_dict (v : JSON) : bool :=
  match v with JDict _ => true | _ => false end.

(** [a == b]: [True == 1], lists compare element by element, dicts compare
    as mappings, whatever the order of their keys. *)
Fixpoint py_eq (a b : JSON) {struct a} : bool :=
  match a, b with
  | JNull, JNull => true
  | JBool x, JBool y => Bool.eqb x y
  | JBool x, JNum y => Z.eqb (if x then 1 else 0) y
  | JNum x, JBool y => Z.eqb x (if y then 1 else 0)
  | JNum x, JNum y => Z.eqb x y
  | JStr x, JStr y => str_eqb x y
  | JList x, JList y =>
      (fix all2 (x : list JSON) (y : list JSON) {struct x} : bool :=
         match x, y with
         | [], [] => true
         | u :: x', v :: y' => py_eq u v && all2 x' y'
         | _, _ => false
         end) x y
  | JDict x, JDict y =>
      Nat.eqb (length x) (length y) &&
      (fix every (x : list (str * JSON)) : bool :=
         match x with
         | [] => true
         | (k, u) :: x' =>
             (fix find (y : list (str * JSON)) : bool :=
                match y with
                | [] => false
                | (k', v) :: y' => if str_eqb k' k then py_eq u v else find y'
                end) y
             && every x'
         end) x
  | _, _ => false
  end.

(** ** Dicts: association lists in insertion order *)

Abbreviation dict V := (list (list ascii * V)) (only parsing).

Section Dict.

Variable V : Type.

(** [d.get(k)] *)
Fixpoint dict_get (d : dict V) (k : str) : option V :=
  match d with
  | [] => None
  | (k', v) :: d' => if str_eqb k' k then Some v else dict_get d' k
  end.

(** [d[k] = v]: a known key keeps its place, a new key goes last. *)
Fixpoint dict_set (d : dict V) (k : str) (v : V) : dict V :=
  match d with
  | [] => [(k, v)]
  | (k', v') :: d' =>
      if str_eqb k' k then (k', v) :: d' else (k', v') :: dict_set d' k v
  end.

Definition dict_keys (d : dict V) : list str := map fst d.

(** [k in d] *)
Definition dict_has (d : dict V) (k : str) : bool :=
  match dict_get d k with Some _ => true | None => false end.

(** [d.update(e)] *)
Definition dict_update (d e : dict V) : dict V :=
  fold_left (fun acc kv => dict_set acc (fst kv) (snd kv)) e d.

End Dict.

Arguments dict_get {V} d k.
Arguments dict_set {V} d k v.
Arguments dict_keys {V} d.
Arguments dict_has {V} d k.
Arguments dict_update {V} d e.

(** ** Outcomes of a call *)

Inductive exn : Type :=
| KeyError
| TypeError
| ValueError
| AttributeError
| AccessException
| ValidationException
| ResourcePathNotFound.

(** A call returns, raises, or is cut short by the recursion budget of the
    model. *)
Inductive outcome (A : Type) : Type :=
| Ok (a : A)
| Raise (e : exn)
| OutOfFuel.

Arguments Ok {A} a.
Arguments Raise {A} e.
Arguments OutOfFuel {A}.

Definition bind {A B} (c : outcome A) (k : A -> outcome B) : outcome B :=
  match c with
  | Ok a => k a
  | Raise e => Raise e
  | OutOfFuel => OutOfFuel
  end.

Notation "x <- c ;; k" := (bind c (fun x => k))
  (at level 61, c at next level, right associativity).
Notation "' p <- c ;; k" := (bind c (fun p => k))
  (at level 61, p pattern, c at next level, right associativity).

(** [[f(x) for x in l]] *)
Fixpoint map_outcome {A B} (f : A -> outcome B) (l : list A) : outcome (list B) :=
  match l with
  | [] => Ok []
  | x :: l' => y <- f x ;; ys <- map_outcome f l' ;; Ok (y :: ys)
  end.

(** A loop that threads a state and stops at the first exception. *)
Fixpoint for_each {A S} (body : S -> A -> outcome S) (l : list A) (s : S)
  : outcome S :=
  match l with
  | [] => Ok s
  | x :: l' => s' <- body s x ;; for_each body l' s'
  end.

(** [needle in hay] on strings: [needle] occurs in [hay]. *)
Fixpoint is_prefix (p s : str) : bool :=
  match p, s with
  | [], _ => true
  | a :: p', b :: s' => Ascii.eqb a b && is_prefix p' s'
  | _ :: _, [] => false
  end.

Fixpoint is_infix (needle hay : str) : bool :=
  is_prefix needle hay ||
  match hay with
  | [] => false
  | _ :: hay' => is_infix needle hay'
  end.

(** [k in v] for a string [k]: a key of a dict, an element of a list, a
    substring of a string. *)
Definition py_in (k : str) (v : JSON) : outcome bool :=
  match v with
  | JDict d => Ok (dict_has d k)
  | JList l => Ok (existsb (py_eq (JStr k)) l)
  | JStr s => Ok (is_infix k s)
  | _ => Raise TypeError
  end.

(** [v[k]] for a string [k] *)
Definition py_getitem (v : JSON) (k : str) : outcome JSON :=
  match v with
  | JDict d => match dict_get d k with Some x => Ok x | None => Raise KeyError end
  | _ => Raise TypeError
  end.

(** [v.get(k, default)] *)
Definition py_get (v : JSON) (k : str) (default : JSON) : outcome JSON :=
  match v with
  | JDict d => Ok (match dict_get d k with Some x => x | None => default end)
  | _ => Raise AttributeError
  end.

(** ** [_createContextForStr], [_deeperContextualize], [contextualize] *)

Definition _createContextForStr (s : str) : JSON * str :=
  let sp := split "/"%char s in
  let dotted_tail := has_char "."%char (last sp []) in
  let k := remove_char ":"%char
             (remove_char "."%char
                (join "_" (if negb dotted_tail then removelast sp else sp))) in
  if negb dotted_tail
  then (JDict [(k, JStr (join "/" (removelast sp) ++ "/"))],
        k ++ ":" ++ last sp [])
  else (JDict [(k, JStr s)], k).

(** [if c not in context: context.append(c)]; only a list can be searched
    for a dict. *)
Definition context_add (c : JSON) (context : JSON) : outcome JSON :=
  match context with
  | JList l => Ok (if existsb (fun e => py_eq e c) l then context
                   else JList (l ++ [c]))
  | _ => Raise TypeError
  end.

Definition _deeperContextualize (ldObj : dict JSON) (context : JSON)
  : outcome (JSON * dict JSON) :=
  for_each
    (fun (st : JSON * dict JSON) (kv : str * JSON) =>
       let (context, newObj) := st in
       let (k, v) := kv in
       if is_dict v && has_char "."%char k then
         let (c, o) := _createContextForStr k in
         context' <- context_add c context ;;
         Ok (context', dict_set newObj o v)
       else Ok (context, dict_set newObj k v))
    ldObj (context, []).

Definition contextualize (ldObj : JSON) : outcome JSON :=
  match ldObj with
  | JDict d =>
      let context :=
        match dict_get d "@context" with Some c => c | None => JList [] end in
      ' (context, newObj) <-
        for_each
          (fun (st : JSON * dict JSON) (kv : str * JSON) =>
             let (context, newObj) := st in
             let (k, v) := kv in
             match v with
             | JDict dv =>
                 ' (context', o) <- _deeperContextualize dv context ;;
                 Ok (context', dict_set newObj k (JDict o))
             | _ => Ok (context, dict_set newObj k v)
             end)
          d (context, []) ;;
      Ok (JDict (dict_set newObj "@context" context))
  | _ => Raise AttributeError
  end.

(** *** Vocabulary of the contextualization property *)

(** The dotted keys with a dict value, at any depth. *)
Fixpoint dotted_dict_keys (v : JSON) : list str :=
  match v with
  | JDict d =>
      (fix entries (d : list (str * JSON)) : list str :=
         match d with
         | [] => []
         | (k, x) :: d' =>
             (if is_dict x && has_char "."%char k then [k] else [])
               ++ dotted_dict_keys x ++ entries d'
         end) d
  | JList l =>
      (fix elements (l : list JSON) : list str :=
         match l with
         | [] => []
         | x :: l' => dotted_dict_keys x ++ elements l'
         end) l
  | _ => []
  end.

(** A context entry [{prefix: value}] whose value is a prefix of [k]. *)
Definition entry_covers (k : str) (e : JSON) : bool :=
  match e with
  | JDict [(_, JStr p)] => is_prefix p k
  | _ => false
  end.

(** The [@context] of [r] is a list that holds an entry for [k]. *)
Definition context_covers (r : JSON) (k : str) : bool :=
  match r with
  | JDict rd =>
      match dict_get rd "@context" with
      | Some (JList l) => existsb (entry_covers k) l
      | _ => false
      end
  | _ => false
  end.

(** The dicts among the values of [o] have no dotted key. *)
Definition undotted_dict_keys (o : dict JSON) : Prop :=
  forall k v, In (k, JDict v) o -> has_char "."%char k = false.

(** The values of [o] that are dicts have no dotted key with a dict value. *)
Definition second_level_undotted (o : dict JSON) : Prop :=
  forall k1 sub, In (k1, JDict sub) o -> undotted_dict_keys sub.


(** ** [keyExpansion] and [expand] *)

Definition KEYS_TO_EXPAND : list str :=
  [ "responseOptions" : str;
    "https://schema.repronim.org/valueconstraints" : str;
    "reproterms:valueconstraints" : str;
    "valueconstraints" : str ].

(** [k in keys] for a list of strings. *)
Definition str_in (k : str) (keys : list str) : bool := existsb (str_eqb k) keys.

(** The result is a [list(set(...))]: its order is arbitrary and the code
    only tests membership in it. *)
Definition keyExpansion (keys : list str) : list str :=
  nodup str_eq_dec
    (flat_map
       (fun k =>
          flat_map
            (fun delimiter =>
               if has_char delimiter k then [last (split delimiter k) []]
               else [])
            [":"%char; "/"%char])
       keys
     ++ filter (fun k => negb (has_char ":"%char k) && negb (has_char "/"%char k))
               keys).

(** What [jsonld.expand] of the linked-data library does with a document:
    it returns the expanded document, a list, or raises [JsonLdError]. Of
    the error the code reads [e.cause.type] and [e.cause.details.get('url')];
    an error without a cause has neither. *)
Record JsonLdCause : Type :=
  { cause_type : str;
    cause_url : JSON }.

Inductive expansion : Type :=
| Expanded (newObj : list JSON)
| JsonLdError (cause : option JsonLdCause).

(** [l.remove(x)]: the list after the call, from which the first element
    equal to [x] is gone, and the value of the call, which is [None]. *)
Fixpoint remove_first (x : JSON) (l : list JSON) : list JSON :=
  match l with
  | [] => []
  | e :: l' => if py_eq e x then l' else e :: remove_first x l'
  end.

Definition list_remove (l : list JSON) (x : JSON) : outcome (list JSON * JSON) :=
  if existsb (fun e => py_eq e x) l then Ok (remove_first x l, JNull)
  else Raise ValueError.

(** [obj["@context"] = obj.get('@context', []).remove(invalidContext)]:
    the object after the statement. What is stored is the value of the call
    of [remove]. *)
Definition drop_invalid_context (obj : JSON) (invalidContext : JSON)
  : outcome JSON :=
  match obj with
  | JDict d =>
      match match dict_get d "@context" with Some c => c | None => JList [] end with
      | JList l =>
          ' (_, returned) <- list_remove l invalidContext ;;
          Ok (JDict (dict_set d "@context" returned))
      | _ => Raise AttributeError
      end
  | _ => Raise AttributeError
  end.

(** [for n in v] for a value that is not a dict. *)
Definition py_iter (v : JSON) : outcome (list JSON) :=
  match v with
  | JList l => Ok l
  | JStr s => Ok (map (fun c => JStr [c]) s)
  | JDict d => Ok (map (fun kv => JStr (fst kv)) d)
  | _ => Raise TypeError
  end.

(** The falsy-valued keys popped. *)
Definition drop_falsy (d : dict JSON) : dict JSON :=
  filter (fun kv => truthy (snd kv)) d.

(** The dict comprehension merged back by [newObj.update]: the truthy
    top-level entries of [obj] whose key is not in
    [keyExpansion(list(newObj.keys()))]. *)
Definition kept_back (obj newObj : dict JSON) : dict JSON :=
  flat_map
    (fun k =>
       match dict_get obj k with
       | Some v =>
           if truthy v && negb (str_in k (keyExpansion (dict_keys newObj)))
           then [(k, v)] else []
       | None => []
       end)
    (dict_keys obj).

(** The new value for one of [KEYS_TO_EXPAND] whose current value is [x]:
    a list is expanded through the [@id] of its elements, anything else is
    expanded itself. *)
Definition expand_value (expand : JSON -> bool -> outcome JSON) (x : JSON)
  : outcome JSON :=
  match x with
  | JList lvs =>
      v <- map_outcome
             (fun lv => id <- py_get lv "@id" JNull ;; expand id false) lvs ;;
      Ok (if py_eq (JList v) (JList [JNull]) then JNull else JList v)
  | _ => expand x false
  end.

(** One turn of [for k in KEYS_TO_EXPAND]. *)
Definition expand_key (expand : JSON -> bool -> outcome JSON)
           (newObj : dict JSON) (k : str) : outcome (dict JSON) :=
  match dict_get newObj k with
  | None => Ok newObj
  | Some x =>
      v <- expand_value expand x ;;
      Ok (if truthy v then dict_set newObj k v else newObj)
  end.

Section Expand.

Variable jsonld_expand : JSON -> expansion.

(** Objects are values here. The retry after an unreachable context runs on
    the object as line 102 leaves it, but a caller that holds the same
    object, as the loop over [KEYS_TO_EXPAND] does for a value that was
    merged back, does not see that change. What a result holds after a
    recursive call is therefore stated for a library that reports no
    unreachable context ([no_context_error] below): line 102 is the only
    place where [expand] changes an object of its caller. *)
Fixpoint expand (fuel : nat) (obj : JSON) (keepUndefined : bool)
  : outcome JSON :=
  match fuel with
  | 0 => OutOfFuel
  | S fuel' =>
      match obj with
      | JNull => Ok obj
      | _ =>
          match jsonld_expand obj with
          | JsonLdError None => Raise AttributeError
          | JsonLdError (Some cause) =>
              if str_eqb (cause_type cause) "jsonld.ContextUrlError" then
                obj' <- drop_invalid_context obj (cause_url cause) ;;
                expand fuel' obj' keepUndefined
              else Ok obj
          | Expanded newObj =>
              match match newObj with [x] => x | _ => JList newObj end with
              | JDict newObj =>
                  let obj := match obj with JDict d => d | _ => [] end in
                  let newObj := drop_falsy newObj in
                  let newObj := dict_update newObj (kept_back obj newObj) in
                  newObj <- for_each (expand_key (expand fuel'))
                                     KEYS_TO_EXPAND newObj ;;
                  Ok (if truthy (JDict newObj) then JDict newObj else JNull)
              | newObj =>
                  elements <- py_iter newObj ;;
                  expanded <- map_outcome
                                (fun n => expand fuel' n keepUndefined)
                                elements ;;
                  Ok (if truthy (JList expanded) then JList expanded
                      else JNull)
              end
          end
      end
  end.

End Expand.

(** A linked-data library given by its answers on a finite set of
    documents; any other document expands to nothing. *)
Definition expansion_table (table : list (JSON * expansion)) (obj : JSON)
  : expansion :=
  match find (fun row => py_eq (fst row) obj) table with
  | Some row => snd row
  | None => Expanded []
  end.


(** The entries of a returned dict; [None] has none. *)
Definition entries (r : JSON) : dict JSON :=
  match r with JDict d => d | _ => [] end.





(** A document with two remote contexts, the first of which cannot be
    fetched; without its contexts the document has no defined term. *)
Definition item_with_contexts : dict JSON :=
  [ ("@context" : str,
     JList [JStr "https://unreachable.example/context";
            JStr "https://schema.org"]);
    ("name" : str, JStr "Q") ].

Definition unreachable_table : list (JSON * expansion) :=
  [ (JDict item_with_contexts,
     JsonLdError
       (Some {| cause_type := "jsonld.ContextUrlError";
                cause_url := JStr "https://unreachable.example/context" |}));
    (JDict [("@context" : str, JNull); ("name" : str, JStr "Q")],
     Expanded []) ].

(** ** Language tags *)

(** [s.split(sep, 1)]: the text before the first separator and the text
    after it. *)
Fixpoint split_once (sep : ascii) (s : str) : str * str :=
  match s with
  | [] => ([], [])
  | c :: s' =>
      if Ascii.eqb c sep then ([], s')
      else let (a, b) := split_once sep s' in (c :: a, b)
  end.

(** The [while '-' in langTag] loop; every turn shortens the tag, so its
    length bounds the number of turns. *)
Fixpoint getMoreGeneric_loop (turns : nat) (langTag : str) : list str :=
  match turns with
  | 0 => []
  | S turns' =>
      if has_char "-"%char langTag then
        let langTag := rev (snd (split_once "-"%char (rev langTag))) in
        langTag :: getMoreGeneric_loop turns' langTag
      else []
  end.

Definition getMoreGeneric (langTag : str) : list str :=
  langTag :: getMoreGeneric_loop (length langTag) langTag.

(** [sorted(l, key=key, reverse=reverse)]: a stable sort, also when
    reversed. *)
Section Sorted.

Variable A : Type.
Variable key : A -> nat.
Variable reverse : bool.

Definition goes_first (x y : A) : bool :=
  if reverse then Nat.leb (key y) (key x) else Nat.leb (key x) (key y).

Fixpoint insert_sorted (x : A) (l : list A) : list A :=
  match l with
  | [] => [x]
  | y :: l' => if goes_first x y then x :: l else y :: insert_sorted x l'
  end.

Definition sorted (l : list A) : list A := fold_right insert_sorted [] l.

End Sorted.

(** [max(l, key=len) if len(l) else None]: the first of the longest. *)
Fixpoint longest (l : list str) : option str :=
  match l with
  | [] => None
  | x :: l' =>
      match longest l' with
      | Some y => if Nat.ltb (length x) (length y) then Some y else Some x
      | None => Some x
      end
  end.

(** [l.remove(x)] on a list of strings that holds [x]. *)
Fixpoint remove_str (x : str) (l : list str) : list str :=
  match l with
  | [] => []
  | y :: l' => if str_eqb y x then l' else y :: remove_str x l'
  end.

(** [{k.lower(): v for k, v in object.items()}] *)
Definition lower_keys (object : dict JSON) : dict JSON :=
  fold_left (fun acc kv => dict_set acc (lower (fst kv)) (snd kv)) object [].

Definition nonempty (s : str) : bool :=
  match s with [] => false | _ => true end.

Fixpoint getFromLongestMatchingKey (fuel : nat) (object : dict JSON)
         (listOfKeys : list str) (caseInsensitive : bool) : outcome JSON :=
  match fuel with
  | 0 => OutOfFuel
  | S fuel' =>
      let object := if caseInsensitive then lower_keys object else object in
      let listOfKeys :=
        if caseInsensitive then map lower listOfKeys else listOfKeys in
      match longest listOfKeys with
      | None => Ok JNull
      | Some key =>
          if nonempty key then
            let listOfKeys :=
              if str_in key listOfKeys then remove_str key listOfKeys
              else listOfKeys in
            default <- getFromLongestMatchingKey fuel' object listOfKeys true ;;
            Ok (match dict_get object key with
                | Some v => v
                | None => default
                end)
          else Ok JNull
      end
  end.

(** [len(v)] *)
Definition py_len (v : JSON) : outcome nat :=
  match v with
  | JStr s => Ok (length s)
  | JList l => Ok (length l)
  | JDict d => Ok (length d)
  | _ => Raise TypeError
  end.

(** [v.lower()] *)
Definition py_lower (v : JSON) : outcome JSON :=
  match v with
  | JStr s => Ok (JStr (lower s))
  | _ => Raise AttributeError
  end.

(** The first element for which the test holds, as a [for] loop with a
    [return] finds it. *)
Fixpoint first_match (test : JSON -> outcome bool) (l : list JSON)
  : outcome (option JSON) :=
  match l with
  | [] => Ok None
  | x :: l' =>
      b <- test x ;;
      if b then Ok (Some x) else first_match test l'
  end.

(** [value] as a Python value: the longest string, or [None]. *)
Definition or_None (value : option str) : JSON :=
  match value with Some v => JStr v | None => JNull end.

Fixpoint getFromLongestMatchingValue (fuel : nat) (objectList : list JSON)
         (listOfValues : list str) (keyToMatch : str) (caseInsensitive : bool)
  : outcome JSON :=
  match fuel with
  | 0 => OutOfFuel
  | S fuel' =>
      let listOfValues :=
        if caseInsensitive then map lower listOfValues else listOfValues in
      let value := longest listOfValues in
      let listOfValues :=
        match value with
        | Some v =>
            if nonempty v && str_in v listOfValues
            then remove_str v listOfValues else listOfValues
        | None => listOfValues
        end in
      let matched (object : JSON) : outcome JSON :=
        t <- py_get object keyToMatch (JStr "") ;;
        if caseInsensitive then py_lower t else Ok t in
      keyed <- map_outcome
                 (fun i =>
                    t <- py_get i keyToMatch (JStr "") ;;
                    n <- py_len t ;;
                    Ok (n, i))
                 objectList ;;
      found <- first_match
                 (fun object =>
                    t <- matched object ;; Ok (py_eq t (or_None value)))
                 (map snd (sorted fst true keyed)) ;;
      match found with
      | Some object => Ok object
      | None =>
          if Nat.leb 1 (length listOfValues) then
            getFromLongestMatchingValue fuel' objectList listOfValues
                                        keyToMatch caseInsensitive
          else
            found <- first_match
                       (fun object =>
                          generic <- matched object ;;
                          dashed <- py_in "-" generic ;;
                          generic <- (if dashed then
                                        match generic with
                                        | JStr g =>
                                            Ok (JStr (hd [] (split "-"%char g)))
                                        | _ => Raise AttributeError
                                        end
                                      else Ok generic) ;;
                          Ok (py_eq generic (or_None value)))
                       (map snd (sorted fst false keyed)) ;;
            Ok (match found with Some object => object | None => JDict [] end)
      end
  end.

(** [getByLanguage]. [default_language] is what the lookup of the
    system-wide context document gives when no tag is passed; [fuel] bounds
    the recursion of the two helpers. *)
Definition getByLanguage (default_language : outcome JSON) (fuel : nat)
           (object : JSON) (tag : JSON) : outcome JSON :=
  tag <- (if negb (truthy tag) then default_language else Ok tag) ;;
  let otherwise :=
    match object with JStr _ => Ok object | _ => Ok JNull end in
  match tag with
  | JStr tag =>
      let tags := getMoreGeneric tag in
      let tags := tags ++ map (fun t => "@"%char :: t) tags in
      let tags := sorted (@length ascii) true tags in
      match object with
      | JDict d => getFromLongestMatchingKey fuel d tags true
      | JList l =>
          r <- getFromLongestMatchingValue fuel l tags "@language" true ;;
          Ok (JList [r])
      | _ => otherwise
      end
  | _ => otherwise
  end.

Definition greetings : JSON :=
  JDict [("en-us" : str, JStr "Hello"); ("en" : str, JStr "Hi");
         ("fr" : str, JStr "Bonjour")].

(** ** [formatLdObject]: the retry around the [try] block *)

Record ldArgs : Type :=
  { obj : JSON;
    mesoPrefix : str;
    user : JSON;
    keepUndefined : bool;
    dropErrors : bool;
    refreshCache : bool;
    responseDates : bool }.

Section FormatLdObject.

(** The document store, the network and the standard output. *)
Variable World : Type.

(** The body of the [try] statement. It is given the function itself for
    its recursive calls, the arguments and the world, and stops by
    returning a value or by raising; with the outcome come the object
    bound to [obj], which the body updates in place, and the value of
    [mesoPrefix], the one parameter it reassigns, as they are when it
    stops. *)
Variable try_block :
  (ldArgs -> World -> outcome JSON * World) ->
  ldArgs -> World -> outcome JSON * (JSON * str) * World.

(** [print(sys.exc_info())] and [print(traceback.print_tb(...))] *)
Variable print_exc_info : exn -> World -> World.

(** The call the handler makes when [refreshCache == False]. *)
Definition retry_args (a : ldArgs) (now : JSON * str) : ldArgs :=
  {| obj := fst now;
     mesoPrefix := snd now;
     user := user a;
     keepUndefined := keepUndefined a;
     dropErrors := dropErrors a;
     refreshCache := true;
     responseDates := responseDates a |}.

Fixpoint formatLdObject (fuel : nat) (a : ldArgs) (w : World)
  : outcome JSON * World :=
  match fuel with
  | 0 => (OutOfFuel, w)
  | S fuel' =>
      match try_block (formatLdObject fuel') a w with
      | (Ok returnObj, _, w') => (Ok returnObj, w')
      | (OutOfFuel, _, w') => (OutOfFuel, w')
      | (Raise e, now, w') =>
          if negb (refreshCache a)
          then formatLdObject fuel' (retry_args a now) w'
          else (Ok JNull, print_exc_info e w')
      end
  end.

End FormatLdObject.

(** ** The document store of the framework

    The models of the framework ([Folder], [Item], [User]) are not part of
    the files under study; the calls the route handlers make are modelled
    from the specification. *)

Record Folder : Type :=
  { folder_id : str;
    folder_name : str;
    parentCollection : str;
    parentId : str;
    folder_meta : option JSON }.

Record Item : Type :=
  { item_id : str;
    folderId : str;
    item_name : str;
    description : str;
    creatorId : str;
    item_meta : option JSON }.

Record store : Type :=
  { users : list str;
    folders : list Folder;
    items : list Item;
    handed_out : nat }.

Inductive AccessType : Type := NONE | READ.

(** A computation on the store that returns or raises. *)
Definition M (A : Type) : Type := store -> outcome A * store.

Definition ret {A} (a : A) : M A := fun st => (Ok a, st).

Definition lift {A} (c : outcome A) : M A := fun st => (c, st).

Definition bindM {A B} (c : M A) (k : A -> M B) : M B :=
  fun st =>
    match c st with
    | (Ok a, st') => k a st'
    | (Raise e, st') => (Raise e, st')
    | (OutOfFuel, st') => (OutOfFuel, st')
    end.

Notation "x <~ c ;; k" := (bindM c (fun x => k))
  (at level 61, c at next level, right associativity).

Section Framework.

(** The identifier the database gives to the [n]-th document it creates. *)
Variable object_id : nat -> str.

(** The permission system: may this user (or nobody, for a public call)
    read this folder? *)
Variable may_read : option str -> Folder -> bool.

Definition is_child (parentType parent : str) (f : Folder) : bool :=
  str_eqb (parentCollection f) parentType && str_eqb (parentId f) parent.

(** Modelled from the spec: [Folder().createFolder(parent, parentType,
    name, reuseExisting=True)] is "idempotent create-or-reuse", "by
    name": the child of that name is returned when there is one,
    otherwise it is created. *)
Definition createFolder (parent parentType name : str) : M Folder :=
  fun st =>
    match find (fun f => is_child parentType parent f
                         && str_eqb (folder_name f) name) (folders st) with
    | Some f => (Ok f, st)
    | None =>
        let f := {| folder_id := object_id (handed_out st);
                    folder_name := name;
                    parentCollection := parentType;
                    parentId := parent;
                    folder_meta := None |} in
        (Ok f, {| users := users st;
                  folders := folders st ++ [f];
                  items := items st;
                  handed_out := S (handed_out st) |})
    end.

(** Modelled from the spec: [Folder().childFolders(parent,
    parentType='folder', user)] "enumerates its child folders", in the
    order of the store, those the user may read. *)
Definition childFolders (parent : Folder) (user : option str) (st : store)
  : list Folder :=
  filter (fun f => is_child "folder" (folder_id parent) f && may_read user f)
         (folders st).

(** Modelled from the spec: [Folder().childItems(folder)] gives "all
    child items" of the folder. *)
Definition childItems (f : Folder) (st : store) : list Item :=
  filter (fun i => str_eqb (folderId i) (folder_id f)) (items st).

(** Modelled from the spec: [UserModel().load(id, level=NONE, exc=True)]
    "fails with a not-found/invalid-ID error" when there is no such
    user. *)
Definition loadUser (id : str) : M str :=
  fun st =>
    if str_in id (users st) then (Ok id, st)
    else (Raise ValidationException, st).

(** Modelled from the spec: [Folder().load(id, user, level, exc=True)]
    fails on an unknown identifier, and on a folder the user may not
    read when the level is [READ]; no access is enforced at [NONE]. *)
Definition loadFolder (id : str) (user : option str) (level : AccessType)
  : M Folder :=
  fun st =>
    match find (fun f => str_eqb (folder_id f) id) (folders st) with
    | None => (Raise ValidationException, st)
    | Some f =>
        match level with
        | NONE => (Ok f, st)
        | READ => if may_read user f then (Ok f, st)
                  else (Raise AccessException, st)
        end
    end.

(** Modelled from the spec: [createItem(folder, name, creator,
    description, reuseExisting=False)] "makes a new item" at every
    call. *)
Definition createItem (f : Folder) (name creator description : str) : M Item :=
  fun st =>
    let i := {| item_id := object_id (handed_out st);
                folderId := folder_id f;
                item_name := name;
                description := description;
                creatorId := creator;
                item_meta := None |} in
    (Ok i, {| users := users st;
              folders := folders st;
              items := items st ++ [i];
              handed_out := S (handed_out st) |}).

(** Modelled from the spec: [setMetadata(item, metadata)] "attaches
    metadata as item metadata" and returns the item. *)
Definition setMetadata (i : Item) (metadata : JSON) : M Item :=
  fun st =>
    let i' := {| item_id := item_id i;
                 folderId := folderId i;
                 item_name := item_name i;
                 description := description i;
                 creatorId := creatorId i;
                 item_meta := Some metadata |} in
    (Ok i', {| users := users st;
               folders := folders st;
               items := map (fun x => if str_eqb (item_id x) (item_id i)
                                      then i' else x) (items st);
               handed_out := handed_out st |}).

(** *** [ResponseItem.getResponses] *)

(** The test of the [elif]: ['meta' in f and 'applet' in f['meta'] and
    f['meta']['applet']['@id'] == appletId]. *)
Definition matches_by_id (f : Folder) (appletId : str) : outcome bool :=
  match folder_meta f with
  | None => Ok false
  | Some meta =>
      has <- py_in "applet" meta ;;
      if has then
        applet <- py_getitem meta "applet" ;;
        id <- py_getitem applet "@id" ;;
        Ok (py_eq id (JStr appletId))
      else Ok false
  end.

Definition getResponses (reviewer : option str) (userId appletId : str)
  : M (dict (list Item)) :=
  user <~ loadUser userId ;;
  folder <~ loadFolder appletId (Some user) NONE ;;
  let appletName := folder_name folder in
  UserResponsesFolder <~ createFolder user "user" "Responses" ;;
  fun st =>
    let UserAppletResponsesFolders :=
      childFolders UserResponsesFolder reviewer st in
    (for_each
       (fun (allResponses : dict (list Item)) (appletResponsesFolder : Folder) =>
          if str_eqb (folder_name appletResponsesFolder) appletName then
            Ok (dict_set allResponses appletId
                         (childItems appletResponsesFolder st))
          else
            by_id <- matches_by_id appletResponsesFolder appletId ;;
            if by_id then
              let allResponses := dict_set allResponses appletId [] in
              folder <- fst (loadFolder (folder_id appletResponsesFolder)
                                        reviewer READ st) ;;
              let subjectFolders := childFolders folder reviewer st in
              for_each
                (fun (allResponses : dict (list Item)) subjectFolder =>
                   Ok (dict_set allResponses appletId
                         (match dict_get allResponses appletId with
                          | Some l => l
                          | None => []
                          end ++ childItems subjectFolder st)))
                subjectFolders allResponses
            else Ok allResponses)
       UserAppletResponsesFolders [],
     st).

(** *** [ResponseItem.createResponseItem] *)

Record datetime : Type :=
  { year : nat; month : nat; day : nat;
    hour : nat; minute : nat; second : nat;
    tzname : str }.

Definition digit (n : nat) : ascii := ascii_of_nat (48 + n mod 10).

Definition two_digits (n : nat) : str := [digit (n / 10); digit n].

Definition four_digits (n : nat) : str :=
  [digit (n / 1000); digit (n / 100); digit (n / 10); digit n].

(** [now.strftime("%Y-%m-%d")] *)
Definition strftime_date (now : datetime) : str :=
  four_digits (year now) ++ "-" ++ two_digits (month now) ++ "-"
    ++ two_digits (day now).

(** [now.strftime("%H:%M:%S %Z")] *)
Definition strftime_time (now : datetime) : str :=
  two_digits (hour now) ++ ":" ++ two_digits (minute now) ++ ":"
    ++ two_digits (second now) ++ " " ++ tzname now.

(** [now.strftime("%Y-%m-%d-%H-%M-%S-%Z")] *)
Definition strftime_stamp (now : datetime) : str :=
  strftime_date now ++ "-" ++ two_digits (hour now) ++ "-"
    ++ two_digits (minute now) ++ "-" ++ two_digits (second now) ++ "-"
    ++ tzname now.

(** [str(v)] of a value that is not a string. *)
Variable py_str : JSON -> str.

(** ["{}".format(v)] *)
Definition format_value (v : JSON) : str :=
  match v with JStr s => s | _ => py_str v end.

(** [key in metadata and sub in metadata[key]] *)
Definition has_sub (metadata : JSON) (key sub : str) : outcome bool :=
  has <- py_in key metadata ;;
  if has then x <- py_getitem metadata key ;; py_in sub x else Ok false.

(** The conditional expression that names the applet folder and labels
    the activity. *)
Definition label_of (metadata : JSON) (key unknown : str) : outcome JSON :=
  by_id <- has_sub metadata key "@id" ;;
  if by_id then x <- py_getitem metadata key ;; py_getitem x "@id" else
  by_label <- has_sub metadata key "skos:prefLabel" ;;
  if by_label then
    x <- py_getitem metadata key ;; py_getitem x "skos:prefLabel" else
  by_name <- has_sub metadata key "name" ;;
  if by_name then x <- py_getitem metadata key ;; py_getitem x "name" else
  has <- py_in key metadata ;;
  is_str <- (if has then
               x <- py_getitem metadata key ;;
               Ok (match x with JStr _ => true | _ => false end)
             else Ok false) ;;
  if is_str then py_getitem metadata key else Ok (JStr unknown).

(** A folder name is a string; the framework fails on anything else. *)
Definition as_name (v : JSON) : outcome str :=
  match v with JStr s => Ok s | _ => Raise AttributeError end.

Definition createResponseItem (informant : str) (subject_id : option str)
           (metadata : JSON) (now : datetime) : M Item :=
  let subject_id :=
    match subject_id with Some s => s | None => informant end in
  UserResponsesFolder <~ createFolder informant "user" "Responses" ;;
  name <~ lift (v <- label_of metadata "applet" "[Unknown Applet]" ;;
                as_name v) ;;
  UserAppletResponsesFolder <~
    createFolder (folder_id UserResponsesFolder) "folder" name ;;
  AppletSubjectResponsesFolder <~
    createFolder (folder_id UserAppletResponsesFolder) "folder" subject_id ;;
  activity <~ lift (label_of metadata "activity" "[Unknown Activity]") ;;
  newItem <~
    createItem AppletSubjectResponsesFolder (strftime_stamp now) informant
      (format_value activity ++ " response on " ++ strftime_date now
         ++ " at " ++ strftime_time now) ;;
  if truthy metadata then setMetadata newItem metadata else ret newItem.

End Framework.

(** The fallback chain as the specification words it: [@id], then
    [skos:prefLabel], then [name], then the raw string, then the
    placeholder. *)
Definition fallback_chain (value : option JSON) (unknown : str) : JSON :=
  match value with
  | Some (JDict d) =>
      match dict_get d "@id" with
      | Some v => v
      | None =>
          match dict_get d "skos:prefLabel" with
          | Some v => v
          | None =>
              match dict_get d "name" with
              | Some v => v
              | None => JStr unknown
              end
          end
      end
  | Some (JStr s) => JStr s
  | _ => JStr unknown
  end.

(** *** The body of the [try] statement of [formatLdObject]

    The two branches that format an applet and an activity set call models
    and helpers that are not part of the files under study ([getFromUrl],
    [save], [smartImport], [responseDateList]); they are parameters.
    Values are passed by value: the changes that [expand] makes in place
    to the sub-object it is given are not carried back into [obj]; no
    property below depends on them. *)

Section FormatLdObjectBody.

Variable World : Type.
Variable jsonld_expand : JSON -> expansion.
Variable py_str : JSON -> str.

(** The recursion budget given to [expand]. *)
Variable expand_fuel : nat.

(** What the statement [raise ResourcePathNotFound()] raises. The class is
    declared in [girderformindlogger.exceptions], outside these files; when
    its constructor requires a message, as the one of the framework's
    [ValidationException] does, the call, which passes none, raises
    [TypeError] before there is anything to raise. *)
Variable raised_without_id : exn.

(** [if mesoPrefix=='applet':] up to [returnObj = applet]: from the
    function itself, the variables of the call, [newObj] and [objID], the
    value of [returnObj] or an exception, and the object [obj], which
    gets its [cached] entry there. *)
Variable applet_branch :
  (ldArgs -> World -> outcome JSON * World) ->
  ldArgs -> JSON -> str -> World -> outcome JSON * JSON * World.

(** [elif mesoPrefix=='activitySet':] up to [return(activitySet)]. *)
Variable activitySet_branch :
  (ldArgs -> World -> outcome JSON * World) ->
  ldArgs -> JSON -> World -> outcome JSON * World.

(** [returnObj["applet"]["responseDates"] = responseDateList(...)] inside
    its own [try ... except: pass]. *)
Variable add_responseDates : ldArgs -> JSON -> World -> JSON * World.

(** [[formatLdObject(o, mesoPrefix) for o in obj if o is not None]] *)
Fixpoint format_each (self : ldArgs -> World -> outcome JSON * World)
         (mesoPrefix : str) (l : list JSON) (w : World)
  : outcome (list JSON) * World :=
  match l with
  | [] => (Ok [], w)
  | JNull :: l' => format_each self mesoPrefix l' w
  | o :: l' =>
      match self {| obj := o; mesoPrefix := mesoPrefix; user := JNull;
                    keepUndefined := false; dropErrors := false;
                    refreshCache := false; responseDates := false |} w with
      | (Ok r, w') =>
          match format_each self mesoPrefix l' w' with
          | (Ok rs, w'') => (Ok (r :: rs), w'')
          | other => other
          end
      | (Raise e, w') => (Raise e, w')
      | (OutOfFuel, w') => (OutOfFuel, w')
      end
  end.

(** The variables of the call, with [obj] and [mesoPrefix] as they are
    now. *)
Definition current_args (a : ldArgs) (now : JSON * str) : ldArgs :=
  {| obj := fst now;
     mesoPrefix := snd now;
     user := user a;
     keepUndefined := keepUndefined a;
     dropErrors := dropErrors a;
     refreshCache := refreshCache a;
     responseDates := responseDates a |}.

(** The last statements: the response dates, then [return(returnObj)]. *)
Definition return_with_dates (a : ldArgs) (now : JSON * str)
           (returnObj : JSON) (w : World)
  : outcome JSON * (JSON * str) * World :=
  if responseDates a && str_eqb (snd now) "applet" then
    let (returnObj, w') := add_responseDates a returnObj w in
    (Ok returnObj, now, w')
  else (Ok returnObj, now, w).

Definition formatLdObject_try
           (self : ldArgs -> World -> outcome JSON * World)
           (a : ldArgs) (w : World)
  : outcome JSON * (JSON * str) * World :=
  let unchanged := (obj a, mesoPrefix a) in
  let without_meta :=
    match obj a with
    | JNull => true
    | JDict d => negb (dict_has d "meta")
    | _ => false
    end in
  if without_meta then (Ok JNull, unchanged, w) else
  match py_in "cached" (obj a) with
  | Raise e => (Raise e, unchanged, w)
  | OutOfFuel => (OutOfFuel, unchanged, w)
  | Ok cached =>
      if cached && negb (refreshCache a) then
        match py_getitem (obj a) "cached" with
        | Ok returnObj => return_with_dates a unchanged returnObj w
        | Raise e => (Raise e, unchanged, w)
        | OutOfFuel => (OutOfFuel, unchanged, w)
        end
      else
        let mesoPrefix := camelCase (mesoPrefix a) in
        let now := (obj a, mesoPrefix) in
        match obj a with
        | JList l =>
            let (r, w') := format_each self mesoPrefix l w in
            (r' <- r ;; Ok (JList r'), now, w')
        | JDict d =>
            let newObj :=
              match dict_get d "meta" with Some m => m | None => obj a end in
            match (newObj <- py_get newObj mesoPrefix newObj ;;
                   expand jsonld_expand expand_fuel newObj (keepUndefined a))
            with
            | Raise e => (Raise e, now, w)
            | OutOfFuel => (OutOfFuel, now, w)
            | Ok newObj =>
                let newObj :=
                  match newObj with JList [x] => x | _ => newObj end in
                let newObj :=
                  match newObj with JDict n => n | _ => [] end in
                let objID :=
                  format_value py_str
                    (match dict_get d "_id" with
                     | Some id => id
                     | None => JStr "undefined"
                     end) in
                if str_eqb objID "undefined"
                then (Raise raised_without_id, now, w)
                else
                  let newObj :=
                    dict_set newObj "_id"
                             (JStr (join "/" [snake_case mesoPrefix; objID])) in
                  if str_eqb mesoPrefix "applet" then
                    match applet_branch self
                            (current_args a now) (JDict newObj) objID w with
                    | (Ok returnObj, obj', w') =>
                        return_with_dates a (obj', mesoPrefix) returnObj w'
                    | (Raise e, obj', w') => (Raise e, (obj', mesoPrefix), w')
                    | (OutOfFuel, obj', w') =>
                        (OutOfFuel, (obj', mesoPrefix), w')
                    end
                  else if str_eqb mesoPrefix "activitySet" then
                    let (r, w') :=
                      activitySet_branch self (current_args a now)
                                         (JDict newObj) w in
                    (r, now, w')
                  else (Ok (JDict newObj), now, w)
            end
        | _ =>
            if negb (dropErrors a) then (Raise TypeError, now, w)
            else (Raise AttributeError, now, w)
        end
  end.

End FormatLdObjectBody.

(** A stored document without [_id]: the body raises at
    [raise ResourcePathNotFound()], at the first attempt and at the retry.
    The world is the list of printed exceptions, and the constructor of
    the exception is the one that requires a message. *)
Definition unformattable : ldArgs :=
  {| obj := JDict [("meta" : str, JDict [])];
     mesoPrefix := "activity_set";
     user := JNull;
     keepUndefined := false;
     dropErrors := false;
     refreshCache := false;
     responseDates := false |}.

Definition plain_body :=
  @formatLdObject_try (list exn) (fun _ => Expanded []) (fun _ => [])
    1 TypeError
    (fun _ a r _ w => (Ok r, obj a, w))
    (fun _ _ r w => (Ok r, w))
    (fun _ r w => (r, w)).

(** A user with responses to one applet under both schemas: a folder named
    after the applet, with an item of its own, and a folder whose metadata
    carries the applet's identifier, with an item in a subject folder. *)
Definition applet_folder : Folder :=
  {| folder_id := "A1"; folder_name := "Mood Survey";
     parentCollection := "collection"; parentId := "applets";
     folder_meta := None |}.

Definition responses_folder : Folder :=
  {| folder_id := "R"; folder_name := "Responses";
     parentCollection := "user"; parentId := "u1";
     folder_meta := None |}.

Definition by_name_folder : Folder :=
  {| folder_id := "F1"; folder_name := "Mood Survey";
     parentCollection := "folder"; parentId := "R";
     folder_meta := None |}.

Definition by_id_folder : Folder :=
  {| folder_id := "F2"; folder_name := "A1";
     parentCollection := "folder"; parentId := "R";
     folder_meta :=
       Some (JDict [("applet" : str, JDict [("@id" : str, JStr "A1")])]) |}.

Definition subject_folder : Folder :=
  {| folder_id := "S1"; folder_name := "u1";
     parentCollection := "folder"; parentId := "F2";
     folder_meta := None |}.

Definition old_item : Item :=
  {| item_id := "i1"; folderId := "F1"; item_name := "2019-01-01";
     description := "old schema"; creatorId := "u1"; item_meta := None |}.

Definition new_item : Item :=
  {| item_id := "i2"; folderId := "S1"; item_name := "2019-06-01";
     description := "new schema"; creatorId := "u1"; item_meta := None |}.

Definition both_schemas (first second : Folder) : store :=
  {| users := ["u1" : str];
     folders := [applet_folder; responses_folder; first; second;
                 subject_folder];
     items := [old_item; new_item];
     handed_out := 0 |}.

Definition everyone (_ : option str) (_ : Folder) : bool := true.

Definition numbered (n : nat) : str := "doc" ++ two_digits n.

Definition survey_metadata : JSON :=
  JDict [("applet" : str, JDict [("@id" : str, JStr "A1")]);
         ("activity" : str, JDict [("name" : str, JStr "Survey")])].

Definition new_year : datetime :=
  {| year := 2020; month := 1; day := 1; hour := 9; minute := 30;
     second := 5; tzname := "UTC" |}.

Definition empty_store : store :=
  {| users := ["u1" : str]; folders := []; items := []; handed_out := 0 |}.

(** Case analysis on the 256 characters. *)
Ltac all_chars c :=
  destruct c as [[] [] [] [] [] [] [] []]; vm_compute; try reflexivity;
  try discriminate; auto.


(* ================================================================= *)
(** * Python strings beyond ASCII

    A [str] is a sequence of Unicode code points. The regular expressions
    of [snake_case] have ASCII classes whatever the text; [str.lower] and
    [str.isupper] follow the Unicode Character Database (version 14, the
    one of CPython 3.11), whose tables are given in full. The strings of
    8-bit characters used so far are the image of this model on ASCII
    text; the characters from 128 on have no case there. *)

Module Unicode.

(** A code point. *)
Abbreviation point := N (only parsing).

Definition in_range (lo hi c : point) : bool :=
  (lo <=? c)%N && (c <=? hi)%N.

Definition in_ranges (ranges : list (N * N)) (c : point) : bool :=
  existsb (fun r => in_range (fst r) (snd r) c) ranges.

(** The simple lowercase mappings of the Unicode Character Database: a row
    [(first, count, step, target)] sends [first + i * step] to
    [target + i * step] for [i < count]. *)
Definition lowercase_runs : list (N * N * N * N) :=
  [ (65, 26, 1, 97); (192, 23, 1, 224); (216, 7, 1, 248); (256, 24, 2, 257);
    (306, 3, 2, 307); (313, 8, 2, 314); (330, 23, 2, 331); (376, 1, 1, 255);
    (377, 3, 2, 378); (385, 1, 1, 595); (386, 2, 2, 387); (390, 1, 1, 596);
    (391, 1, 1, 392); (393, 2, 1, 598); (395, 1, 1, 396); (398, 1, 1, 477);
    (399, 1, 1, 601); (400, 1, 1, 603); (401, 1, 1, 402); (403, 1, 1, 608);
    (404, 1, 1, 611); (406, 1, 1, 617); (407, 1, 1, 616); (408, 1, 1, 409);
    (412, 1, 1, 623); (413, 1, 1, 626); (415, 1, 1, 629); (416, 3, 2, 417);
    (422, 1, 1, 640); (423, 1, 1, 424); (425, 1, 1, 643); (428, 1, 1, 429);
    (430, 1, 1, 648); (431, 1, 1, 432); (433, 2, 1, 650); (435, 2, 2, 436);
    (439, 1, 1, 658); (440, 1, 1, 441); (444, 1, 1, 445); (452, 1, 1, 454);
    (453, 1, 1, 454); (455, 1, 1, 457); (456, 1, 1, 457); (458, 1, 1, 460);
    (459, 9, 2, 460); (478, 9, 2, 479); (497, 1, 1, 499); (498, 2, 2, 499);
    (502, 1, 1, 405); (503, 1, 1, 447); (504, 20, 2, 505); (544, 1, 1, 414);
    (546, 9, 2, 547); (570, 1, 1, 11365); (571, 1, 1, 572); (573, 1, 1, 410);
    (574, 1, 1, 11366); (577, 1, 1, 578); (579, 1, 1, 384); (580, 1, 1, 649);
    (581, 1, 1, 652); (582, 5, 2, 583); (880, 2, 2, 881); (886, 1, 1, 887);
    (895, 1, 1, 1011); (902, 1, 1, 940); (904, 3, 1, 941); (908, 1, 1, 972);
    (910, 2, 1, 973); (913, 17, 1, 945); (931, 9, 1, 963); (975, 1, 1, 983);
    (984, 12, 2, 985); (1012, 1, 1, 952); (1015, 1, 1, 1016);
    (1017, 1, 1, 1010); (1018, 1, 1, 1019); (1021, 3, 1, 891);
    (1024, 16, 1, 1104); (1040, 32, 1, 1072); (1120, 17, 2, 1121);
    (1162, 27, 2, 1163); (1216, 1, 1, 1231); (1217, 7, 2, 1218);
    (1232, 48, 2, 1233); (1329, 38, 1, 1377); (4256, 38, 1, 11520);
    (4295, 1, 1, 11559); (4301, 1, 1, 11565); (5024, 80, 1, 43888);
    (5104, 6, 1, 5112); (7312, 43, 1, 4304); (7357, 3, 1, 4349);
    (7680, 75, 2, 7681); (7838, 1, 1, 223); (7840, 48, 2, 7841);
    (7944, 8, 1, 7936); (7960, 6, 1, 7952); (7976, 8, 1, 7968);
    (7992, 8, 1, 7984); (8008, 6, 1, 8000); (8025, 4, 2, 8017);
    (8040, 8, 1, 8032); (8072, 8, 1, 8064); (8088, 8, 1, 8080);
    (8104, 8, 1, 8096); (8120, 2, 1, 8112); (8122, 2, 1, 8048);
    (8124, 1, 1, 8115); (8136, 4, 1, 8050); (8140, 1, 1, 8131);
    (8152, 2, 1, 8144); (8154, 2, 1, 8054); (8168, 2, 1, 8160);
    (8170, 2, 1, 8058); (8172, 1, 1, 8165); (8184, 2, 1, 8056);
    (8186, 2, 1, 8060); (8188, 1, 1, 8179); (8486, 1, 1, 969);
    (8490, 1, 1, 107); (8491, 1, 1, 229); (8498, 1, 1, 8526);
    (8544, 16, 1, 8560); (8579, 1, 1, 8580); (9398, 26, 1, 9424);
    (11264, 48, 1, 11312); (11360, 1, 1, 11361); (11362, 1, 1, 619);
    (11363, 1, 1, 7549); (11364, 1, 1, 637); (11367, 3, 2, 11368);
    (11373, 1, 1, 593); (11374, 1, 1, 625); (11375, 1, 1, 592);
    (11376, 1, 1, 594); (11378, 1, 1, 11379); (11381, 1, 1, 11382);
    (11390, 2, 1, 575); (11392, 50, 2, 11393); (11499, 2, 2, 11500);
    (11506, 1, 1, 11507); (42560, 23, 2, 42561); (42624, 14, 2, 42625);
    (42786, 7, 2, 42787); (42802, 31, 2, 42803); (42873, 2, 2, 42874);
    (42877, 1, 1, 7545); (42878, 5, 2, 42879); (42891, 1, 1, 42892);
    (42893, 1, 1, 613); (42896, 2, 2, 42897); (42902, 10, 2, 42903);
    (42922, 1, 1, 614); (42923, 1, 1, 604); (42924, 1, 1, 609);
    (42925, 1, 1, 620); (42926, 1, 1, 618); (42928, 1, 1, 670);
    (42929, 1, 1, 647); (42930, 1, 1, 669); (42931, 1, 1, 43859);
    (42932, 8, 2, 42933); (42948, 1, 1, 42900); (42949, 1, 1, 642);
    (42950, 1, 1, 7566); (42951, 2, 2, 42952); (42960, 1, 1, 42961);
    (42966, 2, 2, 42967); (42997, 1, 1, 42998); (65313, 26, 1, 65345);
    (66560, 40, 1, 66600); (66736, 36, 1, 66776); (66928, 11, 1, 66967);
    (66940, 15, 1, 66979); (66956, 7, 1, 66995); (66964, 2, 1, 67003);
    (68736, 51, 1, 68800); (71840, 32, 1, 71872); (93760, 32, 1, 93792);
    (125184, 34, 1, 125218) ]%N.

(** The characters with the property [Uppercase], those for which
    [c.isupper()] holds, as inclusive ranges. *)
Definition uppercase_ranges : list (N * N) :=
  [ (65, 90); (192, 214); (216, 222); (256, 256); (258, 258); (260, 260);
    (262, 262); (264, 264); (266, 266); (268, 268); (270, 270); (272, 272);
    (274, 274); (276, 276); (278, 278); (280, 280); (282, 282); (284, 284);
    (286, 286); (288, 288); (290, 290); (292, 292); (294, 294); (296, 296);
    (298, 298); (300, 300); (302, 302); (304, 304); (306, 306); (308, 308);
    (310, 310); (313, 313); (315, 315); (317, 317); (319, 319); (321, 321);
    (323, 323); (325, 325); (327, 327); (330, 330); (332, 332); (334, 334);
    (336, 336); (338, 338); (340, 340); (342, 342); (344, 344); (346, 346);
    (348, 348); (350, 350); (352, 352); (354, 354); (356, 356); (358, 358);
    (360, 360); (362, 362); (364, 364); (366, 366); (368, 368); (370, 370);
    (372, 372); (374, 374); (376, 377); (379, 379); (381, 381); (385, 386);
    (388, 388); (390, 391); (393, 395); (398, 401); (403, 404); (406, 408);
    (412, 413); (415, 416); (418, 418); (420, 420); (422, 423); (425, 425);
    (428, 428); (430, 431); (433, 435); (437, 437); (439, 440); (444, 444);
    (452, 452); (455, 455); (458, 458); (461, 461); (463, 463); (465, 465);
    (467, 467); (469, 469); (471, 471); (473, 473); (475, 475); (478, 478);
    (480, 480); (482, 482); (484, 484); (486, 486); (488, 488); (490, 490);
    (492, 492); (494, 494); (497, 497); (500, 500); (502, 504); (506, 506);
    (508, 508); (510, 510); (512, 512); (514, 514); (516, 516); (518, 518);
    (520, 520); (522, 522); (524, 524); (526, 526); (528, 528); (530, 530);
    (532, 532); (534, 534); (536, 536); (538, 538); (540, 540); (542, 542);
    (544, 544); (546, 546); (548, 548); (550, 550); (552, 552); (554, 554);
    (556, 556); (558, 558); (560, 560); (562, 562); (570, 571); (573, 574);
    (577, 577); (579, 582); (584, 584); (586, 586); (588, 588); (590, 590);
    (880, 880); (882, 882); (886, 886); (895, 895); (902, 902); (904, 906);
    (908, 908); (910, 911); (913, 929); (931, 939); (975, 975); (978, 980);
    (984, 984); (986, 986); (988, 988); (990, 990); (992, 992); (994, 994);
    (996, 996); (998, 998); (1000, 1000); (1002, 1002); (1004, 1004);
    (1006, 1006); (1012, 1012); (1015, 1015); (1017, 1018); (1021, 1071);
    (1120, 1120); (1122, 1122); (1124, 1124); (1126, 1126); (1128, 1128);
    (1130, 1130); (1132, 1132); (1134, 1134); (1136, 1136); (1138, 1138);
    (1140, 1140); (1142, 1142); (1144, 1144); (1146, 1146); (1148, 1148);
    (1150, 1150); (1152, 1152); (1162, 1162); (1164, 1164); (1166, 1166);
    (1168, 1168); (1170, 1170); (1172, 1172); (1174, 1174); (1176, 1176);
    (1178, 1178); (1180, 1180); (1182, 1182); (1184, 1184); (1186, 1186);
    (1188, 1188); (1190, 1190); (1192, 1192); (1194, 1194); (1196, 1196);
    (1198, 1198); (1200, 1200); (1202, 1202); (1204, 1204); (1206, 1206);
    (1208, 1208); (1210, 1210); (1212, 1212); (1214, 1214); (1216, 1217);
    (1219, 1219); (1221, 1221); (1223, 1223); (1225, 1225); (1227, 1227);
    (1229, 1229); (1232, 1232); (1234, 1234); (1236, 1236); (1238, 1238);
    (1240, 1240); (1242, 1242); (1244, 1244); (1246, 1246); (1248, 1248);
    (1250, 1250); (1252, 1252); (1254, 1254); (1256, 1256); (1258, 1258);
    (1260, 1260); (1262, 1262); (1264, 1264); (1266, 1266); (1268, 1268);
    (1270, 1270); (1272, 1272); (1274, 1274); (1276, 1276); (1278, 1278);
    (1280, 1280); (1282, 1282); (1284, 1284); (1286, 1286); (1288, 1288);
    (1290, 1290); (1292, 1292); (1294, 1294); (1296, 1296); (1298, 1298);
    (1300, 1300); (1302, 1302); (1304, 1304); (1306, 1306); (1308, 1308);
    (1310, 1310); (1312, 1312); (1314, 1314); (1316, 1316); (1318, 1318);
    (1320, 1320); (1322, 1322); (1324, 1324); (1326, 1326); (1329, 1366);
    (4256, 4293); (4295, 4295); (4301, 4301); (5024, 5109); (7312, 7354);
    (7357, 7359); (7680, 7680); (7682, 7682); (7684, 7684); (7686, 7686);
    (7688, 7688); (7690, 7690); (7692, 7692); (7694, 7694); (7696, 7696);
    (7698, 7698); (7700, 7700); (7702, 7702); (7704, 7704); (7706, 7706);
    (7708, 7708); (7710, 7710); (7712, 7712); (7714, 7714); (7716, 7716);
    (7718, 7718); (7720, 7720); (7722, 7722); (7724, 7724); (7726, 7726);
    (7728, 7728); (7730, 7730); (7732, 7732); (7734, 7734); (7736, 7736);
    (7738, 7738); (7740, 7740); (7742, 7742); (7744, 7744); (7746, 7746);
    (7748, 7748); (7750, 7750); (7752, 7752); (7754, 7754); (7756, 7756);
    (7758, 7758); (7760, 7760); (7762, 7762); (7764, 7764); (7766, 7766);
    (7768, 7768); (7770, 7770); (7772, 7772); (7774, 7774); (7776, 7776);
    (7778, 7778); (7780, 7780); (7782, 7782); (7784, 7784); (7786, 7786);
    (7788, 7788); (7790, 7790); (7792, 7792); (7794, 7794); (7796, 7796);
    (7798, 7798); (7800, 7800); (7802, 7802); (7804, 7804); (7806, 7806);
    (7808, 7808); (7810, 7810); (7812, 7812); (7814, 7814); (7816, 7816);
    (7818, 7818); (7820, 7820); (7822, 7822); (7824, 7824); (7826, 7826);
    (7828, 7828); (7838, 7838); (7840, 7840); (7842, 7842); (7844, 7844);
    (7846, 7846); (7848, 7848); (7850, 7850); (7852, 7852); (7854, 7854);
    (7856, 7856); (7858, 7858); (7860, 7860); (7862, 7862); (7864, 7864);
    (7866, 7866); (7868, 7868); (7870, 7870); (7872, 7872); (7874, 7874);
    (7876, 7876); (7878, 7878); (7880, 7880); (7882, 7882); (7884, 7884);
    (7886, 7886); (7888, 7888); (7890, 7890); (7892, 7892); (7894, 7894);
    (7896, 7896); (7898, 7898); (7900, 7900); (7902, 7902); (7904, 7904);
    (7906, 7906); (7908, 7908); (7910, 7910); (7912, 7912); (7914, 7914);
    (7916, 7916); (7918, 7918); (7920, 7920); (7922, 7922); (7924, 7924);
    (7926, 7926); (7928, 7928); (7930, 7930); (7932, 7932); (7934, 7934);
    (7944, 7951); (7960, 7965); (7976, 7983); (7992, 7999); (8008, 8013);
    (8025, 8025); (8027, 8027); (8029, 8029); (8031, 8031); (8040, 8047);
    (8120, 8123); (8136, 8139); (8152, 8155); (8168, 8172); (8184, 8187);
    (8450, 8450); (8455, 8455); (8459, 8461); (8464, 8466); (8469, 8469);
    (8473, 8477); (8484, 8484); (8486, 8486); (8488, 8488); (8490, 8493);
    (8496, 8499); (8510, 8511); (8517, 8517); (8544, 8559); (8579, 8579);
    (9398, 9423); (11264, 11311); (11360, 11360); (11362, 11364);
    (11367, 11367); (11369, 11369); (11371, 11371); (11373, 11376);
    (11378, 11378); (11381, 11381); (11390, 11392); (11394, 11394);
    (11396, 11396); (11398, 11398); (11400, 11400); (11402, 11402);
    (11404, 11404); (11406, 11406); (11408, 11408); (11410, 11410);
    (11412, 11412); (11414, 11414); (11416, 11416); (11418, 11418);
    (11420, 11420); (11422, 11422); (11424, 11424); (11426, 11426);
    (11428, 11428); (11430, 11430); (11432, 11432); (11434, 11434);
    (11436, 11436); (11438, 11438); (11440, 11440); (11442, 11442);
    (11444, 11444); (11446, 11446); (11448, 11448); (11450, 11450);
    (11452, 11452); (11454, 11454); (11456, 11456); (11458, 11458);
    (11460, 11460); (11462, 11462); (11464, 11464); (11466, 11466);
    (11468, 11468); (11470, 11470); (11472, 11472); (11474, 11474);
    (11476, 11476); (11478, 11478); (11480, 11480); (11482, 11482);
    (11484, 11484); (11486, 11486); (11488, 11488); (11490, 11490);
    (11499, 11499); (11501, 11501); (11506, 11506); (42560, 42560);
    (42562, 42562); (42564, 42564); (42566, 42566); (42568, 42568);
    (42570, 42570); (42572, 42572); (42574, 42574); (42576, 42576);
    (42578, 42578); (42580, 42580); (42582, 42582); (42584, 42584);
    (42586, 42586); (42588, 42588); (42590, 42590); (42592, 42592);
    (42594, 42594); (42596, 42596); (42598, 42598); (42600, 42600);
    (42602, 42602); (42604, 42604); (42624, 42624); (42626, 42626);
    (42628, 42628); (42630, 42630); (42632, 42632); (42634, 42634);
    (42636, 42636); (42638, 42638); (42640, 42640); (42642, 42642);
    (42644, 42644); (42646, 42646); (42648, 42648); (42650, 42650);
    (42786, 42786); (42788, 42788); (42790, 42790); (42792, 42792);
    (42794, 42794); (42796, 42796); (42798, 42798); (42802, 42802);
    (42804, 42804); (42806, 42806); (42808, 42808); (42810, 42810);
    (42812, 42812); (42814, 42814); (42816, 42816); (42818, 42818);
    (42820, 42820); (42822, 42822); (42824, 42824); (42826, 42826);
    (42828, 42828); (42830, 42830); (42832, 42832); (42834, 42834);
    (42836, 42836); (42838, 42838); (42840, 42840); (42842, 42842);
    (42844, 42844); (42846, 42846); (42848, 42848); (42850, 42850);
    (42852, 42852); (42854, 42854); (42856, 42856); (42858, 42858);
    (42860, 42860); (42862, 42862); (42873, 42873); (42875, 42875);
    (42877, 42878); (42880, 42880); (42882, 42882); (42884, 42884);
    (42886, 42886); (42891, 42891); (42893, 42893); (42896, 42896);
    (42898, 42898); (42902, 42902); (42904, 42904); (42906, 42906);
    (42908, 42908); (42910, 42910); (42912, 42912); (42914, 42914);
    (42916, 42916); (42918, 42918); (42920, 42920); (42922, 42926);
    (42928, 42932); (42934, 42934); (42936, 42936); (42938, 42938);
    (42940, 42940); (42942, 42942); (42944, 42944); (42946, 42946);
    (42948, 42951); (42953, 42953); (42960, 42960); (42966, 42966);
    (42968, 42968); (42997, 42997); (65313, 65338); (66560, 66599);
    (66736, 66771); (66928, 66938); (66940, 66954); (66956, 66962);
    (66964, 66965); (68736, 68786); (71840, 71871); (93760, 93791);
    (119808, 119833); (119860, 119885); (119912, 119937); (119964, 119964);
    (119966, 119967); (119970, 119970); (119973, 119974); (119977, 119980);
    (119982, 119989); (120016, 120041); (120068, 120069); (120071, 120074);
    (120077, 120084); (120086, 120092); (120120, 120121); (120123, 120126);
    (120128, 120132); (120134, 120134); (120138, 120144); (120172, 120197);
    (120224, 120249); (120276, 120301); (120328, 120353); (120380, 120405);
    (120432, 120457); (120488, 120512); (120546, 120570); (120604, 120628);
    (120662, 120686); (120720, 120744); (120778, 120778); (125184, 125217);
    (127280, 127305); (127312, 127337); (127344, 127369) ]%N.

(** The characters with the property [Cased]. *)
Definition cased_ranges : list (N * N) :=
  [ (65, 90); (97, 122); (170, 170); (181, 181); (186, 186); (192, 214);
    (216, 246); (248, 442); (444, 447); (452, 659); (661, 696); (704, 705);
    (736, 740); (837, 837); (880, 883); (886, 887); (890, 893); (895, 895);
    (902, 902); (904, 906); (908, 908); (910, 929); (931, 1013);
    (1015, 1153); (1162, 1327); (1329, 1366); (1376, 1416); (4256, 4293);
    (4295, 4295); (4301, 4301); (4304, 4346); (4349, 4351); (5024, 5109);
    (5112, 5117); (7296, 7304); (7312, 7354); (7357, 7359); (7424, 7615);
    (7680, 7957); (7960, 7965); (7968, 8005); (8008, 8013); (8016, 8023);
    (8025, 8025); (8027, 8027); (8029, 8029); (8031, 8061); (8064, 8116);
    (8118, 8124); (8126, 8126); (8130, 8132); (8134, 8140); (8144, 8147);
    (8150, 8155); (8160, 8172); (8178, 8180); (8182, 8188); (8305, 8305);
    (8319, 8319); (8336, 8348); (8450, 8450); (8455, 8455); (8458, 8467);
    (8469, 8469); (8473, 8477); (8484, 8484); (8486, 8486); (8488, 8488);
    (8490, 8493); (8495, 8500); (8505, 8505); (8508, 8511); (8517, 8521);
    (8526, 8526); (8544, 8575); (8579, 8580); (9398, 9449); (11264, 11492);
    (11499, 11502); (11506, 11507); (11520, 11557); (11559, 11559);
    (11565, 11565); (42560, 42605); (42624, 42653); (42786, 42887);
    (42891, 42894); (42896, 42954); (42960, 42961); (42963, 42963);
    (42965, 42969); (42997, 42998); (43000, 43002); (43824, 43866);
    (43868, 43880); (43888, 43967); (64256, 64262); (64275, 64279);
    (65313, 65338); (65345, 65370); (66560, 66639); (66736, 66771);
    (66776, 66811); (66928, 66938); (66940, 66954); (66956, 66962);
    (66964, 66965); (66967, 66977); (66979, 66993); (66995, 67001);
    (67003, 67004); (67456, 67456); (67459, 67461); (67463, 67504);
    (67506, 67514); (68736, 68786); (68800, 68850); (71840, 71903);
    (93760, 93823); (119808, 119892); (119894, 119964); (119966, 119967);
    (119970, 119970); (119973, 119974); (119977, 119980); (119982, 119993);
    (119995, 119995); (119997, 120003); (120005, 120069); (120071, 120074);
    (120077, 120084); (120086, 120092); (120094, 120121); (120123, 120126);
    (120128, 120132); (120134, 120134); (120138, 120144); (120146, 120485);
    (120488, 120512); (120514, 120538); (120540, 120570); (120572, 120596);
    (120598, 120628); (120630, 120654); (120656, 120686); (120688, 120712);
    (120714, 120744); (120746, 120770); (120772, 120779); (122624, 122633);
    (122635, 122654); (125184, 125251); (127280, 127305); (127312, 127337);
    (127344, 127369) ]%N.

(** The characters with the property [Case_Ignorable]. *)
Definition case_ignorable_ranges : list (N * N) :=
  [ (39, 39); (46, 46); (58, 58); (94, 94); (96, 96); (168, 168); (173, 173);
    (175, 175); (180, 180); (183, 184); (688, 879); (884, 885); (890, 890);
    (900, 901); (903, 903); (1155, 1161); (1369, 1369); (1375, 1375);
    (1425, 1469); (1471, 1471); (1473, 1474); (1476, 1477); (1479, 1479);
    (1524, 1524); (1536, 1541); (1552, 1562); (1564, 1564); (1600, 1600);
    (1611, 1631); (1648, 1648); (1750, 1757); (1759, 1768); (1770, 1773);
    (1807, 1807); (1809, 1809); (1840, 1866); (1958, 1968); (2027, 2037);
    (2042, 2042); (2045, 2045); (2070, 2093); (2137, 2139); (2184, 2184);
    (2192, 2193); (2200, 2207); (2249, 2306); (2362, 2362); (2364, 2364);
    (2369, 2376); (2381, 2381); (2385, 2391); (2402, 2403); (2417, 2417);
    (2433, 2433); (2492, 2492); (2497, 2500); (2509, 2509); (2530, 2531);
    (2558, 2558); (2561, 2562); (2620, 2620); (2625, 2626); (2631, 2632);
    (2635, 2637); (2641, 2641); (2672, 2673); (2677, 2677); (2689, 2690);
    (2748, 2748); (2753, 2757); (2759, 2760); (2765, 2765); (2786, 2787);
    (2810, 2815); (2817, 2817); (2876, 2876); (2879, 2879); (2881, 2884);
    (2893, 2893); (2901, 2902); (2914, 2915); (2946, 2946); (3008, 3008);
    (3021, 3021); (3072, 3072); (3076, 3076); (3132, 3132); (3134, 3136);
    (3142, 3144); (3146, 3149); (3157, 3158); (3170, 3171); (3201, 3201);
    (3260, 3260); (3263, 3263); (3270, 3270); (3276, 3277); (3298, 3299);
    (3328, 3329); (3387, 3388); (3393, 3396); (3405, 3405); (3426, 3427);
    (3457, 3457); (3530, 3530); (3538, 3540); (3542, 3542); (3633, 3633);
    (3636, 3642); (3654, 3662); (3761, 3761); (3764, 3772); (3782, 3782);
    (3784, 3789); (3864, 3865); (3893, 3893); (3895, 3895); (3897, 3897);
    (3953, 3966); (3968, 3972); (3974, 3975); (3981, 3991); (3993, 4028);
    (4038, 4038); (4141, 4144); (4146, 4151); (4153, 4154); (4157, 4158);
    (4184, 4185); (4190, 4192); (4209, 4212); (4226, 4226); (4229, 4230);
    (4237, 4237); (4253, 4253); (4348, 4348); (4957, 4959); (5906, 5908);
    (5938, 5939); (5970, 5971); (6002, 6003); (6068, 6069); (6071, 6077);
    (6086, 6086); (6089, 6099); (6103, 6103); (6109, 6109); (6155, 6159);
    (6211, 6211); (6277, 6278); (6313, 6313); (6432, 6434); (6439, 6440);
    (6450, 6450); (6457, 6459); (6679, 6680); (6683, 6683); (6742, 6742);
    (6744, 6750); (6752, 6752); (6754, 6754); (6757, 6764); (6771, 6780);
    (6783, 6783); (6823, 6823); (6832, 6862); (6912, 6915); (6964, 6964);
    (6966, 6970); (6972, 6972); (6978, 6978); (7019, 7027); (7040, 7041);
    (7074, 7077); (7080, 7081); (7083, 7085); (7142, 7142); (7144, 7145);
    (7149, 7149); (7151, 7153); (7212, 7219); (7222, 7223); (7288, 7293);
    (7376, 7378); (7380, 7392); (7394, 7400); (7405, 7405); (7412, 7412);
    (7416, 7417); (7468, 7530); (7544, 7544); (7579, 7679); (8125, 8125);
    (8127, 8129); (8141, 8143); (8157, 8159); (8173, 8175); (8189, 8190);
    (8203, 8207); (8216, 8217); (8228, 8228); (8231, 8231); (8234, 8238);
    (8288, 8292); (8294, 8303); (8305, 8305); (8319, 8319); (8336, 8348);
    (8400, 8432); (11388, 11389); (11503, 11505); (11631, 11631);
    (11647, 11647); (11744, 11775); (11823, 11823); (12293, 12293);
    (12330, 12333); (12337, 12341); (12347, 12347); (12441, 12446);
    (12540, 12542); (40981, 40981); (42232, 42237); (42508, 42508);
    (42607, 42610); (42612, 42621); (42623, 42623); (42652, 42655);
    (42736, 42737); (42752, 42785); (42864, 42864); (42888, 42890);
    (42994, 42996); (43000, 43001); (43010, 43010); (43014, 43014);
    (43019, 43019); (43045, 43046); (43052, 43052); (43204, 43205);
    (43232, 43249); (43263, 43263); (43302, 43309); (43335, 43345);
    (43392, 43394); (43443, 43443); (43446, 43449); (43452, 43453);
    (43471, 43471); (43493, 43494); (43561, 43566); (43569, 43570);
    (43573, 43574); (43587, 43587); (43596, 43596); (43632, 43632);
    (43644, 43644); (43696, 43696); (43698, 43700); (43703, 43704);
    (43710, 43711); (43713, 43713); (43741, 43741); (43756, 43757);
    (43763, 43764); (43766, 43766); (43867, 43871); (43881, 43883);
    (44005, 44005); (44008, 44008); (44013, 44013); (64286, 64286);
    (64434, 64450); (65024, 65039); (65043, 65043); (65056, 65071);
    (65106, 65106); (65109, 65109); (65279, 65279); (65287, 65287);
    (65294, 65294); (65306, 65306); (65342, 65342); (65344, 65344);
    (65392, 65392); (65438, 65439); (65507, 65507); (65529, 65531);
    (66045, 66045); (66272, 66272); (66422, 66426); (67456, 67461);
    (67463, 67504); (67506, 67514); (68097, 68099); (68101, 68102);
    (68108, 68111); (68152, 68154); (68159, 68159); (68325, 68326);
    (68900, 68903); (69291, 69292); (69446, 69456); (69506, 69509);
    (69633, 69633); (69688, 69702); (69744, 69744); (69747, 69748);
    (69759, 69761); (69811, 69814); (69817, 69818); (69821, 69821);
    (69826, 69826); (69837, 69837); (69888, 69890); (69927, 69931);
    (69933, 69940); (70003, 70003); (70016, 70017); (70070, 70078);
    (70089, 70092); (70095, 70095); (70191, 70193); (70196, 70196);
    (70198, 70199); (70206, 70206); (70367, 70367); (70371, 70378);
    (70400, 70401); (70459, 70460); (70464, 70464); (70502, 70508);
    (70512, 70516); (70712, 70719); (70722, 70724); (70726, 70726);
    (70750, 70750); (70835, 70840); (70842, 70842); (70847, 70848);
    (70850, 70851); (71090, 71093); (71100, 71101); (71103, 71104);
    (71132, 71133); (71219, 71226); (71229, 71229); (71231, 71232);
    (71339, 71339); (71341, 71341); (71344, 71349); (71351, 71351);
    (71453, 71455); (71458, 71461); (71463, 71467); (71727, 71735);
    (71737, 71738); (71995, 71996); (71998, 71998); (72003, 72003);
    (72148, 72151); (72154, 72155); (72160, 72160); (72193, 72202);
    (72243, 72248); (72251, 72254); (72263, 72263); (72273, 72278);
    (72281, 72283); (72330, 72342); (72344, 72345); (72752, 72758);
    (72760, 72765); (72767, 72767); (72850, 72871); (72874, 72880);
    (72882, 72883); (72885, 72886); (73009, 73014); (73018, 73018);
    (73020, 73021); (73023, 73029); (73031, 73031); (73104, 73105);
    (73109, 73109); (73111, 73111); (73459, 73460); (78896, 78904);
    (92912, 92916); (92976, 92982); (92992, 92995); (94031, 94031);
    (94095, 94111); (94176, 94177); (94179, 94180); (110576, 110579);
    (110581, 110587); (110589, 110590); (113821, 113822); (113824, 113827);
    (118528, 118573); (118576, 118598); (119143, 119145); (119155, 119170);
    (119173, 119179); (119210, 119213); (119362, 119364); (121344, 121398);
    (121403, 121452); (121461, 121461); (121476, 121476); (121499, 121503);
    (121505, 121519); (122880, 122886); (122888, 122904); (122907, 122913);
    (122915, 122916); (122918, 122922); (123184, 123197); (123566, 123566);
    (123628, 123631); (125136, 125142); (125252, 125259); (127995, 127999);
    (917505, 917505); (917536, 917631); (917760, 917999) ]%N.

(** [c.isupper()] for a character [c]. *)
Definition is_uppercase (c : point) : bool := in_ranges uppercase_ranges c.

Definition cased (c : point) : bool := in_ranges cased_ranges c.

Definition case_ignorable (c : point) : bool :=
  in_ranges case_ignorable_ranges c.

Fixpoint lowercase_in (runs : list (N * N * N * N)) (c : point) : point :=
  match runs with
  | [] => c
  | (first, count, step, target) :: runs' =>
      if ((first <=? c) && (c <? first + count * step)
          && ((c - first) mod step =? 0))%N
      then (target + (c - first))%N
      else lowercase_in runs' c
  end.

(** The lowercase of one character: one character, but for the capital I
    with a dot above, which gives an [i] and a combining dot. The capital
    sigma is given its lowercase by its place in the text. *)
Definition to_lower_full (c : point) : list point :=
  if (c =? 304)%N then [105%N; 775%N] else [lowercase_in lowercase_runs c].

Fixpoint skip_ignorable (s : list point) : list point :=
  match s with
  | [] => []
  | c :: s' => if case_ignorable c then skip_ignorable s' else s
  end.

(** The capital sigma is final when a cased character comes before it,
    case-ignorable ones apart, and none comes after it. [before] is the
    text before the sigma, last character first. *)
Definition final_sigma (before after : list point) : bool :=
  match skip_ignorable before with
  | [] => false
  | c :: _ =>
      cased c &&
      match skip_ignorable after with
      | [] => true
      | c' :: _ => negb (cased c')
      end
  end.

Fixpoint lower_from (before s : list point) : list point :=
  match s with
  | [] => []
  | c :: s' =>
      (if (c =? 931)%N
       then [if final_sigma before s' then 962%N else 963%N]
       else to_lower_full c)
        ++ lower_from (c :: before) s'
  end.

(** [s.lower()] *)
Definition lower (s : list point) : list point := lower_from [] s.

(** The classes [A-Z], [a-z] and [0-9] of the regular expressions. *)
Definition is_AZ : point -> bool := in_range 65 90.
Definition is_az : point -> bool := in_range 97 122.
Definition is_09 : point -> bool := in_range 48 57.

Definition line_feed : point := 10%N.
Definition underscore : point := 95%N.

Fixpoint span (p : point -> bool) (s : list point)
  : list point * list point :=
  match s with
  | [] => ([], [])
  | c :: s' =>
      if p c then let (run, rest) := span p s' in (c :: run, rest)
      else ([], s)
  end.

Definition pattern :=
  list point -> option (list point * list point * list point).

(** [(.)([A-Z][a-z]+)] *)
Definition first_cap_re : pattern := fun s =>
  match s with
  | c :: u :: s' =>
      if negb (c =? line_feed)%N && is_AZ u then
        match span is_az s' with
        | ([], _) => None
        | (run, rest) => Some ([c], u :: run, rest)
        end
      else None
  | _ => None
  end.

(** [([a-z0-9])([A-Z])] *)
Definition all_cap_re : pattern := fun s =>
  match s with
  | a :: b :: rest =>
      if (is_az a || is_09 a) && is_AZ b
      then Some ([a], [b], rest)
      else None
  | _ => None
  end.

(** [re.sub(r'\1_\2', s)] *)
Fixpoint sub_from (re : pattern) (fuel : nat) (s : list point)
  : list point :=
  match s with
  | [] => []
  | c :: s' =>
      match fuel with
      | 0 => s
      | S fuel' =>
          match re s with
          | Some (g1, g2, rest) =>
              g1 ++ underscore :: g2 ++ sub_from re fuel' rest
          | None => c :: sub_from re fuel' s'
          end
      end
  end.

Definition sub (re : pattern) (s : list point) : list point :=
  sub_from re (length s) s.

Definition snake_case (camelCase : list point) : list point :=
  lower (sub all_cap_re (sub first_cap_re camelCase)).

(** [s.replace(c, '')] for a one-character pattern. *)
Definition remove_char (c : point) (s : list point) : list point :=
  filter (fun x => negb (x =? c)%N) s.

(** The characters that a run of the simple mappings produces. *)
Fixpoint run_targets (count : nat) (step target : point) : list point :=
  match count with
  | 0 => []
  | S count' => target :: run_targets count' step (target + step)%N
  end.

Definition lowercase_targets (runs : list (N * N * N * N)) : list point :=
  flat_map (fun r : N * N * N * N =>
              let '(_, count, step, target) := r in
              run_targets (N.to_nat count) step target)
           runs.

(** A character that [str.lower] leaves as it is wherever it stands, and
    that is no capital of [A-Z]. *)
Definition lowered (c : point) : bool :=
  (negb (c =? 931) && negb (c =? 304)
   && (lowercase_in lowercase_runs c =? c) && negb (is_AZ c))%N.

End Unicode.

(** The code points of a string of 8-bit characters. *)
Definition codes (s : str) : list N := map N_of_ascii s.

(** The characters of ASCII. *)
Definition is_ascii (c : ascii) : bool := Nat.ltb (nat_of_ascii c) 128.

Definition ascii_only (s : str) : bool := forallb is_ascii s.

(** The groups and the rest of a match, as code points. *)
Definition codes_match (m : option (str * str * str))
  : option (list N * list N * list N) :=
  match m with
  | Some (g1, g2, rest) => Some (codes g1, codes g2, codes rest)
  | None => None
  end.

(* ================================================================= *)
(** * Further definitions *)

(** ** Case conversion *)

(** The groups and the rest of a match make up the text it was tried on. *)
Definition splitting (re : pattern) : Prop :=
  forall s g1 g2 rest, re s = Some (g1, g2, rest) -> s = g1 ++ g2 ++ rest.

Definition is_underscore (c : ascii) : bool := Ascii.eqb c "_"%char.

Definition two_underscores (a b : ascii) : bool :=
  is_underscore a && is_underscore b.

(** A one-letter word stands between two underscores. *)
Fixpoint has_lone_letter (s : str) : bool :=
  match s with
  | a :: (_ :: c :: _) as t =>
      (is_underscore a && is_underscore c) || has_lone_letter t
  | _ => false
  end.

Definition lower_or_underscore (c : ascii) : bool :=
  is_lower c || is_underscore c.

(** A snake_case identifier: words of lowercase ASCII letters joined by
    single underscores, a letter first and last, and no one-letter word
    between two underscores. *)
Definition is_snake_case (x : str) : bool :=
  match x with c :: _ => is_lower c | [] => false end
  && forallb lower_or_underscore x
  && negb (adjacent two_underscores x)
  && is_lower (last x "_"%char)
  && negb (has_lone_letter x).

Definition second_is_underscore (s : str) : bool :=
  match s with
  | _ :: c :: _ => is_underscore c
  | _ => false
  end.

(** A word list in shape: letters and single underscores, ending in a
    letter when it is not empty. *)
Definition words_in_shape (s : str) : Prop :=
  forallb lower_or_underscore s = true /\
  adjacent two_underscores s = false /\
  is_lower (last s "a"%char) = true.


(** ** Language tags *)

(** The keys of a dict are distinct and in lowercase. *)
Definition lowercase_keys (d : dict JSON) : Prop :=
  NoDup (dict_keys d) /\ forall k, In k (dict_keys d) -> lower k = k.

Definition languages : dict JSON :=
  [("EN-us" : str, JStr "Hello"); ("en" : str, JStr "Hi");
   ("fr" : str, JStr "Bonjour")].

(** ** [expand] *)

(** A linked-data library for which the remote context of a document
    cannot be fetched, with or without the [@context] entry. *)
Definition always_unreachable (url : JSON) (_ : JSON) : expansion :=
  JsonLdError (Some {| cause_type := "jsonld.ContextUrlError";
                       cause_url := url |}).

Definition item_with_one_context : dict JSON :=
  [ ("@context" : str, JStr "https://unreachable.example/context");
    ("name" : str, JStr "Q") ].

(** ** [contextualize] *)

(** The bodies of the loops of [_deeperContextualize] and of
    [contextualize], for the statements about a loop that has already
    filled a part of [newObj]. *)
Abbreviation deeper_step :=
  (fun (st : JSON * dict JSON) (kv : str * JSON) =>
     let (context, newObj) := st in
     let (k, v) := kv in
     if is_dict v && has_char "."%char k then
       let (c, o) := _createContextForStr k in
       context' <- context_add c context ;;
       Ok (context', dict_set newObj o v)
     else Ok (context, dict_set newObj k v)) (only parsing).

Abbreviation top_step :=
  (fun (st : JSON * dict JSON) (kv : str * JSON) =>
     let (context, newObj) := st in
     let (k, v) := kv in
     match v with
     | JDict dv =>
         ' (context', o) <- _deeperContextualize dv context ;;
         Ok (context', dict_set newObj k (JDict o))
     | _ => Ok (context, dict_set newObj k v)
     end) (only parsing).

(** [sub] has a dotted key with a dict value. *)
Definition has_dotted_dict_key (sub : dict JSON) : bool :=
  existsb (fun kv : str * JSON =>
             is_dict (snd kv) && has_char "."%char (fst kv)) sub.

(** A dict that is the value of a key of [d] has a dotted key with a dict
    value. *)
Definition dotted_below (d : dict JSON) : bool :=
  existsb (fun kv : str * JSON =>
             match snd kv with
             | JDict sub => has_dotted_dict_key sub
             | _ => false
             end) d.

Definition activity_with_dotted_key : dict JSON :=
  [ ("name" : str, JStr "Morning");
    ("ui" : str,
     JDict [("https://schema.repronim.org/order.json" : str,
             JDict [("@id" : str, JStr "order")])]) ].

(** ** [getFromLongestMatchingValue] *)

(** Every object of the list is a dict with a string that is not empty
    under [key]. *)
Definition all_tagged (key : str) (objectList : list JSON) : Prop :=
  forall object, In object objectList ->
    exists d s, object = JDict d /\ dict_get d key = Some (JStr s) /\ s <> [].

(** ** Route handlers *)

(** The body of the loop of [getResponses] over the folders of the user's
    [Responses] folder, in the store [st]. *)
Definition getResponses_step (may_read : option str -> Folder -> bool)
           (reviewer : option str) (appletId appletName : str) (st : store)
           (allResponses : dict (list Item)) (appletResponsesFolder : Folder)
  : outcome (dict (list Item)) :=
  if str_eqb (folder_name appletResponsesFolder) appletName then
    Ok (dict_set allResponses appletId (childItems appletResponsesFolder st))
  else
    by_id <- matches_by_id appletResponsesFolder appletId ;;
    if by_id then
      let allResponses := dict_set allResponses appletId [] in
      folder <- fst (loadFolder may_read (folder_id appletResponsesFolder)
                                reviewer READ st) ;;
      let subjectFolders := childFolders may_read folder reviewer st in
      for_each
        (fun (allResponses : dict (list Item)) subjectFolder =>
           Ok (dict_set allResponses appletId
                 (match dict_get allResponses appletId with
                  | Some l => l
                  | None => []
                  end ++ childItems subjectFolder st)))
        subjectFolders allResponses
    else Ok allResponses.

(** Folders of responses to other applets: one named after its applet,
    one that carries the identifier of its applet. *)
Definition other_by_name_folder : Folder :=
  {| folder_id := "F4"; folder_name := "Sleep Diary";
     parentCollection := "folder"; parentId := "R";
     folder_meta := None |}.

Definition other_by_id_folder : Folder :=
  {| folder_id := "F5"; folder_name := "A2";
     parentCollection := "folder"; parentId := "R";
     folder_meta :=
       Some (JDict [("applet" : str, JDict [("@id" : str, JStr "A2")])]) |}.

Definition other_item : Item :=
  {| item_id := "i3"; folderId := "F4"; item_name := "2019-03-01";
     description := "another applet"; creatorId := "u1"; item_meta := None |}.

(** A store in which the user has answered other applets only. *)
Definition other_responses : store :=
  {| users := ["u1" : str];
     folders := [applet_folder; responses_folder; other_by_name_folder;
                 other_by_id_folder];
     items := [other_item];
     handed_out := 0 |}.

(** A folder of responses whose metadata names its applet by a string. *)
Definition string_applet_folder : Folder :=
  {| folder_id := "F3"; folder_name := "Sleep Diary";
     parentCollection := "folder"; parentId := "R";
     folder_meta := Some (JDict [("applet" : str, JStr "Sleep Diary")]) |}.

Definition named_metadata : dict JSON :=
  [ ("applet" : str, JStr "applet by name");
    ("activity" : str, JDict [("name" : str, JStr "Survey")]) ].

(** A store in which the user's [Responses] folder holds a folder for
    another applet, named by a string in its metadata. *)
Definition with_string_applet : store :=
  {| users := ["u1" : str];
     folders := [applet_folder; responses_folder; string_applet_folder];
     items := []; handed_out := 0 |}.

(** ** [formatLdObject] with the body of its [try] statement *)

Section FormatLdObjectWhole.

Variable World : Type.
Variable jsonld_expand : JSON -> expansion.
Variable py_str : JSON -> str.
Variable expand_fuel : nat.
Variable raised_without_id : exn.
Variable applet_branch :
  (ldArgs -> World -> outcome JSON * World) ->
  ldArgs -> JSON -> str -> World -> outcome JSON * JSON * World.
Variable activitySet_branch :
  (ldArgs -> World -> outcome JSON * World) ->
  ldArgs -> JSON -> World -> outcome JSON * World.
Variable add_responseDates : ldArgs -> JSON -> World -> JSON * World.
Variable print_exc_info : exn -> World -> World.

(** The function, the retry handler around the body. *)
Definition formatLdObject_whole (fuel : nat) (a : ldArgs) (w : World)
  : outcome JSON * World :=
  formatLdObject
    (formatLdObject_try jsonld_expand py_str expand_fuel raised_without_id
                        applet_branch activitySet_branch add_responseDates)
    print_exc_info fuel a w.

End FormatLdObjectWhole.

(** [o is None] *)
Definition is_None (o : JSON) : bool :=
  match o with JNull => true | _ => false end.

(** [formatLdObject] on a world that is the list of the printed
    exceptions, with branches that return the object as it is and the
    constructor of [ResourcePathNotFound] that requires a message. *)
Definition plain_formatLdObject :=
  @formatLdObject_whole (list exn) (fun _ => Expanded []) (fun _ => [])
    1 TypeError
    (fun _ a r _ w => (Ok r, obj a, w))
    (fun _ _ r w => (Ok r, w))
    (fun _ r w => (r, w))
    (@cons exn).

Definition with_obj (o : JSON) : ldArgs :=
  {| obj := o;
     mesoPrefix := "activity_set";
     user := JNull;
     keepUndefined := false;
     dropErrors := false;
     refreshCache := false;
     responseDates := false |}.

(** ** [keyExpansion] in [expand] *)

(** A document whose key is an address already, and what the linked-data
    library answers for it. *)
Definition item_with_address_key : dict JSON :=
  [ ("http://schema.org/name" : str, JStr "Mood") ].

Definition address_key_table : list (JSON * expansion) :=
  [ (JDict item_with_address_key,
     Expanded [JDict [("http://schema.org/name" : str,
                       JList [JDict [("@value" : str, JStr "Mood")]])]]) ].

(** ** [fileObjectToStr] *)

(** How the call can fail: with a builtin exception, or with an exception
    of the [requests] library, of which the code names two. *)
Inductive failure : Type :=
| Builtin (e : exn)
| ConnectionError
| MissingSchema
| OtherRequestException.

(** What [requests.get(url)] gives: a response, of which the code reads
    [text], or an exception. *)
Inductive response : Type :=
| Response (text : str)
| NoResponse (e : failure).

(** [except (AttributeError, ConnectionError, MissingSchema)] *)
Definition caught (e : failure) : bool :=
  match e with
  | Builtin AttributeError | ConnectionError | MissingSchema => true
  | _ => false
  end.

Section FileObjectToStr.

Variable requests_get : JSON -> response.
Variable py_str : JSON -> str.

(** The [try] statement: [r = requests.get(obj.get('@id'))]; only a dict
    has [get]. *)
Definition fileObjectToStr_try (obj : JSON) : response :=
  match obj with
  | JDict d =>
      requests_get (match dict_get d "@id" with Some x => x | None => JNull end)
  | _ => NoResponse (Builtin AttributeError)
  end.

(** The value of the call or its exception, with the lines printed. In the
    handler [r] is bound to a value of the object or to the empty string,
    and neither has a [text]. *)
Definition fileObjectToStr (obj : JSON) : (str + failure) * list str :=
  match fileObjectToStr_try obj with
  | Response text => (inl text, [])
  | NoResponse e =>
      if caught e then
        let r :=
          match obj with
          | JDict d => match dict_get d "@id" with Some x => x | None => JNull end
          | _ => JStr ""
          end in
        (inr (Builtin AttributeError),
         ["Warning: Could not load " ++ format_value py_str r])
      else (inr e, [])
  end.

End FileObjectToStr.

(** ** [getByLanguage]: the most specific tag *)

(** The string that [object.get(keyToMatch, '')] gives, when [object] is a
    dict and what it holds under the key is a string. *)
Definition value_at (keyToMatch : str) (object : JSON) : option str :=
  match object with
  | JDict d =>
      match dict_get d keyToMatch with
      | Some (JStr s) => Some s
      | None => Some []
      | _ => None
      end
  | _ => None
  end.

(** The test of the first loop of [getFromLongestMatchingValue], case
    ignored, for the value [v]. *)
Abbreviation lowered_value_is keyToMatch v :=
  (fun object : JSON =>
     t <- (t <- py_get object keyToMatch (JStr "") ;; py_lower t) ;;
     Ok (py_eq t (JStr v))) (only parsing).

(** The candidates that [getByLanguage] makes from a tag. *)
Definition candidates (tag : str) : list str :=
  sorted (@length ascii) true
         (getMoreGeneric tag ++ map (fun t => "@"%char :: t) (getMoreGeneric tag)).

(** Values with their language, as an expanded document holds them. *)
Definition salutations : list JSON :=
  [ JDict [("@language" : str, JStr "fr"); ("@value" : str, JStr "Bonjour")];
    JDict [("@language" : str, JStr "en"); ("@value" : str, JStr "Hi")];
    JDict [("@language" : str, JStr "de"); ("@value" : str, JStr "Hallo")] ].
(* ================================================================= *)
(** * Properties *)

Lemma str_eqb_eq (a b : str) : str_eqb a b = true <-> a = b.
Proof.
  unfold str_eqb. destruct (str_eq_dec a b); split; congruence.
Qed.

Lemma str_eqb_refl (a : str) : str_eqb a a = true.
Proof. now apply str_eqb_eq. Qed.

Lemma str_eqb_neq (a b : str) : str_eqb a b = false <-> a <> b.
Proof.
  unfold str_eqb. destruct (str_eq_dec a b); split; congruence.
Qed.

(** ** Characters *)

Lemma to_lower_not_upper c : is_upper (to_lower c) = false.
Proof. all_chars c. Qed.

Lemma to_lower_id c : is_upper c = false -> to_lower c = c.
Proof. all_chars c. Qed.

Lemma to_upper_to_lower c : is_upper c = true -> to_upper (to_lower c) = c.
Proof. all_chars c. Qed.

Lemma to_lower_cased c : is_upper c = true -> is_cased (to_lower c) = true.
Proof. all_chars c. Qed.

Lemma to_lower_not_underscore c :
  is_upper c = true -> Ascii.eqb (to_lower c) "_"%char = false.
Proof. all_chars c. Qed.

Lemma alnum_not_underscore c : is_alnum c = true -> Ascii.eqb c "_"%char = false.
Proof. all_chars c. Qed.

Lemma digit_uncased c : is_digit c = true -> is_cased c = false.
Proof. all_chars c. Qed.

Lemma to_upper_digit c : is_digit c = true -> to_upper c = c.
Proof. all_chars c. Qed.

Lemma lower_not_upper c : is_lower c = true -> is_upper c = false.
Proof. all_chars c. Qed.

Lemma digit_not_upper c : is_digit c = true -> is_upper c = false.
Proof. all_chars c. Qed.

Lemma alnum_cases c :
  is_alnum c = true ->
  is_upper c = true \/ is_lower c = true \/ is_digit c = true.
Proof.
  unfold is_alnum, is_cased. intros H.
  destruct (is_upper c); [now left|].
  destruct (is_lower c); [now right; left|]. now right; right.
Qed.

(** ** Substitution *)

Lemma span_app p s : fst (span p s) ++ snd (span p s) = s.
Proof.
  induction s as [|c s IH]; simpl; [reflexivity|].
  destruct (p c); [|reflexivity].
  destruct (span p s) as [run rest]; simpl in *. now rewrite IH.
Qed.

Lemma span_length p s : length (snd (span p s)) <= length s.
Proof.
  rewrite <- (span_app p s) at 2. rewrite length_app. lia.
Qed.

Lemma first_cap_re_inv s g1 g2 rest :
  first_cap_re s = Some (g1, g2, rest) ->
  exists c u run,
    s = c :: u :: run ++ rest /\ g1 = [c] /\ g2 = u :: run /\
    is_upper u = true /\ run <> [].
Proof.
  destruct s as [|c [|u s']]; simpl; try discriminate.
  destruct (negb (Ascii.eqb c newline) && is_upper u) eqn:E; [|discriminate].
  apply andb_prop in E as [_ Hu].
  pose proof (span_app is_lower s') as Happ.
  destruct (span is_lower s') as [[|l run] rest']; [discriminate|].
  simpl in Happ. intros H; inversion H; subst; clear H.
  exists c, u, (l :: run). repeat split; auto. discriminate.
Qed.

Lemma first_cap_re_shrinking : shrinking first_cap_re.
Proof.
  intros s g1 g2 rest H.
  apply first_cap_re_inv in H as (c & u & run & -> & _).
  simpl. rewrite length_app. lia.
Qed.

Lemma all_cap_re_shrinking : shrinking all_cap_re.
Proof.
  intros [|a [|b s]] g1 g2 rest; simpl; try discriminate.
  destruct ((is_lower a || is_digit a) && is_upper b); [|discriminate].
  intros H; inversion H; subst. simpl. lia.
Qed.

Section Sub.

Variable re : pattern.
Hypothesis re_shrinks : shrinking re.

Lemma sub_from_enough n m s :
  length s <= n -> length s <= m -> sub_from re n s = sub_from re m s.
Proof.
  revert m s. induction n as [|n IH]; intros m s Hn Hm.
  - destruct s; [now destruct m | simpl in Hn; lia].
  - destruct s as [|c s]; [now destruct m|].
    destruct m as [|m]; [simpl in Hm; lia|]. simpl in *.
    destruct (re (c :: s)) as [[[g1 g2] rest]|] eqn:E.
    + apply re_shrinks in E. simpl in E.
      rewrite (IH m rest) by lia. reflexivity.
    + rewrite (IH m s) by lia. reflexivity.
Qed.

Lemma sub_nil : sub re [] = [].
Proof. reflexivity. Qed.

Lemma sub_cons c s :
  sub re (c :: s) =
  match re (c :: s) with
  | Some (g1, g2, rest) => g1 ++ "_"%char :: g2 ++ sub re rest
  | None => c :: sub re s
  end.
Proof.
  unfold sub. simpl.
  destruct (re (c :: s)) as [[[g1 g2] rest]|] eqn:E; [|reflexivity].
  apply re_shrinks in E. simpl in E.
  rewrite (sub_from_enough (n := length s) (m := length rest)) by lia.
  reflexivity.
Qed.

End Sub.

(** A string without capitals is left alone by both substitutions. *)

Lemma first_cap_re_needs_capital s :
  forallb (fun c => negb (is_upper c)) s = true -> first_cap_re s = None.
Proof.
  destruct s as [|c [|u s']]; simpl; try reflexivity.
  intros H. apply andb_prop in H as [_ H]. apply andb_prop in H as [H _].
  apply negb_true_iff in H. rewrite H. now rewrite andb_false_r.
Qed.

Lemma all_cap_re_needs_capital s :
  forallb (fun c => negb (is_upper c)) s = true -> all_cap_re s = None.
Proof.
  destruct s as [|c [|u s']]; simpl; try reflexivity.
  intros H. apply andb_prop in H as [_ H]. apply andb_prop in H as [H _].
  apply negb_true_iff in H. rewrite H. now rewrite andb_false_r.
Qed.

Lemma sub_from_no_capital (re : pattern) :
  (forall s, forallb (fun c => negb (is_upper c)) s = true -> re s = None) ->
  forall n s,
    forallb (fun c => negb (is_upper c)) s = true -> sub_from re n s = s.
Proof.
  intros Hre n s. revert n.
  induction s as [|c s IH]; intros n Hs; [now destruct n|].
  destruct n as [|n]; [reflexivity|]. simpl.
  rewrite (Hre _ Hs). simpl in Hs. apply andb_prop in Hs as [_ Hs].
  now rewrite IH.
Qed.

Lemma lower_no_capital s : forallb (fun c => negb (is_upper c)) (lower s) = true.
Proof.
  induction s as [|c s IH]; simpl; [reflexivity|].
  now rewrite to_lower_not_upper, IH.
Qed.

Lemma lower_fixed s :
  forallb (fun c => negb (is_upper c)) s = true -> lower s = s.
Proof.
  induction s as [|c s IH]; simpl; [reflexivity|].
  intros H. apply andb_prop in H as [Hc Hs]. apply negb_true_iff in Hc.
  now rewrite to_lower_id, IH.
Qed.

Lemma snake_case_fixed s :
  forallb (fun c => negb (is_upper c)) s = true -> snake_case s = s.
Proof.
  intros H. unfold snake_case, sub.
  rewrite (sub_from_no_capital _ first_cap_re_needs_capital _ _ H).
  rewrite (sub_from_no_capital _ all_cap_re_needs_capital _ _ H).
  now apply lower_fixed.
Qed.

(** On 8-bit characters [snake_case s] holds no capital letter [A-Z], and
    [snake_case] is idempotent. *)
Lemma snake_case_no_capital (s : str) :
  (forall c, In c (snake_case s) -> is_upper c = false) /\
  snake_case (snake_case s) = snake_case s.
Proof.
  split.
  - intros c Hc. unfold snake_case, lower in Hc.
    apply in_map_iff in Hc as (c0 & <- & _). apply to_lower_not_upper.
  - apply snake_case_fixed. unfold snake_case. apply lower_no_capital.
Qed.

(** ** [snake_case] on camelCase identifiers *)

Lemma marked_app_keep r x y : marked x y -> marked (r ++ x) (r ++ y).
Proof. intros H. induction r; simpl; [assumption | now constructor]. Qed.

(** The first substitution only puts underscores before capitals. *)
Lemma marked_first_cap x : marked x (sub first_cap_re x).
Proof.
  remember (length x) as n eqn:Hn. revert x Hn.
  induction n as [n IH] using lt_wf_ind. intros x Hn.
  destruct x as [|c x]; [constructor|].
  rewrite (sub_cons first_cap_re_shrinking).
  destruct (first_cap_re (c :: x)) as [[[g1 g2] rest]|] eqn:E.
  - apply first_cap_re_inv in E as (c' & u & run & Hx & -> & -> & Hu & _).
    injection Hx as <- ->. simpl. constructor. constructor; [assumption|].
    apply marked_app_keep.
    apply (IH (length rest)); [|reflexivity].
    subst n. simpl. rewrite length_app. lia.
  - constructor. apply (IH (length x)); [|reflexivity]. subst n. simpl. lia.
Qed.

Lemma sub_all_cap_one a : sub all_cap_re [a] = [a].
Proof. reflexivity. Qed.

Lemma sub_all_cap_two a b r :
  sub all_cap_re (a :: b :: r) =
  if (is_lower a || is_digit a) && is_upper b
  then a :: "_"%char :: b :: sub all_cap_re r
  else a :: sub all_cap_re (b :: r).
Proof.
  rewrite (sub_cons all_cap_re_shrinking). simpl.
  now destruct ((is_lower a || is_digit a) && is_upper b).
Qed.

Lemma sub_all_cap_skip a y :
  is_lower a || is_digit a = false ->
  sub all_cap_re (a :: y) = a :: sub all_cap_re y.
Proof.
  intros H. destruct y as [|b r]; [reflexivity|].
  rewrite sub_all_cap_two, H. reflexivity.
Qed.

Lemma capital_not_lower_or_digit u :
  is_upper u = true -> is_lower u || is_digit u = false.
Proof. all_chars u. Qed.

Lemma alnum_no_capital c :
  is_alnum c = true -> is_upper c = false -> is_lower c || is_digit c = true.
Proof.
  intros Ha Hu. destruct (alnum_cases _ Ha) as [H|[H|H]];
    [congruence | now rewrite H | rewrite H; apply orb_true_r].
Qed.

Lemma adjacent_tail r a x : adjacent r (a :: x) = false -> adjacent r x = false.
Proof.
  destruct x as [|b x]; [reflexivity|]. simpl.
  intros H. apply orb_false_iff in H as [_ H]. exact H.
Qed.

Lemma no_two_capitals_head u x :
  is_upper u = true -> adjacent two_capitals (u :: x) = false ->
  match x with c :: _ => is_upper c = false | [] => True end.
Proof.
  destruct x as [|c x]; [trivial|]. simpl. unfold two_capitals at 1.
  intros Hu H. apply orb_false_iff in H as [H _]. now rewrite Hu in H.
Qed.

Lemma mark_cons c x :
  mark (c :: x) = if is_upper c then "_"%char :: c :: mark x else c :: mark x.
Proof. unfold mark. simpl. now destruct (is_upper c). Qed.

(** After the first substitution, the second one completes the marking. *)
Lemma all_cap_completes x y :
  marked x y ->
  forallb is_alnum x = true ->
  adjacent two_capitals x = false ->
  (match x with c :: _ => is_upper c = false | [] => True end ->
   sub all_cap_re y = mark x) /\
  (forall p, is_lower p || is_digit p = true ->
             sub all_cap_re (p :: y) = p :: mark x).
Proof.
  induction 1 as [|c x y Hm IH|u x y Hu Hm IH]; intros Hal Hadj.
  - split; reflexivity.
  - simpl in Hal. apply andb_prop in Hal as [Hc Hal].
    specialize (IH Hal (adjacent_tail _ _ _ Hadj)) as [IHa IHb].
    assert (Hkeep : is_upper c = false ->
                    sub all_cap_re (c :: y) = mark (c :: x)).
    { intros Hcu. rewrite IHb by (now apply alnum_no_capital).
      now rewrite mark_cons, Hcu. }
    split; [exact Hkeep|].
    intros p Hp. rewrite sub_all_cap_two, Hp, mark_cons.
    destruct (is_upper c) eqn:Hcu; cbn [andb].
    + now rewrite IHa by (now apply (no_two_capitals_head c)).
    + now rewrite Hkeep, mark_cons, Hcu.
  - simpl in Hal. apply andb_prop in Hal as [Hc Hal].
    specialize (IH Hal (adjacent_tail _ _ _ Hadj)) as [IHa _].
    split; [simpl; congruence|].
    intros p Hp. rewrite sub_all_cap_two.
    replace (is_upper "_"%char) with false by reflexivity.
    rewrite andb_false_r.
    rewrite (sub_all_cap_skip "_"%char) by reflexivity.
    rewrite (sub_all_cap_skip u) by (now apply capital_not_lower_or_digit).
    rewrite IHa by (now apply (no_two_capitals_head u)).
    now rewrite mark_cons, Hu.
Qed.

Lemma snake_case_marks x :
  forallb is_alnum x = true ->
  adjacent two_capitals x = false ->
  match x with c :: _ => is_upper c = false | [] => True end ->
  snake_case x = lower (mark x).
Proof.
  intros Hal Hadj Hhd. unfold snake_case. f_equal.
  now apply (all_cap_completes (marked_first_cap x)).
Qed.

(** ** [camelCase] read one character at a time *)

Lemma split_nonempty sep s : split sep s <> [].
Proof.
  destruct s as [|c s]; simpl; [discriminate|].
  destruct (Ascii.eqb c sep); [discriminate|].
  destruct (split sep s); discriminate.
Qed.

Lemma retitle_split pc s :
  match split "_"%char s with
  | w :: ws => title_from pc w ++ concat (map title ws)
  | [] => []
  end = retitle pc s.
Proof.
  revert pc. induction s as [|c s IH]; intros pc; [reflexivity|]. simpl.
  destruct (Ascii.eqb c "_"%char).
  - rewrite <- (IH false). simpl.
    destruct (split "_"%char s); reflexivity.
  - rewrite <- (IH (is_cased c)).
    destruct (split "_"%char s) as [|w ws] eqn:E; [|reflexivity].
    now apply split_nonempty in E.
Qed.

Lemma camelCase_recamel s : camelCase s = recamel s.
Proof.
  unfold camelCase. induction s as [|c s IH]; [reflexivity|]. simpl.
  destruct (Ascii.eqb c "_"%char).
  - rewrite <- (retitle_split false s). simpl.
    destruct (split "_"%char s); reflexivity.
  - rewrite <- IH.
    destruct (split "_"%char s) as [|w ws] eqn:E; [|reflexivity].
    now apply split_nonempty in E.
Qed.

Lemma lower_mark_cons c x :
  lower (mark (c :: x)) =
  if is_upper c then "_"%char :: to_lower c :: lower (mark x)
  else c :: lower (mark x).
Proof.
  rewrite mark_cons. destruct (is_upper c) eqn:E; unfold lower; simpl.
  - reflexivity.
  - now rewrite to_lower_id.
Qed.

Lemma retitle_mark x :
  forall pc,
    forallb is_alnum x = true ->
    adjacent digit_then_lower x = false ->
    match x with c :: _ => is_lower c = true -> pc = true | [] => True end ->
    retitle pc (lower (mark x)) = x.
Proof.
  induction x as [|c x IH]; intros pc Hal Hdl Hpc; [reflexivity|].
  simpl in Hal. apply andb_prop in Hal as [Hc Hal].
  pose proof (adjacent_tail _ _ _ Hdl) as Hdl'.
  rewrite lower_mark_cons.
  destruct (alnum_cases _ Hc) as [Hu|[Hl|Hd]].
  - rewrite Hu. simpl.
    rewrite (to_lower_not_underscore _ Hu), (to_upper_to_lower _ Hu),
      (to_lower_cased _ Hu).
    f_equal. apply IH; auto. now destruct x.
  - rewrite (lower_not_upper _ Hl). simpl.
    rewrite (alnum_not_underscore _ Hc), (Hpc Hl).
    rewrite (to_lower_id _ (lower_not_upper _ Hl)).
    unfold is_cased. rewrite Hl, orb_true_r.
    f_equal. apply IH; auto. now destruct x.
  - rewrite (digit_not_upper _ Hd). simpl.
    rewrite (alnum_not_underscore _ Hc), (digit_uncased _ Hd).
    rewrite (to_lower_id _ (digit_not_upper _ Hd)), (to_upper_digit _ Hd).
    replace (if pc then c else c) with c by now destruct pc.
    f_equal. apply IH; auto.
    destruct x as [|b x]; [trivial|]. simpl in Hdl.
    apply orb_false_iff in Hdl as [Hdl _]. unfold digit_then_lower in Hdl.
    rewrite Hd in Hdl. simpl in Hdl. congruence.
Qed.

Lemma recamel_mark x :
  forallb is_alnum x = true ->
  adjacent digit_then_lower (dropwhile (fun c => negb (is_upper c)) x) = false ->
  recamel (lower (mark x)) = x.
Proof.
  induction x as [|c x IH]; intros Hal Hdl; [reflexivity|].
  simpl in Hal. apply andb_prop in Hal as [Hc Hal].
  rewrite lower_mark_cons. simpl in Hdl.
  destruct (is_upper c) eqn:Hu; simpl in *.
  - rewrite (to_lower_not_underscore _ Hu), (to_upper_to_lower _ Hu),
      (to_lower_cased _ Hu).
    f_equal. apply retitle_mark; auto.
    + now apply adjacent_tail in Hdl.
    + now destruct x.
  - rewrite (alnum_not_underscore _ Hc). f_equal. now apply IH.
Qed.

Lemma to_upper_moves_lower c : is_lower c = true -> to_upper c <> c.
Proof. all_chars c. Qed.

Lemma digit_not_lower c : is_digit c = true -> is_lower c = false.
Proof. all_chars c. Qed.

Lemma capital_not_digit c : is_upper c = true -> is_digit c = false.
Proof. all_chars c. Qed.

(** The condition is also necessary: a digit followed by a lowercase letter
    inside a hump comes back with that letter raised. *)
Lemma retitle_mark_differs x :
  forall pc,
    forallb is_alnum x = true ->
    adjacent digit_then_lower x = true ->
    retitle pc (lower (mark x)) <> x.
Proof.
  induction x as [|c x IH]; intros pc Hal Hdl; [discriminate|].
  simpl in Hal. apply andb_prop in Hal as [Hc Hal].
  rewrite lower_mark_cons.
  destruct x as [|b x]; [discriminate|].
  change (adjacent digit_then_lower (c :: b :: x))
    with (digit_then_lower c b || adjacent digit_then_lower (b :: x)) in Hdl.
  unfold digit_then_lower at 1 in Hdl.
  destruct (alnum_cases _ Hc) as [Hu|[Hl|Hd]].
  - rewrite Hu. rewrite (capital_not_digit _ Hu) in Hdl. simpl in Hdl.
    cbn [retitle]. replace (Ascii.eqb "_"%char "_"%char) with true by reflexivity.
    cbn [retitle].
    rewrite (to_lower_not_underscore _ Hu), (to_upper_to_lower _ Hu).
    intros Heq. injection Heq as Heq. revert Heq. now apply IH.
  - rewrite (lower_not_upper _ Hl).
    assert (Hnd : is_digit c = false).
    { destruct (is_digit c) eqn:E; [|reflexivity].
      apply digit_not_lower in E. congruence. }
    rewrite Hnd in Hdl. simpl in Hdl.
    cbn [retitle]. rewrite (alnum_not_underscore _ Hc).
    intros Heq. injection Heq as _ Heq. revert Heq. now apply IH.
  - rewrite (digit_not_upper _ Hd). rewrite Hd in Hdl. simpl in Hdl.
    cbn [retitle]. rewrite (alnum_not_underscore _ Hc), (digit_uncased _ Hd).
    intros Heq. injection Heq as _ Heq. revert Heq.
    destruct (is_lower b) eqn:Hb.
    + rewrite (lower_not_upper _ Hb). cbn [app lower map retitle].
      simpl in Hal. apply andb_prop in Hal as [Hbal _].
      rewrite (to_lower_id _ (lower_not_upper _ Hb)).
      rewrite (alnum_not_underscore _ Hbal).
      intros Heq. injection Heq as Heq _.
      now apply (to_upper_moves_lower Hb).
    + now apply IH.
Qed.

Lemma recamel_mark_differs x :
  forallb is_alnum x = true ->
  adjacent digit_then_lower (dropwhile (fun c => negb (is_upper c)) x) = true ->
  recamel (lower (mark x)) <> x.
Proof.
  induction x as [|c x IH]; intros Hal Hdl; [discriminate|].
  simpl in Hal. apply andb_prop in Hal as [Hc Hal].
  rewrite lower_mark_cons. simpl in Hdl.
  destruct (is_upper c) eqn:Hu; simpl negb in Hdl; cbv iota in Hdl.
  - cbn [recamel]. replace (Ascii.eqb "_"%char "_"%char) with true by reflexivity.
    cbn [retitle].
    rewrite (to_lower_not_underscore _ Hu), (to_upper_to_lower _ Hu).
    intros Heq. injection Heq as Heq. revert Heq.
    apply retitle_mark_differs; [exact Hal|].
    destruct x as [|b x]; [discriminate|].
    change (adjacent digit_then_lower (c :: b :: x))
      with (digit_then_lower c b || adjacent digit_then_lower (b :: x)) in Hdl.
    unfold digit_then_lower at 1 in Hdl.
    now rewrite (capital_not_digit _ Hu) in Hdl.
  - cbn [recamel]. rewrite (alnum_not_underscore _ Hc).
    intros Heq. injection Heq as Heq. revert Heq. now apply IH.
Qed.

Lemma camelCase_snake_case_roundtrip_only_if (x : str) :
  is_camelCase x = true ->
  digit_then_lower_in_hump x = true ->
  camelCase (snake_case x) <> x.
Proof.
  unfold is_camelCase, digit_then_lower_in_hump. intros Hc Hd.
  apply andb_prop in Hc as [Hc Hadj]. apply andb_prop in Hc as [Hhd Hal].
  apply negb_true_iff in Hadj.
  rewrite snake_case_marks, camelCase_recamel; auto.
  - now apply recamel_mark_differs.
  - destruct x as [|c x]; [trivial|]. now apply lower_not_upper.
Qed.

(** C7, as stated: the round trip fails on a camelCase identifier none of
    whose digits stands next to a capital. *)
Lemma camelCase_snake_case_numeral_counterexample :
  is_camelCase "fooBar2baz" = true /\
  digit_next_to_capital "fooBar2baz" = false /\
  camelCase (snake_case "fooBar2baz") = "fooBar2Baz" /\
  camelCase (snake_case "fooBar2baz") <> "fooBar2baz".
Proof. repeat split; try reflexivity. vm_compute. discriminate. Qed.

(** C7, amended. For every camelCase identifier [x] (ASCII letters and
    digits, a lowercase letter first, no two capitals in a row) in which,
    from the first capital on, no digit is directly followed by a lowercase
    letter, [camelCase (snake_case x) = x]. *)
Theorem camelCase_snake_case_roundtrip (x : str) :
  is_camelCase x = true ->
  digit_then_lower_in_hump x = false ->
  camelCase (snake_case x) = x.
Proof.
  unfold is_camelCase, digit_then_lower_in_hump. intros Hc Hd.
  apply andb_prop in Hc as [Hc Hadj]. apply andb_prop in Hc as [Hhd Hal].
  apply negb_true_iff in Hadj.
  rewrite snake_case_marks, camelCase_recamel; auto.
  - now apply recamel_mark.
  - destruct x as [|c x]; [trivial|]. now apply lower_not_upper.
Qed.

Lemma camelCase_snake_case_roundtrip_witness :
  is_camelCase "activitySet" = true /\
  digit_then_lower_in_hump "activitySet" = false /\
  camelCase (snake_case "activitySet") = "activitySet".
Proof.
  split; [reflexivity|]. split; [reflexivity|].
  apply camelCase_snake_case_roundtrip; reflexivity.
Defined.

(** ** Strings: split, join, prefixes *)

Lemma join_split sep s : join [sep] (split sep s) = s.
Proof.
  induction s as [|c s IH]; [reflexivity|]. simpl.
  destruct (Ascii.eqb c sep) eqn:E.
  - apply Ascii.eqb_eq in E. subst c.
    destruct (split sep s) as [|w ws] eqn:Es; [now apply split_nonempty in Es|].
    simpl in *. now rewrite IH.
  - destruct (split sep s) as [|w ws] eqn:Es; [now apply split_nonempty in Es|].
    destruct ws; simpl in *; now rewrite <- IH.
Qed.

Lemma join_snoc sep ws w :
  ws <> [] -> join sep (ws ++ [w]) = join sep ws ++ sep ++ w.
Proof.
  induction ws as [|a ws IH]; [congruence|]. intros _.
  destruct ws as [|b ws]; [reflexivity|].
  change (join sep ((a :: b :: ws) ++ [w]))
    with (a ++ sep ++ join sep ((b :: ws) ++ [w])).
  rewrite IH by discriminate.
  change (join sep (a :: b :: ws)) with (a ++ sep ++ join sep (b :: ws)).
  now rewrite <- !app_assoc.
Qed.

Lemma is_prefix_app p t : is_prefix p (p ++ t) = true.
Proof.
  induction p as [|a p IH]; [reflexivity|]. simpl.
  now rewrite Ascii.eqb_refl, IH.
Qed.

Lemma is_prefix_refl p : is_prefix p p = true.
Proof. rewrite <- (app_nil_r p) at 2. apply is_prefix_app. Qed.

Lemma has_char_app c a b : has_char c (a ++ b) = has_char c a || has_char c b.
Proof. apply existsb_app. Qed.

Lemma has_char_remove_same c s : has_char c (remove_char c s) = false.
Proof.
  induction s as [|a s IH]; [reflexivity|]. simpl.
  destruct (Ascii.eqb a c) eqn:E; simpl; [exact IH|].
  rewrite IH, Ascii.eqb_sym, E. reflexivity.
Qed.

Lemma has_char_remove_other c c' s :
  has_char c s = false -> has_char c (remove_char c' s) = false.
Proof.
  induction s as [|a s IH]; [reflexivity|]. simpl.
  intros H. apply orb_false_iff in H as [Ha Hs].
  destruct (negb (Ascii.eqb a c')); simpl; [rewrite Ha|]; now apply IH.
Qed.

(** ** Dicts *)

Lemma dict_set_in V (d : dict V) k v k0 v0 :
  In (k0, v0) (dict_set d k v) -> (k0, v0) = (k, v) \/ In (k0, v0) d.
Proof.
  induction d as [|[k' v'] d IH]; simpl.
  - intros [H|[]]. left. now symmetry.
  - destruct (str_eqb k' k) eqn:E; simpl.
    + apply str_eqb_eq in E. subst k'. intros [H|H]; [left; now symmetry|auto].
    + intros [H|H]; [auto|]. destruct (IH H); auto.
Qed.

Lemma dict_get_set_same V (d : dict V) k v : dict_get (dict_set d k v) k = Some v.
Proof.
  induction d as [|[k' v'] d IH]; simpl.
  - now rewrite str_eqb_refl.
  - destruct (str_eqb k' k) eqn:E; simpl; now rewrite E.
Qed.

Lemma dict_get_set_other V (d : dict V) k v k0 :
  k0 <> k -> dict_get (dict_set d k v) k0 = dict_get d k0.
Proof.
  intros Hne. induction d as [|[k' v'] d IH]; simpl.
  - destruct (str_eqb k k0) eqn:E; [|reflexivity].
    apply str_eqb_eq in E. congruence.
  - destruct (str_eqb k' k) eqn:E; simpl.
    + apply str_eqb_eq in E. subst k'.
      destruct (str_eqb k k0) eqn:E0; [|reflexivity].
      apply str_eqb_eq in E0. congruence.
    + now rewrite IH.
Qed.

Lemma dict_get_in V (d : dict V) k v : dict_get d k = Some v -> In (k, v) d.
Proof.
  induction d as [|[k' v'] d IH]; simpl; [discriminate|].
  destruct (str_eqb k' k) eqn:E.
  - apply str_eqb_eq in E. intros H. inversion H. subst. now left.
  - auto.
Qed.

(** ** [contextualize] *)

Lemma createContext_key_undotted k :
  has_char "."%char (snd (_createContextForStr k)) = false.
Proof.
  unfold _createContextForStr.
  set (sp := split "/"%char k).
  destruct (has_char "."%char (last sp [])) eqn:E; simpl.
  - apply has_char_remove_other, has_char_remove_same.
  - rewrite has_char_app.
    rewrite has_char_remove_other by apply has_char_remove_same.
    exact E.
Qed.

Lemma createContext_entry_covers k :
  has_char "."%char k = true ->
  entry_covers k (fst (_createContextForStr k)) = true.
Proof.
  intros Hk. unfold _createContextForStr.
  pose proof (join_split "/"%char k) as Hjoin.
  pose proof (@split_nonempty "/"%char k) as Hne.
  set (sp := split "/"%char k) in *.
  destruct (has_char "."%char (last sp [])) eqn:E; simpl.
  - apply is_prefix_refl.
  - rewrite (app_removelast_last [] Hne) in Hjoin.
    destruct (removelast sp) as [|w ws] eqn:Er.
    + simpl in Hjoin. rewrite Hjoin in E. congruence.
    + rewrite join_snoc in Hjoin by discriminate.
      rewrite <- Hjoin. rewrite app_assoc. apply is_prefix_app.
Qed.

Lemma py_eq_single_entry e k v :
  py_eq e (JDict [(k, JStr v)]) = true -> e = JDict [(k, JStr v)].
Proof.
  destruct e as [| | | |l|d]; simpl; try discriminate.
  destruct d as [|[k0 u] [|]]; simpl; try discriminate.
  destruct (str_eqb k k0) eqn:Ek; [|discriminate].
  apply str_eqb_eq in Ek. subst k0.
  destruct u; simpl; try discriminate.
  rewrite andb_true_r. intros H. apply str_eqb_eq in H. now subst.
Qed.

Lemma createContext_shape k :
  exists key value, fst (_createContextForStr k) = JDict [(key, JStr value)].
Proof.
  unfold _createContextForStr.
  destruct (has_char "."%char (last (split "/"%char k) [])); simpl; eauto.
Qed.

Lemma context_add_list c l :
  (exists key value, c = JDict [(key, JStr value)]) ->
  exists l', context_add c (JList l) = Ok (JList l') /\ incl l l' /\ In c l'.
Proof.
  intros (key & value & ->). unfold context_add.
  destruct (existsb _ l) eqn:E.
  - exists l. split; [reflexivity|]. split; [apply incl_refl|].
    apply existsb_exists in E as (e & He & Heq).
    apply py_eq_single_entry in Heq. now subst.
  - exists (l ++ [JDict [(key, JStr value)]]). split; [reflexivity|].
    split; [apply incl_appl, incl_refl|]. apply in_or_app. right. now left.
Qed.

Lemma undotted_dict_keys_set o k v :
  undotted_dict_keys o ->
  (is_dict v = true -> has_char "."%char k = false) ->
  undotted_dict_keys (dict_set o k v).
Proof.
  intros Ho Hk k0 v0 Hin. apply dict_set_in in Hin as [Heq|Hin].
  - inversion Heq; subst. now apply Hk.
  - now apply (Ho k0 v0).
Qed.

Lemma deeperContextualize_loop sub :
  forall l acc,
    undotted_dict_keys acc ->
    exists l' o,
      for_each
        (fun (st : JSON * dict JSON) (kv : str * JSON) =>
           let (context, newObj) := st in
           let (k, v) := kv in
           if is_dict v && has_char "."%char k then
             let (c, o) := _createContextForStr k in
             context' <- context_add c context ;;
             Ok (context', dict_set newObj o v)
           else Ok (context, dict_set newObj k v))
        sub (JList l, acc) = Ok (JList l', o) /\
      incl l l' /\
      undotted_dict_keys o /\
      (forall k v, In (k, JDict v) sub -> has_char "."%char k = true ->
                   In (fst (_createContextForStr k)) l').
Proof.
  induction sub as [|[k v] sub IH]; intros l acc Hacc.
  - exists l, acc. repeat split; auto using incl_refl. intros k v [].
  - cbn [for_each].
    destruct (is_dict v && has_char "."%char k) eqn:E.
    + apply andb_prop in E as [Hv Hk].
      pose proof (createContext_key_undotted k) as Hundot.
      destruct (context_add_list l (createContext_shape k))
        as (l1 & Hadd & Hincl & Hin).
      destruct (_createContextForStr k) as [c o] eqn:Ec. cbn [fst snd] in *.
      rewrite Hadd. cbn [bind].
      destruct (IH l1 (dict_set acc o v)) as (l' & o' & Hrun & Hincl' & Ho' & Hent).
      { apply undotted_dict_keys_set; auto. }
      exists l', o'. split; [exact Hrun|].
      split; [eapply incl_tran; eauto|]. split; [exact Ho'|].
      intros k0 v0 [Heq|Hin0] Hk0.
      * inversion Heq; subst. rewrite Ec. simpl. now apply Hincl'.
      * now apply (Hent k0 v0).
    + cbn [bind].
      destruct (IH l (dict_set acc k v)) as (l' & o' & Hrun & Hincl' & Ho' & Hent).
      { apply undotted_dict_keys_set; auto. intros Hv.
        rewrite Hv in E. simpl in E. exact E. }
      exists l', o'. split; [exact Hrun|]. split; [exact Hincl'|].
      split; [exact Ho'|].
      intros k0 v0 [Heq|Hin0] Hk0.
      * inversion Heq; subst. simpl in E. congruence.
      * now apply (Hent k0 v0).
Qed.

Lemma deeperContextualize_list sub l :
  exists l' o,
    _deeperContextualize sub (JList l) = Ok (JList l', o) /\
    incl l l' /\
    undotted_dict_keys o /\
    (forall k v, In (k, JDict v) sub -> has_char "."%char k = true ->
                 In (fst (_createContextForStr k)) l').
Proof. apply deeperContextualize_loop. intros k v []. Qed.

Lemma contextualize_loop d :
  forall l acc,
    second_level_undotted acc ->
    exists l' o,
      for_each
        (fun (st : JSON * dict JSON) (kv : str * JSON) =>
           let (context, newObj) := st in
           let (k, v) := kv in
           match v with
           | JDict dv =>
               ' (context', o) <- _deeperContextualize dv context ;;
               Ok (context', dict_set newObj k (JDict o))
           | _ => Ok (context, dict_set newObj k v)
           end)
        d (JList l, acc) = Ok (JList l', o) /\
      incl l l' /\
      second_level_undotted o /\
      (forall k1 sub k v,
          In (k1, JDict sub) d -> In (k, JDict v) sub ->
          has_char "."%char k = true ->
          In (fst (_createContextForStr k)) l').
Proof.
  induction d as [|[k1 v1] d IH]; intros l acc Hacc.
  - exists l, acc. repeat split; auto using incl_refl. intros ? ? ? ? [].
  - cbn [for_each].
    assert (Hplain :
      is_dict v1 = false ->
      exists l' o,
        (s' <- Ok (JList l, dict_set acc k1 v1) ;;
         for_each
           (fun (st : JSON * dict JSON) (kv : str * JSON) =>
              let (context, newObj) := st in
              let (k, v) := kv in
              match v with
              | JDict dv =>
                  ' (context', o) <- _deeperContextualize dv context ;;
                  Ok (context', dict_set newObj k (JDict o))
              | _ => Ok (context, dict_set newObj k v)
              end) d s') = Ok (JList l', o) /\
        incl l l' /\ second_level_undotted o /\
        (forall k0 sub k v,
            In (k0, JDict sub) ((k1, v1) :: d) -> In (k, JDict v) sub ->
            has_char "."%char k = true ->
            In (fst (_createContextForStr k)) l')).
    { intros Hv. cbn [bind].
      destruct (IH l (dict_set acc k1 v1)) as (l' & o' & Hrun & Hincl & Ho' & Hent).
      { intros k0 sub Hin. apply dict_set_in in Hin as [Heq|Hin].
        - inversion Heq; subst. discriminate.
        - now apply (Hacc k0). }
      exists l', o'. repeat split; auto.
      intros k0 sub k v [Heq|Hin] Hk Hdot.
      - inversion Heq; subst. discriminate.
      - now apply (Hent k0 sub k v). }
    destruct v1 as [| | | | |dv]; try (now apply Hplain).
    clear Hplain.
    destruct (deeperContextualize_list dv l) as (l1 & o1 & Hrun1 & Hincl1 & Ho1 & Hent1).
    rewrite Hrun1. cbn [bind].
    destruct (IH l1 (dict_set acc k1 (JDict o1)))
      as (l' & o' & Hrun & Hincl & Ho' & Hent).
    { intros k0 sub Hin. apply dict_set_in in Hin as [Heq|Hin].
      - inversion Heq; subst. exact Ho1.
      - now apply (Hacc k0). }
    exists l', o'. split; [exact Hrun|].
    split; [eapply incl_tran; eauto|]. split; [exact Ho'|].
    intros k0 sub k v [Heq|Hin] Hk Hdot.
    + inversion Heq; subst. apply Hincl. now apply (Hent1 k v).
    + now apply (Hent k0 sub k v).
Qed.

(** C3, as stated: a dotted key three levels down is left in place and gets
    no context entry; and with a [@context] that is not a list the call does
    not return at all. *)
Lemma contextualize_depth_counterexample :
  let obj := JDict [("a" : str, JDict [("b" : str, JDict [("c.d" : str, JDict [])])])] in
  In ("c.d" : str) (dotted_dict_keys obj) /\
  contextualize obj =
    Ok (JDict [("a" : str, JDict [("b" : str, JDict [("c.d" : str, JDict [])])]);
               ("@context" : str, JList [])]) /\
  (forall r, contextualize obj = Ok r ->
             dotted_dict_keys r <> [] /\ context_covers r "c.d" = false) /\
  contextualize
    (JDict [("@context" : str, JStr "https://schema.org");
            ("a" : str, JDict [("b.c" : str, JDict [])])]) = Raise TypeError.
Proof.
  cbv zeta. split; [now left|]. split; [reflexivity|]. split; [|reflexivity].
  intros r Hr. vm_compute in Hr. inversion Hr; subst. split.
  - vm_compute. discriminate.
  - reflexivity.
Qed.

Lemma dict_set_keeps_keys V (d : dict V) k v k0 :
  In k0 (dict_keys d) -> In k0 (dict_keys (dict_set d k v)).
Proof.
  unfold dict_keys. induction d as [|[k' v'] d IH]; simpl; [intros []|].
  destruct (str_eqb k' k); simpl; intros [H|H]; auto.
Qed.

Lemma dict_set_has_key V (d : dict V) k v : In k (dict_keys (dict_set d k v)).
Proof.
  unfold dict_keys. induction d as [|[k' v'] d IH]; simpl; [now left|].
  destruct (str_eqb k' k) eqn:E; simpl.
  - left. now apply str_eqb_eq.
  - now right.
Qed.

Lemma deeperContextualize_values sub :
  forall ctx acc ctx' o,
    for_each deeper_step sub (ctx, acc) = Ok (ctx', o) ->
    forall k' v',
      In (k', v') o -> In (k', v') acc \/ exists k, In (k, v') sub.
Proof.
  induction sub as [|[k v] sub IH]; intros ctx acc ctx' o Hrun k' v' Hin.
  - inversion Hrun; subst. now left.
  - cbn [for_each] in Hrun.
    assert (Hstep : forall ctx1 key,
              for_each deeper_step sub (ctx1, dict_set acc key v)
              = Ok (ctx', o) ->
              In (k', v') acc \/ exists k0, In (k0, v') ((k, v) :: sub)).
    { intros ctx1 key Hrun1.
      destruct (IH _ _ _ _ Hrun1 k' v' Hin) as [Hacc|[k0 Hk0]].
      - apply dict_set_in in Hacc as [Heq|Hacc]; [|now left].
        inversion Heq; subst. right. exists k. now left.
      - right. exists k0. now right. }
    destruct (is_dict v && has_char "."%char k).
    + destruct (_createContextForStr k) as [c0 o0].
      destruct (context_add c0 ctx) as [ctx1| |]; try discriminate.
      cbn [bind] in Hrun. now apply (Hstep ctx1 o0).
    + cbn [bind] in Hrun. now apply (Hstep ctx k).
Qed.

Lemma contextualize_values d0 d :
  forall ctx acc ctx' o,
    incl d d0 ->
    for_each top_step d (ctx, acc) = Ok (ctx', o) ->
    (forall k1 sub' k' v',
        In (k1, JDict sub') acc -> In (k', v') sub' ->
        exists sub k, In (k1, JDict sub) d0 /\ In (k, v') sub) ->
    forall k1 sub' k' v',
      In (k1, JDict sub') o -> In (k', v') sub' ->
      exists sub k, In (k1, JDict sub) d0 /\ In (k, v') sub.
Proof.
  induction d as [|[k v] d IH]; intros ctx acc ctx' o Hincl Hrun Hacc.
  - inversion Hrun; subst. exact Hacc.
  - cbn [for_each] in Hrun.
    assert (Hd : incl d d0) by (intros x Hx; apply Hincl; now right).
    assert (Hplain : is_dict v = false ->
              for_each top_step d (ctx, dict_set acc k v) = Ok (ctx', o) ->
              forall k1 sub' k' v',
                In (k1, JDict sub') o -> In (k', v') sub' ->
                exists sub k, In (k1, JDict sub) d0 /\ In (k, v') sub).
    { intros Hv Hrun1. apply (IH _ _ _ _ Hd Hrun1).
      intros k1 sub' k' v' Hin Hin'.
      apply dict_set_in in Hin as [Heq|Hin]; [|now apply (Hacc k1 sub' k' v')].
      inversion Heq; subst. discriminate. }
    destruct v as [| | | | |dv]; cbn [bind] in Hrun;
      try (apply Hplain; [reflexivity | exact Hrun]).
    clear Hplain.
    destruct (_deeperContextualize dv ctx) as [[ctx1 o1]| |] eqn:E;
      try discriminate.
    cbn [bind] in Hrun. unfold _deeperContextualize in E.
    apply (IH _ _ _ _ Hd Hrun).
    intros k1 sub' k' v' Hin Hin'.
    apply dict_set_in in Hin as [Heq|Hin]; [|now apply (Hacc k1 sub' k' v')].
    inversion Heq; subst.
    destruct (deeperContextualize_values _ _ _ E _ _ Hin') as [[]|[k0 Hk0]].
    exists dv, k0. split; [|exact Hk0]. apply Hincl. now left.
Qed.

Lemma contextualize_keys d :
  forall ctx acc ctx' o,
    for_each top_step d (ctx, acc) = Ok (ctx', o) ->
    forall k, In k (dict_keys acc) \/ In k (dict_keys d) ->
              In k (dict_keys o).
Proof.
  induction d as [|[k0 v0] d IH]; intros ctx acc ctx' o Hrun k Hk.
  - inversion Hrun; subst. destruct Hk as [Hk|[]]. exact Hk.
  - cbn [for_each] in Hrun.
    assert (Hstep : forall ctx1 v1,
              for_each top_step d (ctx1, dict_set acc k0 v1) = Ok (ctx', o) ->
              In k (dict_keys o)).
    { intros ctx1 v1 Hrun1. apply (IH _ _ _ _ Hrun1).
      destruct Hk as [Hk|[<-|Hk]].
      - left. now apply dict_set_keeps_keys.
      - left. apply dict_set_has_key.
      - now right. }
    destruct v0 as [| | | | |dv]; cbn [bind] in Hrun;
      try (now apply (Hstep ctx _ Hrun)).
    destruct (_deeperContextualize dv ctx) as [[ctx1 o1]| |];
      try discriminate.
    cbn [bind] in Hrun. now apply (Hstep ctx1 _ Hrun).
Qed.

Lemma contextualize_top d0 d :
  forall ctx acc ctx' o,
    incl d d0 ->
    for_each top_step d (ctx, acc) = Ok (ctx', o) ->
    (forall k v,
        In (k, v) acc ->
        In (k, v) d0 \/
        exists sub sub', v = JDict sub' /\ In (k, JDict sub) d0) ->
    forall k v,
      In (k, v) o ->
      In (k, v) d0 \/
      exists sub sub', v = JDict sub' /\ In (k, JDict sub) d0.
Proof.
  induction d as [|[k0 v0] d IH]; intros ctx acc ctx' o Hincl Hrun Hacc.
  - inversion Hrun; subst. exact Hacc.
  - cbn [for_each] in Hrun.
    assert (Hd : incl d d0) by (intros x Hx; apply Hincl; now right).
    assert (H0 : In (k0, v0) d0) by (apply Hincl; now left).
    assert (Hstep : forall ctx1 v1,
              (In (k0, v1) d0 \/
               exists sub sub', v1 = JDict sub' /\ In (k0, JDict sub) d0) ->
              for_each top_step d (ctx1, dict_set acc k0 v1) = Ok (ctx', o) ->
              forall k v,
                In (k, v) o ->
                In (k, v) d0 \/
                exists sub sub', v = JDict sub' /\ In (k, JDict sub) d0).
    { intros ctx1 v1 Hv1 Hrun1. apply (IH _ _ _ _ Hd Hrun1).
      intros k v Hin.
      apply dict_set_in in Hin as [Heq|Hin]; [|now apply Hacc].
      inversion Heq; subst. exact Hv1. }
    destruct v0 as [| | | | |dv]; cbn [bind] in Hrun;
      try (apply (Hstep ctx _ (or_introl H0) Hrun)).
    destruct (_deeperContextualize dv ctx) as [[ctx1 o1]| |];
      try discriminate.
    cbn [bind] in Hrun. apply (Hstep ctx1 (JDict o1)); [|exact Hrun].
    right. exists dv, o1. split; [reflexivity|exact H0].
Qed.

(** C3, amended. For every input dict whose [@context], if it has one, is a
    list, [contextualize] returns a dict whose [@context] is a list and in
    which no dict that is the value of a top-level key has a dotted key
    with a dict value; and for every dotted key [k] with a dict value that
    sits in the dict of a top-level key of the input (the second level, the
    only one rewritten), the [@context] list holds the entry made for [k],
    whose value is a prefix of [k]. Moreover every top-level key of the
    input is a key of the result; every top-level entry of the result
    other than [@context] is an entry of the input, or a dict under a key
    that holds a dict in the input; and every value found in the dict of a
    top-level key of the result is a value found in the dict of that key
    in the input, unchanged. *)
Theorem contextualize_second_level (d : dict JSON) :
  (dict_get d "@context" = None \/
   exists l, dict_get d "@context" = Some (JList l)) ->
  exists rd l',
    contextualize (JDict d) = Ok (JDict rd) /\
    dict_get rd "@context" = Some (JList l') /\
    (forall k1 sub k v,
        In (k1, JDict sub) rd -> In (k, JDict v) sub ->
        has_char "."%char k = false) /\
    (forall k1 sub k v,
        In (k1, JDict sub) d -> In (k, JDict v) sub ->
        has_char "."%char k = true ->
        In (fst (_createContextForStr k)) l' /\
        entry_covers k (fst (_createContextForStr k)) = true) /\
    (forall k, In k (dict_keys d) -> In k (dict_keys rd)) /\
    (forall k v,
        In (k, v) rd ->
        k = ("@context" : str) \/ In (k, v) d \/
        exists sub sub', v = JDict sub' /\ In (k, JDict sub) d) /\
    (forall k1 sub' k' v',
        In (k1, JDict sub') rd -> In (k', v') sub' ->
        exists sub k, In (k1, JDict sub) d /\ In (k, v') sub).
Proof.
  intros Hctx.
  assert (exists l, match dict_get d "@context" with
                    | Some c => c
                    | None => JList []
                    end = JList l) as [l Hl].
  { destruct Hctx as [-> | [l ->]]; eauto. }
  destruct (contextualize_loop d l (acc := [])) as (l' & o & Hrun & _ & Ho & Hent).
  { intros ? ? []. }
  exists (dict_set o "@context" (JList l')), l'.
  split; [|split; [apply dict_get_set_same|split; [|split; [|split; [|split]]]]].
  - unfold contextualize. cbv zeta. rewrite Hl, Hrun. reflexivity.
  - intros k1 sub k v Hin Hk. apply dict_set_in in Hin as [Heq|Hin].
    + inversion Heq.
    + now apply (Ho k1 sub Hin k v).
  - intros k1 sub k v Hin Hk Hdot. split.
    + now apply (Hent k1 sub k v).
    + now apply createContext_entry_covers.
  - intros k Hk. apply dict_set_keeps_keys.
    apply (@contextualize_keys d (JList l) [] (JList l') o Hrun). now right.
  - intros k v Hin. apply dict_set_in in Hin as [Heq|Hin].
    + left. now inversion Heq.
    + right.
      apply (@contextualize_top d d (JList l) [] (JList l') o
               (incl_refl d) Hrun); [intros ? ? []|exact Hin].
  - intros k1 sub' k' v' Hin Hin'.
    apply dict_set_in in Hin as [Heq|Hin]; [inversion Heq|].
    apply (@contextualize_values d d (JList l) [] (JList l') o
             (incl_refl d) Hrun) with (k1 := k1) (sub' := sub') (k' := k');
      auto.
    intros ? ? ? ? [].
Qed.

Lemma contextualize_second_level_witness :
  exists rd l',
    contextualize
      (JDict [("@context" : str, JList []);
              ("ui" : str, JDict [("schema.org/name" : str, JDict [])])])
    = Ok (JDict rd) /\
    dict_get rd "@context" = Some (JList l') /\
    In (fst (_createContextForStr "schema.org/name")) l'.
Proof.
  destruct (@contextualize_second_level
              [("@context" : str, JList []);
               ("ui" : str, JDict [("schema.org/name" : str, JDict [])])])
    as (rd & l' & Hrun & Hget & _ & Hent & _).
  { right. exists []. reflexivity. }
  exists rd, l'. split; [exact Hrun|]. split; [exact Hget|].
  apply (Hent "ui" [("schema.org/name" : str, JDict [])] "schema.org/name" []).
  - right. now left.
  - now left.
  - reflexivity.
Defined.

(** ** [keyExpansion] *)

Lemma str_in_In k keys : str_in k keys = true <-> In k keys.
Proof.
  unfold str_in. rewrite existsb_exists. split.
  - intros (x & Hx & Heq). apply str_eqb_eq in Heq. now subst.
  - intros H. exists k. split; [exact H | apply str_eqb_refl].
Qed.

Lemma has_char_In c s : has_char c s = true <-> In c s.
Proof.
  unfold has_char. rewrite existsb_exists. split.
  - intros (x & Hx & Heq). apply Ascii.eqb_eq in Heq. now subst.
  - intros H. exists c. split; [exact H | apply Ascii.eqb_refl].
Qed.


(** The last piece of a split holds no separator. *)
Lemma last_split_clean sep s : has_char sep (last (split sep s) []) = false.
Proof.
  induction s as [|c s IH]; [reflexivity|]. simpl.
  destruct (split sep s) as [|w ws] eqn:Es; [now apply split_nonempty in Es|].
  destruct (Ascii.eqb c sep) eqn:E.
  - exact IH.
  - destruct ws as [|w' ws]; [|exact IH].
    simpl in *. now rewrite Ascii.eqb_sym, E.
Qed.

(** The last piece of a split is a suffix. *)
Lemma last_split_suffix sep s : exists p, s = p ++ last (split sep s) [].
Proof.
  induction s as [|c s [p IH]]; [now exists []|]. simpl.
  destruct (split sep s) as [|w ws] eqn:Es; [now apply split_nonempty in Es|].
  destruct (Ascii.eqb c sep) eqn:E.
  - exists (c :: p). simpl. now rewrite IH at 1.
  - destruct ws as [|w' ws].
    + exists []. simpl in *. destruct p; simpl in IH.
      * now subst.
      * exfalso. assert (Hlen : length s = length (a :: p ++ w)) by now rewrite IH at 1.
        pose proof (join_split sep s) as Hj. rewrite Es in Hj. simpl in Hj.
        subst w. simpl in Hlen. rewrite length_app in Hlen. lia.
    + exists (c :: p). simpl. now rewrite IH at 1.
Qed.


Lemma keyExpansion_In x keys :
  In x (keyExpansion keys) <->
  (exists k sep, In k keys /\ (sep = ":"%char \/ sep = "/"%char) /\
                 has_char sep k = true /\ x = last (split sep k) []) \/
  (In x keys /\ has_char ":"%char x = false /\ has_char "/"%char x = false).
Proof.
  unfold keyExpansion. rewrite nodup_In, in_app_iff, in_flat_map, filter_In.
  split.
  - intros [(k & Hk & Hx)|(Hx & Hc)].
    + left. simpl in Hx. rewrite app_nil_r in Hx.
      apply in_app_or in Hx as [Hx|Hx].
      * destruct (has_char ":"%char k) eqn:E; [|destruct Hx].
        destruct Hx as [<-|[]]. exists k, ":"%char. auto.
      * destruct (has_char "/"%char k) eqn:E; [|destruct Hx].
        destruct Hx as [<-|[]]. exists k, "/"%char. auto.
    + right. apply andb_prop in Hc as [H1 H2].
      apply negb_true_iff in H1, H2. auto.
  - intros [(k & sep & Hk & Hsep & Hc & ->)|(Hx & H1 & H2)].
    + left. exists k. split; [exact Hk|]. simpl. rewrite app_nil_r.
      apply in_or_app. destruct Hsep as [-> | ->]; rewrite Hc.
      * left. now left.
      * right. now left.
    + right. split; [exact Hx|]. now rewrite H1, H2.
Qed.

Lemma other_separator sep sep' :
  (sep = ":"%char \/ sep = "/"%char) -> (sep' = ":"%char \/ sep' = "/"%char) ->
  sep = sep' \/ sep <> sep'.
Proof. intros _ _. destruct (ascii_dec sep sep'); auto. Qed.



(** ** [expand] *)

Section ExpandFacts.

Variable jsonld_expand : JSON -> expansion.

(** An expansion failure other than an unreachable context hands the input
    back. *)
Lemma expand_other_error fuel obj keep cause :
  obj <> JNull ->
  jsonld_expand obj = JsonLdError (Some cause) ->
  cause_type cause <> "jsonld.ContextUrlError" ->
  expand jsonld_expand (S fuel) obj keep = Ok obj.
Proof.
  intros Hobj Herr Hty. apply str_eqb_neq in Hty.
  destruct obj; [congruence| | | | |]; cbn [expand]; now rewrite Herr, Hty.
Qed.

(** C2. When the expansion of a dict fails on an unreachable context that
    is listed in its [@context], [expand] retries on the object whose
    [@context] is [None]: the value of [list.remove] is what the code
    stores, so the other entries of the list are dropped with the bad
    one, not left in place. *)
Theorem expand_context_url_error_drops_context fuel keep d l cause :
  jsonld_expand (JDict d) = JsonLdError (Some cause) ->
  cause_type cause = "jsonld.ContextUrlError" ->
  dict_get d "@context" = Some (JList l) ->
  existsb (fun e => py_eq e (cause_url cause)) l = true ->
  expand jsonld_expand (S fuel) (JDict d) keep
  = expand jsonld_expand fuel (JDict (dict_set d "@context" JNull)) keep
  /\ dict_get (dict_set d "@context" JNull) "@context" = Some JNull
  /\ JNull <> JList (remove_first (cause_url cause) l).
Proof.
  intros Herr Hty Hctx Hin. split; [|split].
  - cbn [expand]. rewrite Herr, Hty, str_eqb_refl.
    unfold drop_invalid_context, list_remove. rewrite Hctx, Hin. reflexivity.
  - apply dict_get_set_same.
  - discriminate.
Qed.

(** C8. [expand(None)] is [None]; and when the linked-data library expands
    the empty object to an empty result (the empty document, or a document
    made of one empty object), [expand({})] is [None], not an empty dict
    or list. *)
Theorem expand_none_and_empty fuel keep :
  jsonld_expand (JDict []) = Expanded [] \/
  jsonld_expand (JDict []) = Expanded [JDict []] ->
  expand jsonld_expand (S fuel) JNull keep = Ok JNull /\
  expand jsonld_expand (S fuel) (JDict []) keep = Ok JNull.
Proof.
  intros Hempty. split; [reflexivity|]. cbn [expand].
  destruct Hempty as [-> | ->]; reflexivity.
Qed.

(** Any input whose expansion is the empty document collapses to [None]. *)
Lemma expand_empty_collapses fuel keep obj :
  jsonld_expand obj = Expanded [] -> expand jsonld_expand (S fuel) obj keep = Ok JNull.
Proof.
  intros Hempty. destruct obj; [reflexivity| | | | |];
    cbn [expand]; now rewrite Hempty.
Qed.

End ExpandFacts.

Lemma expand_context_url_error_drops_context_witness :
  expand (expansion_table unreachable_table) 2 (JDict item_with_contexts) false
  = expand (expansion_table unreachable_table) 1
      (JDict [("@context" : str, JNull); ("name" : str, JStr "Q")]) false.
Proof.
  refine (proj1 (@expand_context_url_error_drops_context
           (expansion_table unreachable_table) 1 false item_with_contexts
           [JStr "https://unreachable.example/context"; JStr "https://schema.org"]
           {| cause_type := "jsonld.ContextUrlError";
              cause_url := JStr "https://unreachable.example/context" |}
           _ _ _ _));
    reflexivity.
Defined.

Lemma expand_none_and_empty_witness :
  expand (fun _ => Expanded []) 1 JNull false = Ok JNull /\
  expand (fun _ => Expanded []) 1 (JDict []) false = Ok JNull.
Proof.
  apply (@expand_none_and_empty (fun _ => Expanded []) 0 false).
  left. reflexivity.
Defined.

(** ** What [expand] merges back *)




Lemma kept_back_spec obj newObj k v :
  In (k, v) (kept_back obj newObj) <->
  In k (dict_keys obj) /\ dict_get obj k = Some v /\ truthy v = true /\
  str_in k (keyExpansion (dict_keys newObj)) = false.
Proof.
  unfold kept_back. rewrite in_flat_map. split.
  - intros (k0 & Hk0 & Hin).
    destruct (dict_get obj k0) as [v0|] eqn:Eg; [|destruct Hin].
    destruct (truthy v0 && negb (str_in k0 (keyExpansion (dict_keys newObj))))
      eqn:Ec; [|destruct Hin].
    destruct Hin as [Heq|[]]. inversion Heq; subst.
    apply andb_prop in Ec as [Ht Hn]. apply negb_true_iff in Hn. auto.
  - intros (Hk & Hg & Ht & Hn). exists k. split; [exact Hk|].
    rewrite Hg, Ht, Hn. now left.
Qed.

Lemma dict_get_keys V (d : dict V) k v : dict_get d k = Some v -> In k (dict_keys d).
Proof.
  intros H. apply dict_get_in in H. apply (in_map fst) in H. exact H.
Qed.

Lemma dict_update_get V (e : dict V) k v :
  (forall v', In (k, v') e -> v' = v) ->
  forall d,
    dict_get d k = Some v \/ In (k, v) e ->
    dict_get (dict_update d e) k = Some v.
Proof.
  unfold dict_update.
  induction e as [|[k1 v1] e IH]; intros Huniq d H.
  - destruct H as [H|[]]. exact H.
  - simpl. apply IH.
    + intros v' Hv'. apply Huniq. now right.
    + destruct (str_eq_dec k k1) as [->|Hne].
      * left. rewrite (Huniq v1) by now left. apply dict_get_set_same.
      * destruct H as [H|[H|H]].
        -- left. now rewrite dict_get_set_other.
        -- inversion H; subst. congruence.
        -- now right.
Qed.

Section KeysToExpand.

Variable rec : JSON -> bool -> outcome JSON.


Lemma expand_key_other d k d' k0 :
  k0 <> k -> expand_key rec d k = Ok d' -> dict_get d' k0 = dict_get d k0.
Proof.
  unfold expand_key. intros Hne.
  destruct (dict_get d k) as [x|]; [|intros H; now inversion H; subst].
  destruct (expand_value rec x) as [v| |]; simpl; try discriminate.
  destruct (truthy v); intros H; inversion H; subst; auto.
  now apply dict_get_set_other.
Qed.



Lemma expand_keys_other keys k0 :
  ~ In k0 keys ->
  forall d d',
    for_each (expand_key rec) keys d = Ok d' -> dict_get d' k0 = dict_get d k0.
Proof.
  induction keys as [|k keys IH]; intros Hnin d d'; simpl.
  - intros H; now inversion H; subst.
  - destruct (expand_key rec d k) as [d1| |] eqn:E; simpl; try discriminate.
    intros H. rewrite (IH (fun Hin => Hnin (or_intror Hin)) _ _ H).
    eapply expand_key_other; [|exact E].
    intros ->. apply Hnin. now left.
Qed.


End KeysToExpand.






(** ** Language tags *)

(** C6. On [{"en-us": "Hello", "en": "Hi", "fr": "Bonjour"}], the tag
    [en-us] gives ["Hello"], the tag [en-gb] falls back to the more generic
    [en] and gives ["Hi"], and the tag [de], which matches no key, gives
    [None]. *)
Theorem getByLanguage_greetings (default_language : outcome JSON) (fuel : nat) :
  getByLanguage default_language (5 + fuel) greetings (JStr "en-us")
  = Ok (JStr "Hello") /\
  getByLanguage default_language (5 + fuel) greetings (JStr "en-gb")
  = Ok (JStr "Hi") /\
  getByLanguage default_language (5 + fuel) greetings (JStr "de")
  = Ok JNull.
Proof. repeat split; vm_compute; reflexivity. Qed.

Lemma getMoreGeneric_en_gb : getMoreGeneric "en-gb" = ["en-gb" : str; "en" : str].
Proof. reflexivity. Qed.

(** ** [formatLdObject] *)

Section FormatLdObjectFacts.

Variable World : Type.
Variable try_block :
  (ldArgs -> World -> outcome JSON * World) ->
  ldArgs -> World -> outcome JSON * (JSON * str) * World.
Variable print_exc_info : exn -> World -> World.

(** Whatever the body does, no exception leaves the function. *)
Lemma formatLdObject_never_raises fuel :
  forall a w e w', formatLdObject try_block print_exc_info fuel a w <> (Raise e, w').
Proof.
  induction fuel as [|fuel IH]; intros a w e w'; [discriminate|].
  cbn [formatLdObject].
  destruct (try_block _ a w) as [[[v|e1|] now] w1]; try discriminate.
  destruct (negb (refreshCache a)); [apply IH | discriminate].
Qed.

(** C4. When the body of a call with [refreshCache=False] raises, the
    call is the one retry with [refreshCache] forced to [True]; when the
    body of that retry raises too, the exception is printed and the call
    returns [None]; and no exception reaches the caller. *)
Theorem formatLdObject_retries_once fuel a w e now w1 :
  refreshCache a = false ->
  try_block (formatLdObject try_block print_exc_info (S fuel)) a w = (Raise e, now, w1) ->
  formatLdObject try_block print_exc_info (S (S fuel)) a w
  = formatLdObject try_block print_exc_info (S fuel) (retry_args a now) w1 /\
  refreshCache (retry_args a now) = true /\
  (forall e2 now2 w2,
      try_block (formatLdObject try_block print_exc_info fuel) (retry_args a now) w1
      = (Raise e2, now2, w2) ->
      formatLdObject try_block print_exc_info (S (S fuel)) a w = (Ok JNull, print_exc_info e2 w2)) /\
  (forall e' w', formatLdObject try_block print_exc_info (S (S fuel)) a w <> (Raise e', w')).
Proof.
  intros Hrc Hraise.
  assert (Hretry : formatLdObject try_block print_exc_info (S (S fuel)) a w
                   = formatLdObject try_block print_exc_info (S fuel) (retry_args a now) w1).
  { change (formatLdObject try_block print_exc_info (S (S fuel)) a w)
      with (match try_block (formatLdObject try_block print_exc_info (S fuel)) a w with
            | (Ok returnObj, _, w') => (Ok returnObj, w')
            | (OutOfFuel, _, w') => (OutOfFuel, w')
            | (Raise e, now, w') =>
                if negb (refreshCache a)
                then formatLdObject try_block print_exc_info (S fuel) (retry_args a now) w'
                else (Ok JNull, print_exc_info e w')
            end).
    now rewrite Hraise, Hrc. }
  split; [exact Hretry|]. split; [reflexivity|]. split.
  - intros e2 now2 w2 Hraise2. rewrite Hretry.
    cbn [formatLdObject]. now rewrite Hraise2.
  - intros e' w'. apply formatLdObject_never_raises.
Qed.

End FormatLdObjectFacts.

Lemma formatLdObject_retries_once_witness :
  formatLdObject plain_body (@cons exn) 2 unformattable []
  = (Ok JNull, [TypeError]).
Proof.
  destruct (@formatLdObject_retries_once
              (list exn) plain_body (@cons exn) 0 unformattable []
              TypeError
              (obj unformattable, camelCase (mesoPrefix unformattable)) []
              eq_refl eq_refl) as (_ & _ & H & _).
  exact (H TypeError _ [] eq_refl).
Defined.

(** ** Route handlers *)

(** C1. With a folder matching the applet by name (holding [old_item]) and
    a folder matching it by [meta.applet.@id] (holding [new_item] in a
    subject folder), [getResponses] returns under [appletId] the items of
    the matching folder enumerated last, not the union of both, and the
    answer changes with the order of enumeration. *)
Theorem getResponses_last_match_wins :
  fst (getResponses numbered everyone (Some ("u1" : str)) "u1" "A1"
         (both_schemas by_name_folder by_id_folder))
  = Ok [("A1" : str, [new_item])] /\
  fst (getResponses numbered everyone (Some ("u1" : str)) "u1" "A1"
         (both_schemas by_id_folder by_name_folder))
  = Ok [("A1" : str, [old_item])] /\
  childItems by_name_folder (both_schemas by_name_folder by_id_folder)
  = [old_item] /\
  childItems subject_folder (both_schemas by_name_folder by_id_folder)
  = [new_item].
Proof. repeat split; vm_compute; reflexivity. Qed.

Section RouteFacts.

Variable object_id : nat -> str.
Variable py_str : JSON -> str.

Lemma createFolder_spec parent parentType name st :
  exists f st',
    createFolder object_id parent parentType name st = (Ok f, st') /\
    In f (folders st') /\
    folder_name f = name /\
    parentCollection f = parentType /\
    parentId f = parent /\
    incl (folders st) (folders st') /\
    items st' = items st.
Proof.
  unfold createFolder.
  destruct (find _ (folders st)) as [f|] eqn:E.
  - apply find_some in E as [Hin Hf].
    apply andb_prop in Hf as [Hchild Hname].
    apply andb_prop in Hchild as [Hcoll Hparent].
    apply str_eqb_eq in Hname, Hcoll, Hparent.
    exists f, st. repeat split; auto using incl_refl.
  - eexists. eexists. split; [reflexivity|]. simpl.
    repeat split; auto using incl_appl, incl_refl.
    apply in_or_app. right. now left.
Qed.

(** On a dict, or with the key missing, the conditional expression is the
    fallback chain of the specification. *)
Lemma label_of_chain md key unknown :
  (dict_get md key = None \/ exists d, dict_get md key = Some (JDict d)) ->
  label_of (JDict md) key unknown
  = Ok (fallback_chain (dict_get md key) unknown).
Proof.
  unfold label_of, has_sub, py_in, py_getitem, dict_has.
  intros [H|[d H]]; rewrite H; simpl; [reflexivity|].
  repeat match goal with
         | |- context [dict_get d ?k] => destruct (dict_get d k); simpl
         end; reflexivity.
Qed.

(** On a raw string the chain is reached only when the string holds none
    of the three key names: the tests [in] are substring tests there, and
    indexing the string raises. *)
Lemma label_of_raw_string md key unknown s :
  dict_get md key = Some (JStr s) ->
  label_of (JDict md) key unknown
  = if is_infix "@id" s || is_infix "skos:prefLabel" s || is_infix "name" s
    then Raise TypeError
    else Ok (fallback_chain (dict_get md key) unknown).
Proof.
  unfold label_of, has_sub, py_in, py_getitem, dict_has.
  intros H; rewrite H; simpl.
  repeat match goal with
         | |- context [is_infix ?k s] => destruct (is_infix k s); simpl
         end; reflexivity.
Qed.

(** C9. For every call of [createResponseItem] whose metadata holds
    [applet = {"@id": "A1"}] and [activity = {"name": "Survey"}], the
    call returns the new item; its description is ["Survey response on "]
    followed by the current date, [" at "] and the current time; the
    item lies in the folder named after the subject (the caller when no
    subject is given), in the folder [A1], in the caller's [Responses]
    folder; and the folder name and the activity label are what the
    fallback chain [@id], [skos:prefLabel], [name], raw string,
    placeholder gives. *)
Theorem createResponseItem_survey informant subject_id md now st :
  dict_get md "applet" = Some (JDict [("@id" : str, JStr "A1")]) ->
  dict_get md "activity" = Some (JDict [("name" : str, JStr "Survey")]) ->
  exists newItem st' responses applet subject,
    createResponseItem object_id py_str informant subject_id (JDict md) now st
    = (Ok newItem, st') /\
    description newItem
    = "Survey response on " ++ strftime_date now ++ " at " ++ strftime_time now /\
    In newItem (items st') /\
    item_meta newItem = Some (JDict md) /\
    folderId newItem = folder_id subject /\
    In subject (folders st') /\
    folder_name subject
    = match subject_id with Some s => s | None => informant end /\
    parentCollection subject = "folder" /\
    parentId subject = folder_id applet /\
    In applet (folders st') /\
    folder_name applet = "A1" /\
    parentCollection applet = "folder" /\
    parentId applet = folder_id responses /\
    In responses (folders st') /\
    folder_name responses = "Responses" /\
    parentCollection responses = "user" /\
    parentId responses = informant /\
    label_of (JDict md) "applet" "[Unknown Applet]"
    = Ok (fallback_chain (dict_get md "applet") "[Unknown Applet]") /\
    label_of (JDict md) "activity" "[Unknown Activity]"
    = Ok (fallback_chain (dict_get md "activity") "[Unknown Activity]").
Proof.
  intros Happlet Hactivity.
  assert (Hla : label_of (JDict md) "applet" "[Unknown Applet]"
                = Ok (JStr "A1")).
  { rewrite label_of_chain by eauto. now rewrite Happlet. }
  assert (Hlb : label_of (JDict md) "activity" "[Unknown Activity]"
                = Ok (JStr "Survey")).
  { rewrite label_of_chain by eauto. now rewrite Hactivity. }
  assert (Htruthy : truthy (JDict md) = true).
  { destruct md; [discriminate|reflexivity]. }
  set (who := match subject_id with Some s => s | None => informant end).
  destruct (createFolder_spec informant "user" "Responses" st)
    as (fR & st1 & E1 & HinR & HnR & HcR & HpR & Hincl1 & _).
  destruct (createFolder_spec (folder_id fR) "folder" "A1" st1)
    as (fA & st2 & E2 & HinA & HnA & HcA & HpA & Hincl2 & _).
  destruct (createFolder_spec (folder_id fA) "folder" who st2)
    as (fS & st3 & E3 & HinS & HnS & HcS & HpS & Hincl3 & _).
  eexists. eexists. exists fR, fA, fS. split.
  { unfold createResponseItem, bindM, lift. fold who.
    rewrite E1, Hla. cbn [bind as_name]. rewrite E2, E3, Hlb.
    cbn [bind createItem]. rewrite Htruthy. reflexivity. }
  simpl.
  split; [reflexivity|]. split.
  { rewrite map_app. apply in_or_app. right. simpl.
    rewrite str_eqb_refl. now left. }
  repeat split; auto.
  - rewrite label_of_chain by eauto. reflexivity.
  - rewrite label_of_chain by eauto. reflexivity.
Qed.

End RouteFacts.

Lemma createResponseItem_survey_witness :
  exists newItem st',
    createResponseItem numbered (fun _ => []) "u1" None survey_metadata new_year
                       empty_store
    = (Ok newItem, st') /\
    description newItem = "Survey response on 2020-01-01 at 09:30:05 UTC".
Proof.
  destruct (@createResponseItem_survey
              numbered (fun _ => []) "u1" None
              [("applet" : str, JDict [("@id" : str, JStr "A1")]);
               ("activity" : str, JDict [("name" : str, JStr "Survey")])]
              new_year empty_store eq_refl eq_refl)
    as (newItem & st' & _ & _ & _ & Hrun & Hdescr & _).
  exists newItem, st'. split; [exact Hrun | exact Hdescr].
Defined.

(* ================================================================= *)
(** * Further properties *)

(** ** Case conversion *)

Lemma to_lower_underscore c :
  Ascii.eqb (to_lower c) "_"%char = Ascii.eqb c "_"%char.
Proof. all_chars c. Qed.

Lemma to_upper_underscore c :
  Ascii.eqb (to_upper c) "_"%char = Ascii.eqb c "_"%char.
Proof. all_chars c. Qed.

Lemma retitle_no_underscore s :
  forall pc, has_char "_"%char (retitle pc s) = false.
Proof.
  induction s as [|c s IH]; intros pc; [reflexivity|]. cbn [retitle].
  destruct (Ascii.eqb c "_"%char) eqn:E; [apply IH|].
  unfold has_char in *. cbn [existsb]. rewrite IH, orb_false_r.
  rewrite Ascii.eqb_sym.
  destruct pc; [rewrite to_lower_underscore | rewrite to_upper_underscore];
    exact E.
Qed.

Lemma recamel_no_underscore s : has_char "_"%char (recamel s) = false.
Proof.
  induction s as [|c s IH]; [reflexivity|]. cbn [recamel].
  destruct (Ascii.eqb c "_"%char) eqn:E; [apply retitle_no_underscore|].
  unfold has_char in *. cbn [existsb]. now rewrite IH, Ascii.eqb_sym, E.
Qed.

Lemma recamel_fixed s : has_char "_"%char s = false -> recamel s = s.
Proof.
  induction s as [|c s IH]; [reflexivity|]. unfold has_char. cbn [existsb recamel].
  intros H. apply orb_false_iff in H as [Hc Hs].
  rewrite Ascii.eqb_sym, Hc. f_equal. now apply IH.
Qed.

(** X1. The result of [camelCase] holds no underscore, [camelCase] leaves a
    string without underscore as it is, and it is idempotent: the type name
    that [formatLdObject] converts again at its retry is not changed a
    second time. *)
Theorem camelCase_idempotent (s : str) :
  has_char "_"%char (camelCase s) = false /\
  (has_char "_"%char s = false -> camelCase s = s) /\
  camelCase (camelCase s) = camelCase s.
Proof.
  rewrite !camelCase_recamel. split; [apply recamel_no_underscore|].
  split; [apply recamel_fixed|].
  apply recamel_fixed, recamel_no_underscore.
Qed.

Lemma first_cap_re_splitting : splitting first_cap_re.
Proof.
  intros s g1 g2 rest H.
  apply first_cap_re_inv in H as (c & u & run & -> & -> & -> & _).
  reflexivity.
Qed.

Lemma all_cap_re_splitting : splitting all_cap_re.
Proof.
  intros [|a [|b s]] g1 g2 rest; simpl; try discriminate.
  destruct ((is_lower a || is_digit a) && is_upper b); [|discriminate].
  intros H; inversion H; subst. reflexivity.
Qed.

Lemma remove_char_app c a b :
  remove_char c (a ++ b) = remove_char c a ++ remove_char c b.
Proof. apply filter_app. Qed.

(** A substitution adds underscores and nothing else. *)
Lemma sub_adds_underscores re :
  shrinking re -> splitting re ->
  forall s, remove_char "_"%char (sub re s) = remove_char "_"%char s.
Proof.
  intros Hshrink Hsplit s.
  remember (length s) as n eqn:Hn. revert s Hn.
  induction n as [n IH] using lt_wf_ind. intros s Hn.
  destruct s as [|c s]; [reflexivity|].
  rewrite (sub_cons Hshrink).
  destruct (re (c :: s)) as [[[g1 g2] rest]|] eqn:E.
  - pose proof (Hshrink _ _ _ _ E) as Hlen.
    rewrite (Hsplit _ _ _ _ E).
    rewrite !remove_char_app.
    change (remove_char "_"%char ("_"%char :: g2 ++ sub re rest))
      with (remove_char "_"%char (g2 ++ sub re rest)).
    rewrite remove_char_app.
    now rewrite (IH (length rest)) by (subst n; auto).
  - change (c :: sub re s) with ([c] ++ sub re s).
    change (c :: s) with ([c] ++ s).
    rewrite !remove_char_app.
    now rewrite (IH (length s)) by (subst n; simpl; auto).
Qed.

Lemma remove_underscore_lower s :
  remove_char "_"%char (lower s) = lower (remove_char "_"%char s).
Proof.
  induction s as [|c s IH]; [reflexivity|]. unfold lower, remove_char in *.
  cbn [map filter]. rewrite to_lower_underscore.
  destruct (Ascii.eqb c "_"%char); cbn [negb map]; now rewrite IH.
Qed.

Lemma snake_case_adds_underscores (s : str) :
  remove_char "_"%char (snake_case s) = lower (remove_char "_"%char s).
Proof.
  unfold snake_case. rewrite remove_underscore_lower.
  rewrite (sub_adds_underscores all_cap_re_shrinking all_cap_re_splitting).
  now rewrite (sub_adds_underscores first_cap_re_shrinking first_cap_re_splitting).
Qed.

(** *** From snake_case to camelCase and back *)

Lemma lower_to_upper_capital c : is_lower c = true -> is_upper (to_upper c) = true.
Proof. all_chars c. Qed.

Lemma to_lower_to_upper c : is_lower c = true -> to_lower (to_upper c) = c.
Proof. all_chars c. Qed.

Lemma lower_not_underscore c : is_lower c = true -> Ascii.eqb c "_"%char = false.
Proof. all_chars c. Qed.

Lemma lower_is_cased c : is_lower c = true -> is_cased c = true.
Proof. unfold is_cased. intros ->. apply orb_true_r. Qed.

Lemma lower_is_alnum c : is_lower c = true -> is_alnum c = true.
Proof. unfold is_alnum. intros H. now rewrite (lower_is_cased _ H). Qed.

Lemma capital_is_alnum c : is_upper c = true -> is_alnum c = true.
Proof. unfold is_alnum, is_cased. now intros ->. Qed.

Lemma lower_or_underscore_cases c :
  lower_or_underscore c = true ->
  is_lower c = true \/ c = "_"%char.
Proof.
  unfold lower_or_underscore, is_underscore. intros H.
  apply orb_true_iff in H as [H|H]; [now left|].
  right. now apply Ascii.eqb_eq.
Qed.

Lemma adjacent_cons r a y :
  adjacent r (a :: y)
  = match y with b :: _ => r a b | [] => false end || adjacent r y.
Proof. destruct y; reflexivity. Qed.

Lemma last_default (s : str) d d' : s <> [] -> last s d = last s d'.
Proof.
  induction s as [|a s IH]; [congruence|]. intros _.
  destruct s as [|b s]; [reflexivity|].
  change (last (a :: b :: s) d) with (last (b :: s) d).
  change (last (a :: b :: s) d') with (last (b :: s) d').
  apply IH. discriminate.
Qed.

Lemma words_in_shape_tail c s : words_in_shape (c :: s) -> words_in_shape s.
Proof.
  intros (Hch & Hadj & Hlast). cbn [forallb] in Hch. apply andb_prop in Hch as [_ Hch].
  repeat split; [exact Hch | now apply adjacent_tail in Hadj |].
  destruct s as [|b s]; [reflexivity|]. exact Hlast.
Qed.

Lemma words_in_shape_after_underscore s :
  words_in_shape ("_"%char :: s) ->
  exists c s', s = c :: s' /\ is_lower c = true.
Proof.
  intros (Hch & Hadj & Hlast).
  destruct s as [|c s']; [discriminate Hlast|].
  exists c, s'. split; [reflexivity|].
  cbn [forallb] in Hch. apply andb_prop in Hch as [_ Hch].
  apply andb_prop in Hch as [Hc _].
  destruct (lower_or_underscore_cases _ Hc) as [H| ->]; [exact H|].
  rewrite adjacent_cons in Hadj. discriminate Hadj.
Qed.

Lemma retitle_back s :
  words_in_shape s ->
  lower (mark (retitle true s)) = s /\
  (forall c s', s = c :: s' -> is_lower c = true ->
                lower (mark (retitle false s)) = "_"%char :: s).
Proof.
  induction s as [|c s IH]; intros Hs.
  - split; [reflexivity|]. intros c s' H. discriminate H.
  - pose proof (words_in_shape_tail Hs) as Hs'.
    destruct (IH Hs') as [IH1 IH2].
    destruct Hs as (Hch & Hadj & Hlast). pose proof Hch as Hch0.
    cbn [forallb] in Hch. apply andb_prop in Hch as [Hc _].
    destruct (lower_or_underscore_cases _ Hc) as [Hl | ->].
    + assert (Hstep : forall pc,
                 retitle pc (c :: s)
                 = (if pc then to_lower c else to_upper c) :: retitle true s).
      { intros pc. cbn [retitle].
        now rewrite (lower_not_underscore _ Hl), (lower_is_cased _ Hl). }
      split.
      * rewrite Hstep, lower_mark_cons, to_lower_not_upper.
        rewrite (to_lower_id _ (lower_not_upper _ Hl)). now rewrite IH1.
      * intros c0 s0 _ _.
        rewrite Hstep, lower_mark_cons, (lower_to_upper_capital _ Hl).
        rewrite (to_lower_to_upper _ Hl). now rewrite IH1.
    + split; [|intros c0 s0 H Hc0; inversion H; subst; discriminate Hc0].
      change (retitle true ("_"%char :: s)) with (retitle false s).
      assert (Hshape : words_in_shape ("_"%char :: s)).
      { split; [exact Hch0|]. split; assumption. }
      destruct (words_in_shape_after_underscore Hshape) as (c' & s' & -> & Hc').
      now apply (IH2 c' s').
Qed.

Lemma recamel_back s : words_in_shape s -> lower (mark (recamel s)) = s.
Proof.
  induction s as [|c s IH]; intros Hs; [reflexivity|].
  pose proof (words_in_shape_tail Hs) as Hs'.
  destruct Hs as (Hch & Hrest). pose proof Hch as Hch0.
  cbn [forallb] in Hch. apply andb_prop in Hch as [Hc _].
  destruct (lower_or_underscore_cases _ Hc) as [Hl | ->].
  - cbn [recamel]. rewrite (lower_not_underscore _ Hl), lower_mark_cons.
    rewrite (lower_not_upper _ Hl). now rewrite IH.
  - change (recamel ("_"%char :: s)) with (retitle false s).
    assert (Hshape : words_in_shape ("_"%char :: s)) by (split; assumption).
    destruct (words_in_shape_after_underscore Hshape) as (c' & s' & -> & Hc').
    now apply (proj2 (retitle_back Hs') c' s').
Qed.

Lemma retitle_letters s :
  forall pc,
    forallb lower_or_underscore s = true ->
    forallb is_alnum (retitle pc s) = true.
Proof.
  induction s as [|c s IH]; intros pc Hch; [reflexivity|].
  cbn [forallb] in Hch. apply andb_prop in Hch as [Hc Hch]. cbn [retitle].
  destruct (lower_or_underscore_cases _ Hc) as [Hl | ->].
  - rewrite (lower_not_underscore _ Hl). cbn [forallb].
    rewrite IH by exact Hch. rewrite andb_true_r.
    destruct pc.
    + rewrite (to_lower_id _ (lower_not_upper _ Hl)). now apply lower_is_alnum.
    + apply capital_is_alnum. now apply lower_to_upper_capital.
  - now apply IH.
Qed.

Lemma recamel_letters s :
  forallb lower_or_underscore s = true -> forallb is_alnum (recamel s) = true.
Proof.
  induction s as [|c s IH]; intros Hch; [reflexivity|].
  cbn [forallb] in Hch. apply andb_prop in Hch as [Hc Hch]. cbn [recamel].
  destruct (lower_or_underscore_cases _ Hc) as [Hl | ->].
  - rewrite (lower_not_underscore _ Hl). cbn [forallb].
    now rewrite IH, (lower_is_alnum _ Hl).
  - now apply retitle_letters.
Qed.

Lemma has_lone_letter_tail a s :
  has_lone_letter (a :: s) = false -> has_lone_letter s = false.
Proof.
  destruct s as [|b [|c s]]; try reflexivity.
  cbn [has_lone_letter]. intros H. now apply orb_false_iff in H as [_ H].
Qed.

Lemma has_lone_letter_after_underscore s :
  has_lone_letter ("_"%char :: s) = false -> second_is_underscore s = false.
Proof.
  destruct s as [|b [|c s]]; try reflexivity.
  cbn [has_lone_letter second_is_underscore]. intros H.
  now apply orb_false_iff in H as [H _].
Qed.

(** After a letter the next character of the result is a capital only when
    an underscore follows in the input. *)
Lemma retitle_true_head s :
  forallb lower_or_underscore s = true ->
  second_is_underscore ("a"%char :: s) = false ->
  match retitle true s with b :: _ => is_upper b = false | [] => True end.
Proof.
  destruct s as [|c s]; [intros; exact I|]. intros Hch Hsec.
  cbn [forallb] in Hch. apply andb_prop in Hch as [Hc _].
  destruct (lower_or_underscore_cases _ Hc) as [Hl | ->]; [|discriminate Hsec].
  cbn [retitle]. rewrite (lower_not_underscore _ Hl). apply to_lower_not_upper.
Qed.

Lemma retitle_humps s :
  forall pc,
    forallb lower_or_underscore s = true ->
    has_lone_letter s = false ->
    (pc = false -> second_is_underscore s = false) ->
    adjacent two_capitals (retitle pc s) = false.
Proof.
  induction s as [|c s IH]; intros pc Hch Hlone Hpc; [reflexivity|].
  pose proof Hch as Hch0.
  cbn [forallb] in Hch. apply andb_prop in Hch as [Hc Hch].
  destruct (lower_or_underscore_cases _ Hc) as [Hl | ->].
  - cbn [retitle]. rewrite (lower_not_underscore _ Hl), (lower_is_cased _ Hl).
    rewrite adjacent_cons.
    rewrite (IH true Hch (has_lone_letter_tail _ _ Hlone)) by discriminate.
    rewrite orb_false_r.
    destruct pc.
    + destruct (retitle true s); [reflexivity|].
      unfold two_capitals. now rewrite to_lower_not_upper.
    + specialize (Hpc eq_refl).
      assert (Hsec : second_is_underscore ("a"%char :: s) = false)
        by (destruct s; [reflexivity | exact Hpc]).
      pose proof (retitle_true_head s Hch Hsec) as Hhd.
      destruct (retitle true s) as [|b y]; [reflexivity|].
      unfold two_capitals. rewrite Hhd. apply andb_false_r.
  - change (retitle pc ("_"%char :: s)) with (retitle false s).
    apply IH; [exact Hch | now apply has_lone_letter_tail in Hlone |].
    intros _. now apply has_lone_letter_after_underscore.
Qed.

Lemma recamel_humps s :
  forallb lower_or_underscore s = true ->
  has_lone_letter s = false ->
  adjacent two_capitals (recamel s) = false.
Proof.
  induction s as [|c s IH]; intros Hch Hlone; [reflexivity|].
  cbn [forallb] in Hch. apply andb_prop in Hch as [Hc Hch].
  destruct (lower_or_underscore_cases _ Hc) as [Hl | ->].
  - cbn [recamel]. rewrite (lower_not_underscore _ Hl), adjacent_cons.
    rewrite (IH Hch (has_lone_letter_tail _ _ Hlone)), orb_false_r.
    destruct (recamel s); [reflexivity|].
    unfold two_capitals. now rewrite (lower_not_upper _ Hl).
  - change (recamel ("_"%char :: s)) with (retitle false s).
    apply retitle_humps; [exact Hch | now apply has_lone_letter_tail in Hlone |].
    intros _. now apply has_lone_letter_after_underscore.
Qed.

(** X3. For every snake_case identifier [x] (words of lowercase letters
    joined by single underscores, a letter first and last, no one-letter
    word between two underscores), [snake_case (camelCase x) = x]: the type
    name that [formatLdObject] puts in camel case gives its own name back
    in the [_id]. *)
Theorem snake_case_camelCase_roundtrip (x : str) :
  is_snake_case x = true -> snake_case (camelCase x) = x.
Proof.
  unfold is_snake_case. intros H.
  apply andb_prop in H as [H Hlone]. apply andb_prop in H as [H Hlast].
  apply andb_prop in H as [H Hadj]. apply andb_prop in H as [Hhd Hch].
  apply negb_true_iff in Hlone, Hadj.
  destruct x as [|c x]; [discriminate Hhd|].
  assert (Hshape : words_in_shape (c :: x)).
  { repeat split; auto.
    rewrite (@last_default (c :: x) "a"%char "_"%char) by discriminate.
    exact Hlast. }
  rewrite camelCase_recamel, snake_case_marks.
  - now apply recamel_back.
  - now apply recamel_letters.
  - now apply recamel_humps.
  - cbn [recamel]. rewrite (lower_not_underscore _ Hhd).
    now apply lower_not_upper.
Qed.

Lemma snake_case_camelCase_roundtrip_witness :
  is_snake_case "activity_set" = true /\
  camelCase "activity_set" = "activitySet" /\
  snake_case (camelCase "activity_set") = "activity_set".
Proof.
  split; [reflexivity|]. split; [reflexivity|].
  apply snake_case_camelCase_roundtrip. reflexivity.
Defined.

(** ** Language tags *)

Lemma split_once_spec sep s :
  has_char sep s = true ->
  s = fst (split_once sep s) ++ sep :: snd (split_once sep s) /\
  has_char sep (fst (split_once sep s)) = false.
Proof.
  induction s as [|c s IH]; [discriminate|].
  unfold has_char in *. cbn [existsb split_once].
  rewrite Ascii.eqb_sym. destruct (Ascii.eqb c sep) eqn:E.
  - intros _. apply Ascii.eqb_eq in E. subst c. split; reflexivity.
  - cbn [orb]. intros H. destruct (IH H) as [Heq Hclean].
    destruct (split_once sep s) as [a b]. cbn [fst snd] in *.
    split; [now rewrite Heq at 1|].
    cbn [existsb]. now rewrite Ascii.eqb_sym, E, Hclean.
Qed.

(** What is left of a tag when its last subtag is taken off. *)
Lemma more_generic_step tag :
  has_char "-"%char tag = true ->
  exists subtag,
    tag = rev (snd (split_once "-"%char (rev tag))) ++ "-"%char :: subtag /\
    has_char "-"%char subtag = false.
Proof.
  intros H.
  assert (Hrev : has_char "-"%char (rev tag) = true).
  { apply has_char_In. apply in_rev. rewrite rev_involutive.
    now apply has_char_In. }
  destruct (split_once_spec _ _ Hrev) as [Heq Hclean].
  exists (rev (fst (split_once "-"%char (rev tag)))). split.
  - rewrite <- (rev_involutive tag) at 1. rewrite Heq at 1.
    rewrite rev_app_distr. cbn [rev]. now rewrite <- app_assoc.
  - destruct (has_char "-"%char (rev (fst (split_once "-"%char (rev tag)))))
      eqn:E; [|reflexivity].
    apply has_char_In in E. apply in_rev in E. apply has_char_In in E.
    congruence.
Qed.

Lemma last_of_nonempty A (l : list A) d d' : l <> [] -> last l d = last l d'.
Proof.
  induction l as [|a l IH]; [congruence|]. intros _.
  destruct l as [|b l]; [reflexivity|].
  change (last (a :: b :: l) d) with (last (b :: l) d).
  change (last (a :: b :: l) d') with (last (b :: l) d').
  apply IH. discriminate.
Qed.

Lemma count_occ_no_char c s :
  has_char c s = false -> count_occ ascii_dec s c = 0.
Proof.
  intros H. apply count_occ_not_In. intros Hin.
  apply has_char_In in Hin. congruence.
Qed.

Lemma count_occ_le_length c (s : str) : count_occ ascii_dec s c <= length s.
Proof.
  induction s as [|a s IH]; [auto|]. simpl.
  destruct (ascii_dec a c); lia.
Qed.

Lemma is_prefix_trans a b c :
  is_prefix a b = true -> is_prefix b c = true -> is_prefix a c = true.
Proof.
  revert b c. induction a as [|x a IH]; intros b c; [reflexivity|].
  destruct b as [|y b]; [discriminate|]. destruct c as [|z c]; [discriminate|].
  simpl. intros H1 H2.
  apply andb_prop in H1 as [Hxy H1]. apply andb_prop in H2 as [Hyz H2].
  apply Ascii.eqb_eq in Hxy, Hyz. subst.
  rewrite Ascii.eqb_refl. simpl. now apply (IH b).
Qed.

Lemma getMoreGeneric_loop_spec turns :
  forall tag,
    count_occ ascii_dec tag "-"%char <= turns ->
    length (getMoreGeneric_loop turns tag) = count_occ ascii_dec tag "-"%char /\
    (forall t, In t (getMoreGeneric_loop turns tag) -> is_prefix t tag = true) /\
    has_char "-"%char (last (getMoreGeneric_loop turns tag) tag) = false.
Proof.
  induction turns as [|turns IH]; intros tag Hturns.
  - assert (Hcount : count_occ ascii_dec tag "-"%char = 0) by lia.
    cbn [getMoreGeneric_loop length last]. split; [now rewrite Hcount|].
    split; [intros t []|].
    destruct (has_char "-"%char tag) eqn:E; [|reflexivity].
    apply has_char_In in E.
    apply (count_occ_In ascii_dec) in E. lia.
  - cbn [getMoreGeneric_loop].
    destruct (has_char "-"%char tag) eqn:E.
    + destruct (more_generic_step _ E) as (subtag & Heq & Hclean).
      remember (rev (snd (split_once "-"%char (rev tag)))) as shorter eqn:Hs.
      clear Hs.
      assert (Hcount : count_occ ascii_dec tag "-"%char
                       = S (count_occ ascii_dec shorter "-"%char)).
      { rewrite Heq. rewrite count_occ_app, count_occ_cons_eq by reflexivity.
        rewrite (count_occ_no_char _ _ Hclean). lia. }
      destruct (IH shorter) as (Hlen & Hpre & Hlast); [lia|].
      assert (Hshorter : is_prefix shorter tag = true).
      { rewrite Heq. apply is_prefix_app. }
      cbv zeta. cbn [length]. split; [lia|]. split.
      * intros t [<-|Hin]; [exact Hshorter|].
        apply (is_prefix_trans _ shorter); auto.
      * cbn [last].
        destruct (getMoreGeneric_loop turns shorter) as [|t l] eqn:El;
          [exact Hlast|].
        rewrite (@last_of_nonempty _ (t :: l) tag shorter) by discriminate.
        exact Hlast.
    + cbn [length last]. split; [now rewrite (count_occ_no_char _ _ E)|].
      split; [intros t []|exact E].
Qed.

(** X4. [getMoreGeneric] returns the tag itself first and one more tag for
    each hyphen; every returned tag is a prefix of the given tag and the
    last holds no hyphen: the [while] loop is over when the primary subtag
    is reached. *)
Theorem getMoreGeneric_spec (langTag : str) :
  hd [] (getMoreGeneric langTag) = langTag /\
  length (getMoreGeneric langTag)
  = S (count_occ ascii_dec langTag "-"%char) /\
  (forall t, In t (getMoreGeneric langTag) -> is_prefix t langTag = true) /\
  has_char "-"%char (last (getMoreGeneric langTag) []) = false.
Proof.
  unfold getMoreGeneric.
  destruct (@getMoreGeneric_loop_spec (length langTag) langTag)
    as (Hlen & Hpre & Hlast); [apply count_occ_le_length|].
  split; [reflexivity|]. split; [cbn [length]; now rewrite Hlen|]. split.
  - intros t [<-|Hin]; [apply is_prefix_refl | now apply Hpre].
  - cbn [last].
    destruct (getMoreGeneric_loop (length langTag) langTag) as [|t l] eqn:El;
      [exact Hlast|].
    rewrite (@last_of_nonempty _ (t :: l) [] langTag) by discriminate.
    exact Hlast.
Qed.

(** *** The longest matching key *)

Lemma to_lower_idem c : to_lower (to_lower c) = to_lower c.
Proof. apply to_lower_id, to_lower_not_upper. Qed.

Lemma lower_idem s : lower (lower s) = lower s.
Proof.
  unfold lower. rewrite map_map. apply map_ext. intros c. apply to_lower_idem.
Qed.

Lemma lower_length s : length (lower s) = length s.
Proof. apply length_map. Qed.

Lemma dict_has_keys V (d : dict V) k : dict_has d k = true <-> In k (dict_keys d).
Proof.
  unfold dict_has, dict_keys. induction d as [|[k' v] d IH]; simpl.
  - split; [discriminate | intros []].
  - destruct (str_eqb k' k) eqn:E.
    + apply str_eqb_eq in E. subst. split; auto.
    + apply str_eqb_neq in E. rewrite IH. split; [auto|].
      intros [H|H]; [congruence | exact H].
Qed.

Lemma dict_set_fresh V (d : dict V) k v :
  ~ In k (dict_keys d) -> dict_set d k v = d ++ [(k, v)].
Proof.
  unfold dict_keys. induction d as [|[k' v'] d IH]; simpl; [reflexivity|].
  intros H. destruct (str_eqb k' k) eqn:E.
  - apply str_eqb_eq in E. subst. exfalso. auto.
  - now rewrite IH by auto.
Qed.

Lemma dict_keys_set V (d : dict V) k v :
  dict_keys (dict_set d k v)
  = if dict_has d k then dict_keys d else dict_keys d ++ [k].
Proof.
  unfold dict_has, dict_keys. induction d as [|[k' v'] d IH]; simpl; [reflexivity|].
  destruct (str_eqb k' k) eqn:E; simpl; [reflexivity|].
  rewrite IH. now destruct (dict_get d k).
Qed.

Lemma lowercase_keys_set d k v :
  lowercase_keys d -> lowercase_keys (dict_set d (lower k) v).
Proof.
  intros [Hnd Hlow]. unfold lowercase_keys. rewrite dict_keys_set.
  destruct (dict_has d (lower k)) eqn:E; [now split|]. split.
  - apply NoDup_app; [exact Hnd | repeat constructor; intros [] |].
    intros x Hx [<-|[]].
    apply dict_has_keys in Hx. congruence.
  - intros x Hx. apply in_app_or in Hx as [Hx|[<-|[]]]; [now apply Hlow|].
    apply lower_idem.
Qed.

Lemma lower_keys_loop_lowercase o :
  forall acc,
    lowercase_keys acc ->
    lowercase_keys
      (fold_left (fun (acc : dict JSON) (kv : str * JSON) =>
                    dict_set acc (lower (fst kv)) (snd kv)) o acc).
Proof.
  induction o as [|[k v] o IH]; intros acc Hacc; [exact Hacc|].
  simpl. apply IH. now apply lowercase_keys_set.
Qed.

Lemma lower_keys_lowercase o : lowercase_keys (lower_keys o).
Proof.
  apply lower_keys_loop_lowercase. split; [constructor | intros k []].
Qed.

Lemma lower_keys_loop_rebuilds d :
  forall acc,
    NoDup (dict_keys acc ++ dict_keys d) ->
    (forall k, In k (dict_keys d) -> lower k = k) ->
    fold_left (fun (acc : dict JSON) (kv : str * JSON) =>
                 dict_set acc (lower (fst kv)) (snd kv)) d acc
    = acc ++ d.
Proof.
  induction d as [|[k v] d IH]; intros acc Hnd Hlow.
  - now rewrite app_nil_r.
  - simpl. rewrite (Hlow k) by now left.
    assert (Hfresh : ~ In k (dict_keys acc)).
    { intros Hin. apply NoDup_remove_2 in Hnd. apply Hnd.
      apply in_or_app. now left. }
    rewrite dict_set_fresh by exact Hfresh.
    rewrite IH.
    + now rewrite <- app_assoc.
    + unfold dict_keys in *. rewrite map_app. simpl.
      rewrite <- app_assoc. exact Hnd.
    + intros k0 Hk0. apply Hlow. now right.
Qed.

(** Lowering the keys a second time changes nothing. *)
Lemma lower_keys_idem o : lower_keys (lower_keys o) = lower_keys o.
Proof.
  destruct (lower_keys_lowercase o) as [Hnd Hlow].
  unfold lower_keys at 1. now rewrite lower_keys_loop_rebuilds.
Qed.

Lemma longest_none l : longest l = None -> l = [].
Proof.
  destruct l as [|x l]; [reflexivity|]. simpl.
  destruct (longest l) as [y|]; [|discriminate].
  destruct (Nat.ltb (length x) (length y)); discriminate.
Qed.

Lemma longest_spec l key :
  longest l = Some key ->
  In key l /\ forall x, In x l -> length x <= length key.
Proof.
  revert key. induction l as [|x l IH]; intros key; [discriminate|]. simpl.
  destruct (longest l) as [y|] eqn:E.
  - destruct (IH y eq_refl) as [Hin Hmax].
    destruct (Nat.ltb (length x) (length y)) eqn:Hlt; intros H; inversion H; subst.
    + apply Nat.ltb_lt in Hlt. split; [now right|].
      intros z [<-|Hz]; [lia | now apply Hmax].
    + apply Nat.ltb_ge in Hlt. split; [now left|].
      intros z [<-|Hz]; [lia|]. specialize (Hmax z Hz). lia.
  - apply longest_none in E. subst l. intros H; inversion H; subst.
    split; [now left|]. intros z [<-|[]]. lia.
Qed.

Lemma remove_str_In x y l : In x (remove_str y l) -> In x l.
Proof.
  induction l as [|z l IH]; simpl; [auto|].
  destruct (str_eqb z y); [auto|]. intros [H|H]; auto.
Qed.

Lemma remove_str_keeps x y l : In x l -> x <> y -> In x (remove_str y l).
Proof.
  induction l as [|z l IH]; simpl; [auto|]. intros [->|H] Hne.
  - destruct (str_eqb x y) eqn:E; [|now left].
    apply str_eqb_eq in E. congruence.
  - destruct (str_eqb z y); [exact H|]. right. now apply IH.
Qed.

Lemma remove_str_length y l :
  In y l -> S (length (remove_str y l)) = length l.
Proof.
  induction l as [|z l IH]; simpl; [intros []|].
  destruct (str_eqb z y) eqn:E; [reflexivity|].
  intros [H|H]; [apply str_eqb_neq in E; congruence|].
  simpl. now rewrite IH.
Qed.

Lemma nonempty_length s : nonempty s = true <-> 0 < length s.
Proof. destruct s; simpl; split; auto; try lia; discriminate. Qed.

(** One turn of [getFromLongestMatchingKey], case-insensitive. *)
Lemma getFromLongestMatchingKey_step fuel object listOfKeys key :
  longest (map lower listOfKeys) = Some key ->
  nonempty key = true ->
  getFromLongestMatchingKey (S fuel) object listOfKeys true
  = (default <- getFromLongestMatchingKey fuel (lower_keys object)
                  (remove_str key (map lower listOfKeys)) true ;;
     Ok (match dict_get (lower_keys object) key with
         | Some v => v
         | None => default
         end)).
Proof.
  intros Hkey Hne. cbn [getFromLongestMatchingKey]. rewrite Hkey, Hne.
  destruct (longest_spec _ Hkey) as [Hin _].
  apply str_in_In in Hin. now rewrite Hin.
Qed.

(** The recursion ends, and without an exception. *)
Lemma getFromLongestMatchingKey_returns fuel :
  forall object listOfKeys,
    length listOfKeys < fuel ->
    exists r, getFromLongestMatchingKey fuel object listOfKeys true = Ok r.
Proof.
  induction fuel as [|fuel IH]; intros object listOfKeys Hfuel; [lia|].
  destruct (longest (map lower listOfKeys)) as [key|] eqn:Hkey.
  - destruct (nonempty key) eqn:Hne.
    + rewrite (getFromLongestMatchingKey_step _ _ _ Hkey Hne).
      destruct (longest_spec _ Hkey) as [Hin _].
      pose proof (remove_str_length _ _ Hin) as Hlen.
      rewrite length_map in Hlen.
      destruct (IH (lower_keys object) (remove_str key (map lower listOfKeys)))
        as [r Hr]; [lia|].
      rewrite Hr. cbn [bind]. eauto.
    + cbn [getFromLongestMatchingKey]. rewrite Hkey, Hne. eauto.
  - cbn [getFromLongestMatchingKey]. rewrite Hkey. eauto.
Qed.

(** X5. When none of the candidate keys is, case-insensitively, a key of
    the object, [getFromLongestMatchingKey] returns [None]; the recursion
    needs no more turns than there are candidates. *)
Theorem getFromLongestMatchingKey_no_match fuel :
  forall object listOfKeys,
    length listOfKeys < fuel ->
    (forall k, In k listOfKeys ->
               dict_get (lower_keys object) (lower k) = None) ->
    getFromLongestMatchingKey fuel object listOfKeys true = Ok JNull.
Proof.
  induction fuel as [|fuel IH]; intros object listOfKeys Hfuel Habsent; [lia|].
  destruct (longest (map lower listOfKeys)) as [key|] eqn:Hkey.
  - destruct (nonempty key) eqn:Hne.
    + rewrite (getFromLongestMatchingKey_step _ _ _ Hkey Hne).
      destruct (longest_spec _ Hkey) as [Hin _].
      pose proof (remove_str_length _ _ Hin) as Hlen.
      rewrite length_map in Hlen.
      rewrite IH.
      * cbn [bind]. apply in_map_iff in Hin as (k & <- & Hk).
        now rewrite (Habsent k Hk).
      * lia.
      * intros k Hk. apply remove_str_In in Hk.
        apply in_map_iff in Hk as (k0 & <- & Hk0).
        rewrite lower_keys_idem, lower_idem. now apply Habsent.
    + cbn [getFromLongestMatchingKey]. now rewrite Hkey, Hne.
  - cbn [getFromLongestMatchingKey]. now rewrite Hkey.
Qed.

Lemma getFromLongestMatchingKey_no_match_witness :
  getFromLongestMatchingKey 3 languages ["de" : str; "@de" : str] true = Ok JNull.
Proof.
  apply getFromLongestMatchingKey_no_match; [simpl; lia|].
  intros k [<-|[<-|[]]]; reflexivity.
Defined.

Lemma longest_matching_key_wins fuel :
  forall object listOfKeys k v,
    length listOfKeys < fuel ->
    In k listOfKeys ->
    nonempty k = true ->
    dict_get (lower_keys object) (lower k) = Some v ->
    (forall k', In k' listOfKeys -> length k <= length k' ->
                lower k' = lower k \/
                dict_get (lower_keys object) (lower k') = None) ->
    getFromLongestMatchingKey fuel object listOfKeys true = Ok v.
Proof.
  induction fuel as [|fuel IH];
    intros object listOfKeys k v Hfuel Hk Hne Hv Hlonger; [lia|].
  assert (Hklow : In (lower k) (map lower listOfKeys)) by now apply in_map.
  destruct (longest (map lower listOfKeys)) as [key|] eqn:Hkey;
    [|apply longest_none in Hkey; rewrite Hkey in Hklow; destruct Hklow].
  destruct (longest_spec _ Hkey) as [Hin Hmax].
  assert (Hlen : length k <= length key).
  { rewrite <- (lower_length k). now apply Hmax. }
  assert (Hkeyne : nonempty key = true).
  { apply nonempty_length. apply nonempty_length in Hne. lia. }
  rewrite (getFromLongestMatchingKey_step _ _ _ Hkey Hkeyne).
  pose proof (remove_str_length _ _ Hin) as Hrem. rewrite length_map in Hrem.
  destruct (dict_get (lower_keys object) key) as [v'|] eqn:Hget.
  - destruct (getFromLongestMatchingKey_returns
                (fuel := fuel) (lower_keys object)
                (remove_str key (map lower listOfKeys))) as [r Hr]; [lia|].
    rewrite Hr. cbn [bind]. f_equal.
    apply in_map_iff in Hin as (k0 & Hk0 & Hin0).
    destruct (Hlonger k0 Hin0) as [Hsame|Habsent].
    + rewrite <- (lower_length k0), Hk0. exact Hlen.
    + rewrite Hk0 in Hsame. rewrite Hsame in Hget. congruence.
    + rewrite Hk0 in Habsent. congruence.
  - rewrite (IH (lower_keys object) (remove_str key (map lower listOfKeys))
               (lower k) v); [reflexivity|lia| | | |].
    + apply remove_str_keeps; [exact Hklow|]. intros Heq. congruence.
    + apply nonempty_length. rewrite lower_length. now apply nonempty_length.
    + now rewrite lower_keys_idem, lower_idem.
    + intros k' Hk' Hlen'. apply remove_str_In in Hk'.
      apply in_map_iff in Hk' as (k0 & <- & Hk0).
      rewrite lower_keys_idem, !lower_idem.
      apply Hlonger; [exact Hk0|].
      rewrite !lower_length in Hlen'. exact Hlen'.
Qed.



(** *** Tags are matched whatever their case *)

Lemma to_lower_hyphen c :
  Ascii.eqb (to_lower c) "-"%char = Ascii.eqb c "-"%char.
Proof. all_chars c. Qed.

Lemma has_hyphen_lower s : has_char "-"%char (lower s) = has_char "-"%char s.
Proof.
  unfold has_char, lower. induction s as [|c s IH]; [reflexivity|].
  cbn [map existsb]. rewrite IH. f_equal.
  rewrite Ascii.eqb_sym, to_lower_hyphen. apply Ascii.eqb_sym.
Qed.

Lemma split_once_lower s :
  split_once "-"%char (lower s)
  = (lower (fst (split_once "-"%char s)), lower (snd (split_once "-"%char s))).
Proof.
  induction s as [|c s IH]; [reflexivity|].
  unfold lower in *. cbn [map split_once]. rewrite to_lower_hyphen.
  destruct (Ascii.eqb c "-"%char); [reflexivity|].
  rewrite IH. now destruct (split_once "-"%char s).
Qed.

Lemma rev_lower s : rev (lower s) = lower (rev s).
Proof. unfold lower. symmetry. apply map_rev. Qed.

Lemma getMoreGeneric_loop_lower turns :
  forall tag,
    getMoreGeneric_loop turns (lower tag)
    = map lower (getMoreGeneric_loop turns tag).
Proof.
  induction turns as [|turns IH]; intros tag; [reflexivity|].
  cbn [getMoreGeneric_loop]. rewrite has_hyphen_lower.
  destruct (has_char "-"%char tag); [|reflexivity].
  cbv zeta. rewrite rev_lower, split_once_lower. cbn [snd].
  rewrite rev_lower. cbn [map]. now rewrite IH.
Qed.

Lemma getMoreGeneric_lower tag :
  getMoreGeneric (lower tag) = map lower (getMoreGeneric tag).
Proof.
  unfold getMoreGeneric. cbn [map].
  now rewrite lower_length, getMoreGeneric_loop_lower.
Qed.

Lemma insert_sorted_map A (key : A -> nat) reverse (f : A -> A) x l :
  (forall y, key (f y) = key y) ->
  insert_sorted key reverse (f x) (map f l)
  = map f (insert_sorted key reverse x l).
Proof.
  intros Hkey. induction l as [|y l IH]; [reflexivity|].
  cbn [map insert_sorted]. unfold goes_first. rewrite !Hkey.
  destruct (if reverse then Nat.leb (key y) (key x) else Nat.leb (key x) (key y));
    [reflexivity|].
  cbn [map]. now rewrite IH.
Qed.

Lemma sorted_map A (key : A -> nat) reverse (f : A -> A) l :
  (forall y, key (f y) = key y) ->
  sorted key reverse (map f l) = map f (sorted key reverse l).
Proof.
  intros Hkey. induction l as [|x l IH]; [reflexivity|].
  cbn [map sorted fold_right]. fold (sorted key reverse (map f l)).
  fold (sorted key reverse l). rewrite IH. now apply insert_sorted_map.
Qed.

Lemma map_lower_idem l : map lower (map lower l) = map lower l.
Proof. rewrite map_map. apply map_ext. intros s. apply lower_idem. Qed.

Lemma getFromLongestMatchingKey_lowered fuel object listOfKeys :
  getFromLongestMatchingKey fuel object (map lower listOfKeys) true
  = getFromLongestMatchingKey fuel object listOfKeys true.
Proof.
  destruct fuel; [reflexivity|]. cbn [getFromLongestMatchingKey].
  now rewrite map_lower_idem.
Qed.

Lemma getFromLongestMatchingValue_lowered fuel objectList listOfValues keyToMatch :
  getFromLongestMatchingValue fuel objectList (map lower listOfValues)
                              keyToMatch true
  = getFromLongestMatchingValue fuel objectList listOfValues keyToMatch true.
Proof.
  destruct fuel; [reflexivity|]. cbn [getFromLongestMatchingValue].
  now rewrite map_lower_idem.
Qed.

(** X7. [getByLanguage] matches a language tag whatever its case: the tag
    in lowercase gives the same result, for every object. *)
Theorem getByLanguage_tag_case default_language fuel object (tag : str) :
  getByLanguage default_language fuel object (JStr (lower tag))
  = getByLanguage default_language fuel object (JStr tag).
Proof.
  unfold getByLanguage.
  replace (truthy (JStr (lower tag))) with (truthy (JStr tag))
    by (now destruct tag).
  destruct (negb (truthy (JStr tag))); [reflexivity|]. cbn [bind].
  assert (Htags :
    sorted (@length ascii) true
           (getMoreGeneric (lower tag)
              ++ map (fun t => "@"%char :: t) (getMoreGeneric (lower tag)))
    = map lower
          (sorted (@length ascii) true
                  (getMoreGeneric tag
                     ++ map (fun t => "@"%char :: t) (getMoreGeneric tag)))).
  { rewrite getMoreGeneric_lower.
    rewrite <- (sorted_map _ _ lower) by apply lower_length.
    f_equal. rewrite map_app. f_equal. rewrite !map_map. reflexivity. }
  cbv zeta. rewrite Htags.
  destruct object; try reflexivity.
  - now rewrite getFromLongestMatchingValue_lowered.
  - now rewrite getFromLongestMatchingKey_lowered.
Qed.

(** *** The element with the longest matching value *)

Lemma first_match_In test l x : first_match test l = Ok (Some x) -> In x l.
Proof.
  induction l as [|y l IH]; simpl; [discriminate|].
  destruct (test y) as [[|]| |]; simpl; try discriminate.
  - intros H; inversion H; subst. now left.
  - intros H. right. now apply IH.
Qed.

Lemma insert_sorted_In A (key : A -> nat) reverse x y l :
  In y (insert_sorted key reverse x l) -> y = x \/ In y l.
Proof.
  induction l as [|z l IH]; simpl.
  - intros [H|[]]; auto.
  - destruct (goes_first key reverse x z); simpl.
    + intros [H|H]; auto.
    + intros [H|H]; [auto|]. destruct (IH H); auto.
Qed.

Lemma sorted_In A (key : A -> nat) reverse y l :
  In y (sorted key reverse l) -> In y l.
Proof.
  induction l as [|x l IH]; simpl; [auto|]. intros H.
  apply insert_sorted_In in H as [->|H]; auto.
Qed.

Lemma keyed_elements keyToMatch objectList (keyed : list (nat * JSON)) :
  map_outcome
    (fun i => t <- py_get i keyToMatch (JStr "") ;;
              n <- py_len t ;; Ok (n, i)) objectList = Ok keyed ->
  map snd keyed = objectList.
Proof.
  revert keyed. induction objectList as [|i l IH]; intros keyed; simpl.
  - intros H; now inversion H.
  - destruct (py_get i keyToMatch _) as [t| |]; simpl; try discriminate.
    destruct (py_len t) as [n| |]; simpl; try discriminate.
    destruct (map_outcome _ l) as [ks| |]; simpl; try discriminate.
    intros H; inversion H; subst. simpl. f_equal. now apply IH.
Qed.

(** X8. What [getFromLongestMatchingValue] returns is one of the objects of
    the list or the empty dict, never anything else. *)
Theorem getFromLongestMatchingValue_result fuel :
  forall objectList listOfValues keyToMatch caseInsensitive r,
    getFromLongestMatchingValue fuel objectList listOfValues keyToMatch
                                caseInsensitive = Ok r ->
    In r objectList \/ r = JDict [].
Proof.
  induction fuel as [|fuel IH];
    intros objectList listOfValues keyToMatch caseInsensitive r; [discriminate|].
  cbn [getFromLongestMatchingValue]. cbv zeta.
  destruct (map_outcome _ objectList) as [keyed| |] eqn:Ekeyed;
    cbn [bind]; try discriminate.
  apply keyed_elements in Ekeyed.
  assert (Hfound : forall reverse test x,
             first_match test (map snd (sorted fst reverse keyed)) = Ok (Some x) ->
             In x objectList).
  { intros reverse test x Hx. apply first_match_In in Hx.
    rewrite <- Ekeyed.
    apply in_map_iff in Hx as (p & <- & Hp). apply in_map.
    now apply sorted_In in Hp. }
  destruct (first_match _ (map snd (sorted fst true keyed)))
    as [[x|]| |] eqn:E1; cbn [bind]; try discriminate.
  - intros H; inversion H; subst. left. now apply (Hfound _ _ _ E1).
  - match goal with
    | |- context [if ?c then _ else _] => destruct c
    end.
    + apply IH.
    + destruct (first_match _ (map snd (sorted fst false keyed)))
        as [[x|]| |] eqn:E2; cbn [bind]; try discriminate.
      * intros H; inversion H; subst. left. now apply (Hfound _ _ _ E2).
      * intros H; inversion H; subst. now right.
Qed.

Lemma getFromLongestMatchingValue_result_witness :
  In (JDict [("@language" : str, JStr "en"); ("@value" : str, JStr "Hi")])
     [JDict [("@language" : str, JStr "fr"); ("@value" : str, JStr "Salut")];
      JDict [("@language" : str, JStr "en"); ("@value" : str, JStr "Hi")]]
  \/ JDict [("@language" : str, JStr "en"); ("@value" : str, JStr "Hi")]
     = JDict [].
Proof.
  apply (@getFromLongestMatchingValue_result
           4 _ ["en-gb" : str; "en" : str] "@language" true).
  vm_compute. reflexivity.
Defined.

(** ** [expand]: the path of the unreachable context *)

Section ExpandRecovery.

Variable jsonld_expand : JSON -> expansion.

(** X9. [expand] never retries twice: the retry runs on an object whose
    [@context] is [None], so when the expansion of that object fails on an
    unreachable context again, the call raises [AttributeError]. *)
Theorem expand_second_context_error fuel keep d l cause cause' :
  jsonld_expand (JDict d) = JsonLdError (Some cause) ->
  cause_type cause = "jsonld.ContextUrlError" ->
  dict_get d "@context" = Some (JList l) ->
  existsb (fun e => py_eq e (cause_url cause)) l = true ->
  jsonld_expand (JDict (dict_set d "@context" JNull))
  = JsonLdError (Some cause') ->
  cause_type cause' = "jsonld.ContextUrlError" ->
  expand jsonld_expand (S (S fuel)) (JDict d) keep = Raise AttributeError.
Proof.
  intros Herr Hty Hctx Hin Herr' Hty'.
  cbn [expand]. rewrite Herr, Hty, str_eqb_refl.
  unfold drop_invalid_context at 1, list_remove. rewrite Hctx, Hin.
  cbn [bind]. rewrite Herr', Hty', str_eqb_refl.
  unfold drop_invalid_context. now rewrite dict_get_set_same.
Qed.

(** X10. The recovery only works on a list: when the expansion of a dict
    fails on an unreachable context and its [@context] is there but is not
    a list (a single address, a dict), [expand] raises [AttributeError];
    when the dict has no [@context], or a list that does not hold the
    address, it raises [ValueError]. *)
Theorem expand_context_error_without_list fuel keep d cause :
  jsonld_expand (JDict d) = JsonLdError (Some cause) ->
  cause_type cause = "jsonld.ContextUrlError" ->
  (forall c, dict_get d "@context" = Some c ->
             (forall l, c <> JList l) ->
             expand jsonld_expand (S fuel) (JDict d) keep
             = Raise AttributeError) /\
  (dict_get d "@context" = None ->
   expand jsonld_expand (S fuel) (JDict d) keep = Raise ValueError) /\
  (forall l, dict_get d "@context" = Some (JList l) ->
             existsb (fun e => py_eq e (cause_url cause)) l = false ->
             expand jsonld_expand (S fuel) (JDict d) keep = Raise ValueError).
Proof.
  intros Herr Hty.
  assert (Hstep : expand jsonld_expand (S fuel) (JDict d) keep
                  = (obj' <- drop_invalid_context (JDict d) (cause_url cause) ;;
                     expand jsonld_expand fuel obj' keep)).
  { cbn [expand]. now rewrite Herr, Hty, str_eqb_refl. }
  rewrite Hstep. unfold drop_invalid_context, list_remove.
  split; [|split].
  - intros c Hc Hnl. rewrite Hc.
    destruct c; try reflexivity. now destruct (Hnl l).
  - intros Hc. now rewrite Hc.
  - intros l Hc Hnot. now rewrite Hc, Hnot.
Qed.

(** X11. When the expansion call succeeds, [expand] returns [None] or a
    truthy value: never an empty dict, an empty list or another falsy
    value. *)
Theorem expand_success_not_falsy fuel obj keep newObj r :
  jsonld_expand obj = Expanded newObj ->
  expand jsonld_expand fuel obj keep = Ok r ->
  r = JNull \/ truthy r = true.
Proof.
  intros Hexp. destruct fuel as [|fuel]; [discriminate|].
  destruct obj as [| b | n | s | l | d];
    try (cbn [expand]; intros H; inversion H; now left);
    cbn [expand]; rewrite Hexp;
    (destruct (match newObj with [x] => x | _ => JList newObj end)
       as [| b' | n' | s' | l' | d'];
     cbv zeta;
     match goal with
     | |- context [for_each ?f ?ks ?st] =>
         destruct (for_each f ks st) as [final| |]
     | |- context [py_iter ?v] =>
         destruct (py_iter v) as [elements| |]; cbn [bind];
         try discriminate;
         match goal with
         | |- context [map_outcome ?f ?es] =>
             destruct (map_outcome f es) as [expanded| |]
         end
     end;
     cbn [bind]; try discriminate;
     match goal with
     | |- Ok (if truthy ?v then _ else _) = Ok r -> _ =>
         destruct (truthy v) eqn:Ev; intros H; inversion H; subst; auto
     end).
Qed.

End ExpandRecovery.

Lemma expand_second_context_error_witness :
  expand (always_unreachable (JStr "https://unreachable.example/context"))
         2 (JDict item_with_contexts) false
  = Raise AttributeError.
Proof.
  apply (@expand_second_context_error
           (always_unreachable (JStr "https://unreachable.example/context"))
           0 false item_with_contexts
           [JStr "https://unreachable.example/context"; JStr "https://schema.org"]
           {| cause_type := "jsonld.ContextUrlError";
              cause_url := JStr "https://unreachable.example/context" |}
           {| cause_type := "jsonld.ContextUrlError";
              cause_url := JStr "https://unreachable.example/context" |});
    reflexivity.
Defined.

Lemma expand_context_error_without_list_witness :
  expand (always_unreachable (JStr "https://unreachable.example/context"))
         1 (JDict item_with_one_context) false
  = Raise AttributeError.
Proof.
  destruct (@expand_context_error_without_list
              (always_unreachable (JStr "https://unreachable.example/context"))
              0 false item_with_one_context
              {| cause_type := "jsonld.ContextUrlError";
                 cause_url := JStr "https://unreachable.example/context" |}
              eq_refl eq_refl) as [H _].
  apply (H (JStr "https://unreachable.example/context") eq_refl).
  intros l. discriminate.
Defined.

Lemma expand_success_not_falsy_witness :
  JNull = JNull \/ truthy JNull = true.
Proof.
  apply (@expand_success_not_falsy (fun _ => Expanded []) 1 (JDict []) false
                                   [] JNull eq_refl eq_refl).
Defined.

(** ** [contextualize] *)

Lemma context_add_not_list c context :
  (forall l, context <> JList l) -> context_add c context = Raise TypeError.
Proof. intros H. destruct context; try reflexivity. now destruct (H l). Qed.

Lemma deeper_not_list c sub :
  (forall l, c <> JList l) ->
  forall acc,
    (has_dotted_dict_key sub = true ->
     for_each deeper_step sub (c, acc) = Raise TypeError) /\
    (has_dotted_dict_key sub = false ->
     exists o, for_each deeper_step sub (c, acc) = Ok (c, o)).
Proof.
  intros Hc. unfold has_dotted_dict_key.
  induction sub as [|[k v] sub IH]; intros acc.
  - split; [discriminate|]. intros _. now exists acc.
  - cbn [for_each existsb fst snd].
    destruct (is_dict v && has_char "."%char k) eqn:E.
    + split; [|discriminate]. intros _.
      destruct (_createContextForStr k) as [c0 o0].
      now rewrite context_add_not_list.
    + cbn [bind orb]. apply IH.
Qed.

Lemma top_not_list c d :
  (forall l, c <> JList l) ->
  forall acc,
    dotted_below d = true ->
    for_each top_step d (c, acc) = Raise TypeError.
Proof.
  intros Hc. unfold dotted_below.
  induction d as [|[k v] d IH]; intros acc; [discriminate|].
  cbn [for_each existsb fst snd].
  destruct v as [| | | | |sub]; cbn [bind orb]; try apply IH.
  unfold _deeperContextualize.
  destruct (deeper_not_list sub Hc []) as [Hyes Hno].
  destruct (has_dotted_dict_key sub) eqn:E.
  - intros _. now rewrite Hyes.
  - destruct (Hno eq_refl) as [o Ho]. rewrite Ho. cbn [bind orb]. apply IH.
Qed.

(** X12. When the [@context] of the input is there and is not a list (a
    single address, a dict, [None]) and the dict of a top-level key has a
    dotted key with a dict value, [contextualize] raises [TypeError]. *)
Theorem contextualize_context_not_list d c k1 sub k v :
  dict_get d "@context" = Some c ->
  (forall l, c <> JList l) ->
  In (k1, JDict sub) d ->
  In (k, JDict v) sub ->
  has_char "."%char k = true ->
  contextualize (JDict d) = Raise TypeError.
Proof.
  intros Hctx Hc Hin Hk Hdot. unfold contextualize. cbv zeta. rewrite Hctx.
  rewrite top_not_list; auto.
  unfold dotted_below. apply existsb_exists. exists (k1, JDict sub).
  split; [exact Hin|]. cbn [snd].
  apply existsb_exists. exists (k, JDict v). split; [exact Hk|]. exact Hdot.
Qed.

Lemma contextualize_context_not_list_witness :
  contextualize
    (JDict (("@context" : str, JStr "https://schema.org")
              :: activity_with_dotted_key))
  = Raise TypeError.
Proof.
  apply (@contextualize_context_not_list
           (("@context" : str, JStr "https://schema.org")
              :: activity_with_dotted_key)
           (JStr "https://schema.org") "ui"
           [("https://schema.repronim.org/order.json" : str,
             JDict [("@id" : str, JStr "order")])]
           "https://schema.repronim.org/order.json"
           [("@id" : str, JStr "order")]).
  - reflexivity.
  - intros l. discriminate.
  - right. right. now left.
  - now left.
  - reflexivity.
Defined.

Lemma NoDup_keys_set V (d : dict V) k v :
  NoDup (dict_keys d) -> NoDup (dict_keys (dict_set d k v)).
Proof.
  intros Hnd. rewrite dict_keys_set.
  destruct (dict_has d k) eqn:E; [exact Hnd|].
  apply NoDup_app; [exact Hnd | repeat constructor; intros [] |].
  intros x Hx [<-|[]]. apply dict_has_keys in Hx. congruence.
Qed.

Lemma dict_set_same V (d : dict V) k v :
  dict_get d k = Some v -> dict_set d k v = d.
Proof.
  induction d as [|[k0 v0] d IH]; [discriminate|]. simpl.
  destruct (str_eqb k0 k) eqn:E.
  - intros H. inversion H. reflexivity.
  - intros H. now rewrite IH.
Qed.

Lemma dict_get_NoDup V (d : dict V) k v :
  NoDup (dict_keys d) -> In (k, v) d -> dict_get d k = Some v.
Proof.
  induction d as [|[k0 v0] d IH]; intros Hnd Hin; [destruct Hin|].
  simpl in Hnd. inversion Hnd as [|? ? Hnot Hnd']; subst. simpl.
  destruct Hin as [Heq|Hin].
  - inversion Heq; subst. now rewrite str_eqb_refl.
  - destruct (str_eqb k0 k) eqn:E.
    + apply str_eqb_eq in E. subst k0. exfalso. apply Hnot.
      apply (in_map fst) in Hin. exact Hin.
    + now apply IH.
Qed.

Lemma deeper_keys sub :
  forall ctx acc ctx' o,
    for_each deeper_step sub (ctx, acc) = Ok (ctx', o) ->
    NoDup (dict_keys acc) -> NoDup (dict_keys o).
Proof.
  induction sub as [|[k v] sub IH]; intros ctx acc ctx' o Hrun Hnd.
  - inversion Hrun; now subst.
  - cbn [for_each] in Hrun.
    destruct (is_dict v && has_char "."%char k).
    + destruct (_createContextForStr k) as [c0 o0].
      destruct (context_add c0 ctx) as [ctx1| |]; try discriminate.
      cbn [bind] in Hrun. eapply IH; eauto using NoDup_keys_set.
    + cbn [bind] in Hrun. eapply IH; eauto using NoDup_keys_set.
Qed.

Lemma top_keys d :
  forall ctx acc ctx' o,
    for_each top_step d (ctx, acc) = Ok (ctx', o) ->
    NoDup (dict_keys acc) ->
    (forall k sub, In (k, JDict sub) acc -> NoDup (dict_keys sub)) ->
    NoDup (dict_keys o) /\
    (forall k sub, In (k, JDict sub) o -> NoDup (dict_keys sub)).
Proof.
  induction d as [|[k v] d IH]; intros ctx acc ctx' o Hrun Hnd Hsub.
  - inversion Hrun; subst. now split.
  - cbn [for_each] in Hrun.
    assert (Hplain : forall v0, is_dict v0 = false ->
              for_each top_step d (ctx, dict_set acc k v0) = Ok (ctx', o) ->
              NoDup (dict_keys o) /\
              (forall k sub, In (k, JDict sub) o -> NoDup (dict_keys sub))).
    { intros v0 Hv0 Hrun0. eapply IH; eauto using NoDup_keys_set.
      intros k0 sub Hin. apply dict_set_in in Hin as [Heq|Hin].
      - inversion Heq; subst. discriminate.
      - now apply (Hsub k0). }
    destruct v as [| | | | |dv]; cbn [bind] in Hrun;
      try (eapply Hplain; [|exact Hrun]; reflexivity).
    clear Hplain.
    destruct (_deeperContextualize dv ctx) as [[ctx1 o1]| |] eqn:E;
      try discriminate.
    cbn [bind] in Hrun. unfold _deeperContextualize in E.
    apply deeper_keys in E; [|constructor].
    eapply IH; eauto using NoDup_keys_set.
    intros k0 sub Hin. apply dict_set_in in Hin as [Heq|Hin].
    + inversion Heq; subst. exact E.
    + now apply (Hsub k0).
Qed.

Lemma deeper_rebuild ctx o :
  forall acc,
    undotted_dict_keys o -> NoDup (dict_keys (acc ++ o)) ->
    for_each deeper_step o (ctx, acc) = Ok (ctx, acc ++ o).
Proof.
  induction o as [|[k v] o IH]; intros acc Hun Hnd.
  - now rewrite app_nil_r.
  - cbn [for_each].
    assert (E : is_dict v && has_char "."%char k = false).
    { destruct v as [| | | | |dv]; try reflexivity.
      cbn [is_dict andb]. apply (Hun k dv). now left. }
    rewrite E. cbn [bind].
    rewrite dict_set_fresh.
    2:{ unfold dict_keys in Hnd. rewrite map_app in Hnd. cbn [map fst] in Hnd.
        apply NoDup_remove_2 in Hnd. intros Hin. apply Hnd.
        apply in_or_app. now left. }
    replace (acc ++ (k, v) :: o) with ((acc ++ [(k, v)]) ++ o)
      by (now rewrite <- app_assoc).
    apply IH.
    + intros k0 v0 Hin. apply (Hun k0 v0). now right.
    + now rewrite <- app_assoc.
Qed.

Lemma top_rebuild ctx r :
  forall acc,
    (forall k sub, In (k, JDict sub) r ->
                   NoDup (dict_keys sub) /\ undotted_dict_keys sub) ->
    NoDup (dict_keys (acc ++ r)) ->
    for_each top_step r (ctx, acc) = Ok (ctx, acc ++ r).
Proof.
  induction r as [|[k v] r IH]; intros acc Hsub Hnd.
  - now rewrite app_nil_r.
  - cbn [for_each].
    assert (Hfresh : forall v0, dict_set acc k v0 = acc ++ [(k, v0)]).
    { intros v0. apply dict_set_fresh.
      unfold dict_keys in Hnd. rewrite map_app in Hnd. cbn [map fst] in Hnd.
      apply NoDup_remove_2 in Hnd. intros Hin. apply Hnd.
      apply in_or_app. now left. }
    assert (Hrest : for_each top_step r (ctx, acc ++ [(k, v)])
                    = Ok (ctx, acc ++ (k, v) :: r)).
    { replace (acc ++ (k, v) :: r) with ((acc ++ [(k, v)]) ++ r)
        by (now rewrite <- app_assoc).
      apply IH.
      - intros k0 sub Hin. apply (Hsub k0 sub). now right.
      - now rewrite <- app_assoc. }
    destruct v as [| | | | |dv]; cbn [bind]; rewrite ?Hfresh; try exact Hrest.
    destruct (Hsub k dv (or_introl eq_refl)) as [Hnd' Hun].
    unfold _deeperContextualize.
    rewrite (@deeper_rebuild ctx dv []); auto.
    cbn [bind app]. rewrite Hfresh. exact Hrest.
Qed.

(** X13. [contextualize] is idempotent: for an input whose [@context], if
    it has one, is a list, the call returns, and the call on its result
    returns that result again. *)
Theorem contextualize_idempotent d :
  (dict_get d "@context" = None \/
   exists l, dict_get d "@context" = Some (JList l)) ->
  exists r, contextualize (JDict d) = Ok r /\ contextualize r = Ok r.
Proof.
  intros Hctx.
  assert (exists l, match dict_get d "@context" with
                    | Some c => c
                    | None => JList []
                    end = JList l) as [l Hl].
  { destruct Hctx as [-> | [l ->]]; eauto. }
  destruct (contextualize_loop d l (acc := [])) as (l' & o & Hrun & _ & Ho & _).
  { intros ? ? []. }
  destruct (@top_keys _ _ _ _ _ Hrun) as [Hnd Hsub];
    [constructor | intros ? ? [] |].
  exists (JDict (dict_set o "@context" (JList l'))). split.
  { unfold contextualize. cbv zeta. rewrite Hl, Hrun. reflexivity. }
  unfold contextualize. cbv zeta. rewrite dict_get_set_same.
  rewrite (@top_rebuild (JList l') (dict_set o "@context" (JList l')) []).
  - cbn [bind app]. rewrite dict_set_same; [reflexivity|].
    apply dict_get_set_same.
  - intros k sub Hin. apply dict_set_in in Hin as [Heq|Hin]; [inversion Heq|].
    split; [eapply Hsub; eauto | eapply Ho; eauto].
  - apply NoDup_keys_set, Hnd.
Qed.

Lemma contextualize_idempotent_witness :
  exists r, contextualize (JDict activity_with_dotted_key) = Ok r /\
            contextualize r = Ok r.
Proof.
  apply (@contextualize_idempotent activity_with_dotted_key).
  left. reflexivity.
Defined.

Lemma dict_has_same_keys V (a b : dict V) k :
  dict_keys a = dict_keys b -> dict_has a k = dict_has b k.
Proof.
  intros Hk. destruct (dict_has a k) eqn:Ea, (dict_has b k) eqn:Eb; auto.
  - apply dict_has_keys in Ea. rewrite Hk in Ea. apply dict_has_keys in Ea.
    congruence.
  - apply dict_has_keys in Eb. rewrite <- Hk in Eb. apply dict_has_keys in Eb.
    congruence.
Qed.

Lemma top_order d :
  forall ctx acc ctx' o,
    for_each top_step d (ctx, acc) = Ok (ctx', o) ->
    NoDup (dict_keys (acc ++ d)) ->
    exists d',
      o = acc ++ d' /\ dict_keys d' = dict_keys d /\
      (forall k v, In (k, v) d -> is_dict v = false -> In (k, v) d').
Proof.
  induction d as [|[k v] d IH]; intros ctx acc ctx' o Hrun Hnd.
  - inversion Hrun; subst. exists []. rewrite app_nil_r.
    repeat split. intros k v [].
  - cbn [for_each] in Hrun.
    assert (Hstep : forall ctx1 v',
              (is_dict v = false -> v' = v) ->
              for_each top_step d (ctx1, dict_set acc k v') = Ok (ctx', o) ->
              exists d',
                o = acc ++ d' /\ dict_keys d' = dict_keys ((k, v) :: d) /\
                (forall k0 v0, In (k0, v0) ((k, v) :: d) ->
                               is_dict v0 = false -> In (k0, v0) d')).
    { intros ctx1 v' Hv' Hrun1.
      rewrite dict_set_fresh in Hrun1.
      2:{ unfold dict_keys in Hnd. rewrite map_app in Hnd.
          cbn [map fst] in Hnd. apply NoDup_remove_2 in Hnd.
          intros Hin. apply Hnd. apply in_or_app. now left. }
      apply IH in Hrun1 as (d' & Ho & Hkeys & Hkept).
      2:{ unfold dict_keys in *. rewrite <- app_assoc, map_app.
          rewrite map_app in Hnd. exact Hnd. }
      exists ((k, v') :: d'). split; [|split].
      - rewrite Ho. now rewrite <- app_assoc.
      - cbn [dict_keys map fst]. unfold dict_keys in Hkeys. now rewrite Hkeys.
      - intros k0 v0 [Heq|Hin] Hv0.
        + inversion Heq; subst. left. now rewrite Hv'.
        + right. now apply Hkept. }
    destruct v as [| | | | |dv]; cbn [bind] in Hrun;
      try (eapply Hstep; [|exact Hrun]; reflexivity).
    destruct (_deeperContextualize dv ctx) as [[ctx1 o1]| |]; try discriminate.
    cbn [bind] in Hrun. eapply Hstep; [|exact Hrun]. discriminate.
Qed.

(** X14. [contextualize] keeps the top level: the result has the keys of
    the input in their order, with [@context] behind them when the input
    had none, and every value that is not a dict is kept under its key
    ([@context] apart, which holds the collected context). *)
Theorem contextualize_keeps_keys d rd :
  NoDup (dict_keys d) ->
  contextualize (JDict d) = Ok (JDict rd) ->
  dict_keys rd = (if dict_has d "@context" then dict_keys d
                  else dict_keys d ++ [("@context" : str)]) /\
  (forall k v, In (k, v) d -> is_dict v = false -> k <> "@context" ->
               dict_get rd k = Some v).
Proof.
  intros Hnd. unfold contextualize. cbv zeta.
  destruct (for_each _ d _) as [[ctx' o]| |] eqn:E; try discriminate.
  cbn [bind]. intros H. inversion H; subst rd. clear H.
  apply top_order in E as (d' & Ho & Hkeys & Hkept); [|exact Hnd].
  cbn [app] in Ho. subst o. split.
  - rewrite dict_keys_set, (dict_has_same_keys _ _ _ Hkeys), Hkeys.
    reflexivity.
  - intros k v Hin Hv Hk. rewrite dict_get_set_other by exact Hk.
    apply dict_get_NoDup; [now rewrite Hkeys | now apply Hkept].
Qed.

Lemma contextualize_keeps_keys_witness :
  dict_keys
    [ ("name" : str, JStr "Morning");
      ("ui" : str,
       JDict [("schema_repronim_org_orderjson" : str,
               JDict [("@id" : str, JStr "order")])]);
      ("@context" : str,
       JList [JDict [("schema_repronim_org_orderjson" : str,
                      JStr "https://schema.repronim.org/order.json")]]) ]
  = [("name" : str); ("ui" : str); ("@context" : str)].
Proof.
  destruct (@contextualize_keeps_keys activity_with_dotted_key _
              ltac:(repeat constructor; simpl; intuition discriminate)
              eq_refl) as [H _].
  exact H.
Defined.

(** ** [_createContextForStr] *)

(** X15. The key that [_createContextForStr] makes for a dotted key [k]
    stands for [k] under the context entry made with it: the entry maps a
    prefix without [.] and [:] to a base, and the new key is either that
    prefix alone, with [k] as the base, or [prefix:suffix] with
    [base ++ suffix = k], where the suffix holds no [/] and no [.]. *)
Theorem createContext_denotes (k : str) :
  has_char "."%char k = true ->
  exists p base suffix,
    fst (_createContextForStr k) = JDict [(p, JStr base)] /\
    k = base ++ suffix /\
    has_char ":"%char p = false /\ has_char "."%char p = false /\
    (snd (_createContextForStr k) = p /\ suffix = []
     \/ snd (_createContextForStr k) = p ++ ":" ++ suffix /\
        has_char "/"%char suffix = false /\
        has_char "."%char suffix = false).
Proof.
  intros Hk. unfold _createContextForStr.
  pose proof (join_split "/"%char k) as Hjoin.
  pose proof (@split_nonempty "/"%char k) as Hne.
  pose proof (last_split_clean "/"%char k) as Hclean.
  set (sp := split "/"%char k) in *.
  destruct (has_char "."%char (last sp [])) eqn:E; cbn [negb fst snd].
  - eexists _, k, []. split; [reflexivity|]. split; [now rewrite app_nil_r|].
    split; [apply has_char_remove_same|].
    split; [apply has_char_remove_other, has_char_remove_same|].
    left. split; reflexivity.
  - eexists _, _, (last sp []). split; [reflexivity|]. split.
    + rewrite (app_removelast_last [] Hne) in Hjoin.
      destruct (removelast sp) as [|w ws] eqn:Er.
      * simpl in Hjoin. rewrite Hjoin in E. congruence.
      * rewrite join_snoc in Hjoin by discriminate.
        rewrite <- Hjoin. now rewrite app_assoc.
    + split; [apply has_char_remove_same|].
      split; [apply has_char_remove_other, has_char_remove_same|].
      right. split; [reflexivity|]. split; [exact Hclean|exact E].
Qed.

Lemma createContext_denotes_witness :
  exists p base suffix,
    fst (_createContextForStr "https://schema.repronim.org/order.json")
    = JDict [(p, JStr base)] /\
    ("https://schema.repronim.org/order.json" : str) = base ++ suffix /\
    has_char ":"%char p = false /\ has_char "."%char p = false /\
    (snd (_createContextForStr "https://schema.repronim.org/order.json") = p
     /\ suffix = []
     \/ snd (_createContextForStr "https://schema.repronim.org/order.json")
        = p ++ ":" ++ suffix /\
        has_char "/"%char suffix = false /\
        has_char "."%char suffix = false).
Proof.
  apply (@createContext_denotes "https://schema.repronim.org/order.json").
  reflexivity.
Defined.

(** ** [getFromLongestMatchingValue]: the empty value *)

Lemma keyed_total keyToMatch objectList :
  all_tagged keyToMatch objectList ->
  exists keyed,
    map_outcome
      (fun i => t <- py_get i keyToMatch (JStr "") ;;
                n <- py_len t ;; Ok (n, i)) objectList = Ok keyed.
Proof.
  induction objectList as [|i l IH]; intros Hall.
  - now exists [].
  - destruct (Hall i (or_introl eq_refl)) as (d & s & -> & Hs & _).
    destruct IH as [keyed Hk].
    { intros x Hx. apply Hall. now right. }
    cbn [map_outcome py_get]. rewrite Hs. cbn [bind py_len]. rewrite Hk.
    cbn [bind]. eauto.
Qed.

Lemma first_match_none test l :
  (forall x, In x l -> test x = Ok false) -> first_match test l = Ok None.
Proof.
  induction l as [|x l IH]; intros H; [reflexivity|].
  cbn [first_match]. rewrite (H x (or_introl eq_refl)). cbn [bind].
  apply IH. intros y Hy. apply H. now right.
Qed.

Lemma longest_of_empty l :
  l <> [] -> (forall v, In v l -> v = []) -> longest l = Some [].
Proof.
  induction l as [|x l IH]; intros Hne Hall; [congruence|].
  cbn [longest]. rewrite (Hall x (or_introl eq_refl)).
  destruct l as [|y l]; [reflexivity|].
  rewrite IH; [reflexivity | discriminate |].
  intros v Hv. apply Hall. now right.
Qed.

Lemma lower_of_empty l :
  (forall v, In v l -> v = []) -> map lower l = l.
Proof.
  induction l as [|x l IH]; intros Hall; [reflexivity|].
  cbn [map]. rewrite (Hall x (or_introl eq_refl)) at 1 2. cbn [lower map].
  f_equal. apply IH. intros v Hv. apply Hall. now right.
Qed.

Lemma sorted_keyed_elements keyToMatch objectList keyed reverse x :
  map_outcome
    (fun i => t <- py_get i keyToMatch (JStr "") ;;
              n <- py_len t ;; Ok (n, i)) objectList = Ok keyed ->
  In x (map snd (sorted fst reverse keyed)) -> In x objectList.
Proof.
  intros Hk Hx. apply keyed_elements in Hk. rewrite <- Hk.
  apply in_map_iff in Hx as (p & <- & Hp). apply in_map.
  now apply sorted_In in Hp.
Qed.

(** X16. When the values to match are all the empty string and every
    object carries a string that is not empty under the key,
    [getFromLongestMatchingValue] never returns: the empty value is not
    taken off the list, so the call recurses on the arguments it was
    given, whatever the recursion budget. *)
Theorem getFromLongestMatchingValue_empty_value_recurses
        fuel objectList listOfValues keyToMatch caseInsensitive :
  listOfValues <> [] ->
  (forall v, In v listOfValues -> v = []) ->
  all_tagged keyToMatch objectList ->
  getFromLongestMatchingValue fuel objectList listOfValues keyToMatch
                              caseInsensitive
  = OutOfFuel.
Proof.
  intros Hne Hall Htag. induction fuel as [|fuel IH]; [reflexivity|].
  cbn [getFromLongestMatchingValue]. cbv zeta.
  assert (Hl : (if caseInsensitive then map lower listOfValues
                else listOfValues) = listOfValues).
  { destruct caseInsensitive; [now apply lower_of_empty | reflexivity]. }
  rewrite Hl, (longest_of_empty Hne Hall). cbn [nonempty andb].
  destruct (keyed_total Htag) as [keyed Hk]. rewrite Hk. cbn [bind].
  rewrite first_match_none.
  - cbn [bind].
    destruct listOfValues as [|v vs]; [congruence|].
    cbn [length Nat.leb]. exact IH.
  - intros x Hx. apply (@sorted_keyed_elements _ _ _ _ _ Hk) in Hx.
    destruct (Htag x Hx) as (d & s & -> & Hs & Hs').
    cbn [py_get]. rewrite Hs. cbn [bind or_None].
    assert (Hlow : lower s <> []) by (destruct s; [congruence|discriminate]).
    destruct caseInsensitive; cbn [py_lower bind py_eq]; f_equal.
    + destruct (str_eqb (lower s) []) eqn:E; [|reflexivity].
      apply str_eqb_eq in E. contradiction.
    + destruct (str_eqb s []) eqn:E; [|reflexivity].
      apply str_eqb_eq in E. contradiction.
Qed.

Lemma getFromLongestMatchingValue_empty_value_recurses_witness :
  getFromLongestMatchingValue
    100 [JDict [("@language" : str, JStr "fr"); ("@value" : str, JStr "Bonjour")]]
    [[]] "@language" true
  = OutOfFuel.
Proof.
  apply (@getFromLongestMatchingValue_empty_value_recurses
           100
           [JDict [("@language" : str, JStr "fr");
                   ("@value" : str, JStr "Bonjour")]]
           [[]] "@language" true).
  - discriminate.
  - intros v [<-|[]]. reflexivity.
  - intros object [<-|[]]. eexists _, _. split; [reflexivity|].
    split; [reflexivity|]. discriminate.
Defined.

(** ** Route handlers *)

Section RouteProperties.

Variable object_id : nat -> str.
Variable may_read : option str -> Folder -> bool.
Variable py_str : JSON -> str.

(** X17. When the metadata names the applet by a string that contains
    [@id], [skos:prefLabel] or [name], [createResponseItem] raises
    [TypeError]: the membership tests of the fallback chain hold for the
    substring and the string is then indexed by it. No item is stored. *)
Theorem createResponseItem_applet_string informant subject_id md now st s :
  dict_get md "applet" = Some (JStr s) ->
  is_infix "@id" s || is_infix "skos:prefLabel" s || is_infix "name" s = true ->
  exists st',
    createResponseItem object_id py_str informant subject_id (JDict md) now st
    = (Raise TypeError, st') /\
    items st' = items st.
Proof.
  intros Happlet Hsub.
  destruct (@createFolder_spec object_id informant "user" "Responses" st)
    as (fR & st1 & E1 & _ & _ & _ & _ & _ & Hitems).
  exists st1. split; [|exact Hitems].
  unfold createResponseItem, bindM, lift. rewrite E1.
  erewrite label_of_raw_string by exact Happlet. rewrite Hsub. reflexivity.
Qed.

Lemma getResponses_loop reviewer userId appletId st user folder R st1 :
  loadUser userId st = (Ok user, st) ->
  loadFolder may_read appletId (Some user) NONE st = (Ok folder, st) ->
  createFolder object_id user "user" "Responses" st = (Ok R, st1) ->
  getResponses object_id may_read reviewer userId appletId st
  = (for_each (getResponses_step may_read reviewer appletId
                                 (folder_name folder) st1)
              (childFolders may_read R reviewer st1) [], st1).
Proof.
  intros Hu Hf Hr. unfold getResponses, bindM. now rewrite Hu, Hf, Hr.
Qed.

Lemma for_each_all_skip A S (body : S -> A -> outcome S) l s :
  (forall x, In x l -> body s x = Ok s) -> for_each body l s = Ok s.
Proof.
  induction l as [|x l IH]; intros H; [reflexivity|].
  cbn [for_each]. rewrite (H x (or_introl eq_refl)). cbn [bind].
  apply IH. intros y Hy. apply H. now right.
Qed.

(** X18. When no folder of the user's [Responses] folder matches the
    applet, by name or by the identifier in its metadata, [getResponses]
    returns the empty dict: the applet's identifier is not a key of the
    result. *)
Theorem getResponses_no_match reviewer userId appletId st user folder R st1 :
  loadUser userId st = (Ok user, st) ->
  loadFolder may_read appletId (Some user) NONE st = (Ok folder, st) ->
  createFolder object_id user "user" "Responses" st = (Ok R, st1) ->
  (forall f, In f (childFolders may_read R reviewer st1) ->
             folder_name f <> folder_name folder /\
             matches_by_id f appletId = Ok false) ->
  getResponses object_id may_read reviewer userId appletId st = (Ok [], st1).
Proof.
  intros Hu Hf Hr Hno. erewrite getResponses_loop by eassumption.
  f_equal. apply for_each_all_skip. intros f Hin.
  destruct (Hno f Hin) as [Hname Hid]. unfold getResponses_step.
  apply str_eqb_neq in Hname. rewrite Hname, Hid. reflexivity.
Qed.

Lemma getResponses_inner_keys appletId st subjectFolders :
  forall l,
    exists l',
      for_each
        (fun (allResponses : dict (list Item)) subjectFolder =>
           Ok (dict_set allResponses appletId
                 (match dict_get allResponses appletId with
                  | Some l => l
                  | None => []
                  end ++ childItems subjectFolder st)))
        subjectFolders [(appletId, l)] = Ok [(appletId, l')].
Proof.
  induction subjectFolders as [|f fs IH]; intros l; [now exists l|].
  cbn [for_each bind dict_set dict_get]. rewrite str_eqb_refl. apply IH.
Qed.

Lemma getResponses_step_keys reviewer appletId appletName st acc f :
  acc = [] \/ (exists l, acc = [(appletId, l)]) ->
  (exists l, getResponses_step may_read reviewer appletId appletName st acc f
             = Ok [(appletId, l)]) \/
  getResponses_step may_read reviewer appletId appletName st acc f = Ok acc \/
  (exists e, getResponses_step may_read reviewer appletId appletName st acc f
             = Raise e).
Proof.
  intros Hacc.
  assert (Hset : forall l, exists l', dict_set acc appletId l = [(appletId, l')]).
  { intros l. destruct Hacc as [->|[l0 ->]]; cbn [dict_set];
      rewrite ?str_eqb_refl; eauto. }
  unfold getResponses_step.
  destruct (str_eqb (folder_name f) appletName).
  - left. destruct (Hset (childItems f st)) as [l' ->]. eauto.
  - destruct (matches_by_id f appletId) as [[|]|e|] eqn:Em; cbn [bind].
    + destruct (Hset []) as [l' ->].
      destruct (fst (loadFolder may_read (folder_id f) reviewer READ st))
        as [g|e|] eqn:El; cbn [bind].
      * left. apply getResponses_inner_keys.
      * right. right. eauto.
      * exfalso. unfold loadFolder in El.
        destruct (find _ (folders st)); [|discriminate].
        destruct (may_read reviewer f0); discriminate.
    + right. now left.
    + right. right. eauto.
    + exfalso. unfold matches_by_id in Em.
      destruct (folder_meta f) as [meta|]; [|discriminate].
      destruct meta as [|b|n|s|l|d]; cbn [py_in bind] in Em;
        try discriminate.
      * destruct (is_infix _ s); cbn [py_getitem bind] in Em; discriminate.
      * destruct (existsb _ l); cbn [py_getitem bind] in Em; discriminate.
      * destruct (dict_has d _); [|discriminate].
        cbn [py_getitem] in Em.
        destruct (dict_get d _) as [applet|]; [|discriminate].
        cbn [bind] in Em.
        destruct applet as [|b|n|s|l|a]; try discriminate.
        cbn [py_getitem] in Em.
        destruct (dict_get a _); discriminate.
Qed.

Lemma getResponses_loop_keys reviewer appletId appletName st fs :
  forall acc r,
    acc = [] \/ (exists l, acc = [(appletId, l)]) ->
    for_each (getResponses_step may_read reviewer appletId appletName st)
             fs acc = Ok r ->
    r = [] \/ (exists l, r = [(appletId, l)]).
Proof.
  induction fs as [|f fs IH]; intros acc r Hacc Hrun.
  - inversion Hrun; now subst.
  - cbn [for_each] in Hrun.
    destruct (@getResponses_step_keys reviewer appletId appletName st acc f Hacc)
      as [[l E]|[E|[e E]]]; rewrite E in Hrun; cbn [bind] in Hrun.
    + eapply IH; [|exact Hrun]. eauto.
    + eapply IH; [|exact Hrun]. exact Hacc.
    + discriminate.
Qed.

(** X19. Whatever the store holds, a result of [getResponses] is the empty
    dict or a dict with the one key [appletId]. *)
Theorem getResponses_one_key reviewer userId appletId st r st' :
  getResponses object_id may_read reviewer userId appletId st = (Ok r, st') ->
  r = [] \/ exists l, r = [(appletId, l)].
Proof.
  unfold getResponses, bindM.
  destruct (loadUser userId st) as [[user| |] s1]; try discriminate.
  destruct (loadFolder may_read appletId (Some user) NONE s1)
    as [[folder| |] s2]; try discriminate.
  destruct (createFolder object_id user "user" "Responses" s2)
    as [[R| |] s3]; try discriminate.
  intros H. inversion H as [[Hrun Hst]].
  apply (@getResponses_loop_keys reviewer appletId (folder_name folder) s3
           (childFolders may_read R reviewer s3) []); auto.
Qed.

Lemma for_each_raises A S (body : S -> A -> outcome S) l x :
  In x l ->
  (forall s, exists e, body s x = Raise e) ->
  (forall s y, body s y <> OutOfFuel) ->
  forall s, exists e, for_each body l s = Raise e.
Proof.
  intros Hin Hx Htotal. induction l as [|y l IH]; intros s; [destruct Hin|].
  cbn [for_each]. destruct Hin as [->|Hin].
  - destruct (Hx s) as [e ->]. now exists e.
  - destruct (body s y) as [s'|e|] eqn:E; cbn [bind].
    + now apply IH.
    + now exists e.
    + now destruct (Htotal s y).
Qed.

Lemma for_each_returns A S (body : S -> A -> outcome S) l :
  (forall s x, exists s', body s x = Ok s') ->
  forall s, exists s', for_each body l s = Ok s'.
Proof.
  intros Hbody. induction l as [|x l IH]; intros s; [now exists s|].
  cbn [for_each]. destruct (Hbody s x) as [s' ->]. cbn [bind]. apply IH.
Qed.

Lemma matches_by_id_total f appletId : matches_by_id f appletId <> OutOfFuel.
Proof.
  unfold matches_by_id.
  destruct (folder_meta f) as [meta|]; [|discriminate].
  destruct meta as [|b|n|s|l|d]; cbn [py_in bind]; try discriminate.
  - destruct (is_infix _ s); cbn [py_getitem bind]; discriminate.
  - destruct (existsb _ l); cbn [py_getitem bind]; discriminate.
  - destruct (dict_has d _); [|discriminate]. cbn [py_getitem].
    destruct (dict_get d _) as [applet|]; [|discriminate]. cbn [bind].
    destruct applet as [|b|n|s|l|a]; try discriminate. cbn [py_getitem].
    destruct (dict_get a _); discriminate.
Qed.

Lemma getResponses_step_total reviewer appletId appletName st acc f :
  getResponses_step may_read reviewer appletId appletName st acc f
  <> OutOfFuel.
Proof.
  unfold getResponses_step.
  destruct (str_eqb (folder_name f) appletName); [discriminate|].
  pose proof (matches_by_id_total f appletId) as Hm.
  destruct (matches_by_id f appletId) as [[|]|e|]; cbn [bind];
    try discriminate; [|congruence].
  unfold loadFolder. destruct (find _ (folders st)) as [g|]; [|discriminate].
  destruct (may_read reviewer g); cbn [fst bind]; [|discriminate].
  match goal with
  | |- for_each ?body ?l ?s0 <> _ =>
      let H := fresh in
      assert (H : forall s x, exists s', body s x = Ok s') by eauto;
      destruct (@for_each_returns _ _ body l H s0) as [s' ->]; discriminate
  end.
Qed.

(** X20. One folder with metadata that names its applet without an
    identifier stops the listing: when a folder of the user's [Responses]
    folder is not named after the applet and its metadata has an [applet]
    entry that is not a dict with an [@id], [getResponses] raises,
    whatever the other folders hold. *)
Theorem getResponses_applet_without_id
        reviewer userId appletId st user folder R st1 f m applet :
  loadUser userId st = (Ok user, st) ->
  loadFolder may_read appletId (Some user) NONE st = (Ok folder, st) ->
  createFolder object_id user "user" "Responses" st = (Ok R, st1) ->
  In f (childFolders may_read R reviewer st1) ->
  folder_name f <> folder_name folder ->
  folder_meta f = Some (JDict m) ->
  dict_get m "applet" = Some applet ->
  (forall a, applet = JDict a -> dict_get a "@id" = None) ->
  exists e,
    getResponses object_id may_read reviewer userId appletId st
    = (Raise e, st1).
Proof.
  intros Hu Hf Hr Hin Hname Hmeta Happlet Hid.
  erewrite getResponses_loop by eassumption.
  assert (Hraise : forall acc, exists e,
             getResponses_step may_read reviewer appletId
                               (folder_name folder) st1 acc f = Raise e).
  { intros acc. unfold getResponses_step.
    apply str_eqb_neq in Hname. rewrite Hname.
    unfold matches_by_id. rewrite Hmeta. cbn [py_in bind].
    unfold dict_has. rewrite Happlet. cbn [py_getitem]. rewrite Happlet.
    cbn [bind].
    destruct applet as [|b|n|s|l|a]; cbn [py_getitem bind]; eauto.
    rewrite (Hid a eq_refl). cbn [bind]. eauto. }
  destruct (@for_each_raises _ _
              (getResponses_step may_read reviewer appletId
                                 (folder_name folder) st1)
              (childFolders may_read R reviewer st1) f Hin Hraise
              (fun acc y => @getResponses_step_total
                              reviewer appletId (folder_name folder) st1 acc y)
              []) as [e He].
  exists e. now rewrite He.
Qed.

Lemma find_app_some A (p : A -> bool) l l' x :
  find p l = Some x -> find p (l ++ l') = Some x.
Proof.
  induction l as [|y l IH]; [discriminate|]. cbn [find app].
  destruct (p y); auto.
Qed.

Lemma find_app_none A (p : A -> bool) l l' :
  find p l = None -> find p (l ++ l') = find p l'.
Proof.
  induction l as [|y l IH]; [reflexivity|]. cbn [find app].
  destruct (p y); [discriminate|auto].
Qed.

Lemma createFolder_found parent parentType name st f st' :
  createFolder object_id parent parentType name st = (Ok f, st') ->
  find (fun f => is_child parentType parent f
                 && str_eqb (folder_name f) name) (folders st') = Some f /\
  (exists extra, folders st' = folders st ++ extra) /\
  items st' = items st.
Proof.
  unfold createFolder.
  destruct (find _ (folders st)) as [g|] eqn:E; intros H; inversion H; subst.
  - split; [exact E|]. split; [|reflexivity]. exists []. now rewrite app_nil_r.
  - cbn [folders items]. split; [|split; [eauto|reflexivity]].
    rewrite find_app_none by exact E. cbn [find].
    unfold is_child. cbn [parentCollection parentId folder_name].
    now rewrite !str_eqb_refl.
Qed.

Lemma createFolder_reuse parent parentType name st f :
  find (fun f => is_child parentType parent f
                 && str_eqb (folder_name f) name) (folders st) = Some f ->
  createFolder object_id parent parentType name st = (Ok f, st).
Proof. intros H. unfold createFolder. now rewrite H. Qed.

Lemma createResponseItem_reuses
      informant subject_id metadata now st fR fA fS name act :
  find (fun f => is_child "user" informant f
                 && str_eqb (folder_name f) "Responses") (folders st)
  = Some fR ->
  label_of metadata "applet" "[Unknown Applet]" = Ok (JStr name) ->
  find (fun f => is_child "folder" (folder_id fR) f
                 && str_eqb (folder_name f) name) (folders st) = Some fA ->
  find (fun f => is_child "folder" (folder_id fA) f
                 && str_eqb (folder_name f)
                      (match subject_id with Some s => s | None => informant end))
       (folders st) = Some fS ->
  label_of metadata "activity" "[Unknown Activity]" = Ok act ->
  exists i st',
    createResponseItem object_id py_str informant subject_id metadata now st
    = (Ok i, st') /\
    folders st' = folders st /\
    folderId i = folder_id fS /\
    length (items st') = S (length (items st)).
Proof.
  intros HR La HA HS Lb. unfold createResponseItem, bindM, lift.
  rewrite (createFolder_reuse _ _ _ _ HR), La. cbn [bind as_name].
  rewrite (createFolder_reuse _ _ _ _ HA), (createFolder_reuse _ _ _ _ HS), Lb.
  cbn [createItem].
  destruct (truthy metadata); eexists; eexists;
    (split; [reflexivity|]); cbn [folders items folderId];
    rewrite ?length_map, length_app; cbn [length];
    repeat split; try reflexivity; apply Nat.add_1_r.
Qed.

(** X21. A second call of [createResponseItem] with the same caller,
    subject and metadata makes no folder: it returns a new item in the
    folder of the first one, and the store has one item more. *)
Theorem createResponseItem_again
        informant subject_id metadata now now' st i1 st1 :
  createResponseItem object_id py_str informant subject_id metadata now st
  = (Ok i1, st1) ->
  exists i2 st2,
    createResponseItem object_id py_str informant subject_id metadata now' st1
    = (Ok i2, st2) /\
    folders st2 = folders st1 /\
    folderId i2 = folderId i1 /\
    length (items st2) = S (length (items st1)).
Proof.
  unfold createResponseItem at 1. unfold bindM, lift.
  destruct (createFolder object_id informant "user" "Responses" st)
    as [[fR| |] sA] eqn:E1; try discriminate.
  destruct (label_of metadata "applet" "[Unknown Applet]") as [v| |] eqn:La;
    cbn [bind]; try discriminate.
  destruct v as [|b|n|name|l|d]; cbn [as_name]; try discriminate.
  destruct (createFolder object_id (folder_id fR) "folder" name sA)
    as [[fA| |] sB] eqn:E2; try discriminate.
  destruct (createFolder object_id (folder_id fA) "folder" _ sB)
    as [[fS| |] sC] eqn:E3; try discriminate.
  destruct (label_of metadata "activity" "[Unknown Activity]")
    as [act| |] eqn:Lb; try discriminate.
  apply createFolder_found in E1 as (HR & _ & _).
  apply createFolder_found in E2 as (HA & [x2 H2] & _).
  apply createFolder_found in E3 as (HS & [x3 H3] & _).
  assert (Hfolders : folders st1 = folders sC /\ folderId i1 = folder_id fS ->
            exists i2 st2,
              createResponseItem object_id py_str informant subject_id
                                 metadata now' st1 = (Ok i2, st2) /\
              folders st2 = folders st1 /\
              folderId i2 = folderId i1 /\
              length (items st2) = S (length (items st1))).
  { intros [Hst Hi]. rewrite Hi.
    apply createResponseItem_reuses with (fR := fR) (fA := fA) (name := name)
                                         (act := act); auto; rewrite Hst.
    - rewrite H3, H2. now apply find_app_some, find_app_some.
    - rewrite H3. now apply find_app_some.
    - exact HS. }
  cbn [createItem]. destruct (truthy metadata); intros H; inversion H; subst;
    apply Hfolders; split; reflexivity.
Qed.

End RouteProperties.

Lemma createResponseItem_applet_string_witness :
  exists st',
    createResponseItem numbered (fun _ => []) "u1" None (JDict named_metadata)
                       new_year empty_store
    = (Raise TypeError, st') /\
    items st' = items empty_store.
Proof.
  apply (@createResponseItem_applet_string
           numbered (fun _ => []) "u1" None named_metadata new_year
           empty_store "applet by name"); reflexivity.
Defined.

Lemma getResponses_no_match_witness :
  getResponses numbered everyone (Some ("u1" : str)) "u1" "A1" other_responses
  = (Ok [], other_responses).
Proof.
  apply (@getResponses_no_match
           numbered everyone (Some ("u1" : str)) "u1" "A1" other_responses
           "u1" applet_folder responses_folder other_responses);
    try reflexivity.
  intros f [<-|[<-|[]]]; split; try reflexivity; discriminate.
Defined.

Lemma getResponses_one_key_witness :
  [("A1" : str, [new_item])] = []
  \/ exists l, [("A1" : str, [new_item])] = [("A1" : str, l)].
Proof.
  apply (@getResponses_one_key
           numbered everyone (Some ("u1" : str)) "u1" "A1"
           (both_schemas by_name_folder by_id_folder)
           [("A1" : str, [new_item])]
           (both_schemas by_name_folder by_id_folder)).
  reflexivity.
Defined.

Lemma getResponses_applet_without_id_witness :
  exists e,
    getResponses numbered everyone (Some ("u1" : str)) "u1" "A1"
                 with_string_applet
    = (Raise e, with_string_applet).
Proof.
  apply (@getResponses_applet_without_id
           numbered everyone (Some ("u1" : str)) "u1" "A1" with_string_applet
           "u1" applet_folder responses_folder with_string_applet
           string_applet_folder
           [("applet" : str, JStr "Sleep Diary")] (JStr "Sleep Diary"));
    try reflexivity.
  - now left.
  - discriminate.
  - intros a Ha. discriminate.
Defined.

Lemma createResponseItem_again_witness :
  exists i1 st1 i2 st2,
    createResponseItem numbered (fun _ => []) "u1" None survey_metadata
                       new_year empty_store = (Ok i1, st1) /\
    createResponseItem numbered (fun _ => []) "u1" None survey_metadata
                       new_year st1 = (Ok i2, st2) /\
    folders st2 = folders st1 /\
    folderId i2 = folderId i1 /\
    length (items st2) = S (length (items st1)).
Proof.
  destruct (createResponseItem numbered (fun _ => []) "u1" None
                               survey_metadata new_year empty_store)
    as [[i1|e|] st1] eqn:E; try (vm_compute in E; discriminate).
  destruct (@createResponseItem_again
              numbered (fun _ => []) "u1" None survey_metadata
              new_year new_year empty_store i1 st1 E) as (i2 & st2 & H).
  exists i1, st1, i2, st2. split; [reflexivity | exact H].
Defined.

(** ** [formatLdObject] *)

Lemma camelCase_twice s : camelCase (camelCase s) = camelCase s.
Proof.
  rewrite !camelCase_recamel. apply recamel_fixed, recamel_no_underscore.
Qed.

Lemma format_each_shape World
      (self : ldArgs -> World -> outcome JSON * World) p l :
  (forall a w e w', self a w <> (Raise e, w')) ->
  forall w,
    match format_each self p l w with
    | (Ok rs, _) => length rs = length (filter (fun o => negb (is_None o)) l)
    | (Raise _, _) => False
    | (OutOfFuel, _) => True
    end.
Proof.
  intros Hself. induction l as [|o l IH]; intros w; [reflexivity|].
  destruct o as [|b|n|s|l0|d]; cbn [format_each filter is_None negb];
    try apply IH;
    (match goal with
     | |- context [self ?args w] =>
         destruct (self args w) as [[r|e|] w'] eqn:E
     end;
     [ specialize (IH w');
       destruct (format_each self p l w') as [[rs|e|] w'']; cbn [length];
       auto
     | now apply Hself in E
     | exact I ]).
Qed.

Section FormatLdObjectProperties.

Variable World : Type.
Variable jsonld_expand : JSON -> expansion.
Variable py_str : JSON -> str.
Variable expand_fuel : nat.
Variable raised_without_id : exn.
Variable applet_branch :
  (ldArgs -> World -> outcome JSON * World) ->
  ldArgs -> JSON -> str -> World -> outcome JSON * JSON * World.
Variable activitySet_branch :
  (ldArgs -> World -> outcome JSON * World) ->
  ldArgs -> JSON -> World -> outcome JSON * World.
Variable add_responseDates : ldArgs -> JSON -> World -> JSON * World.
Variable print_exc_info : exn -> World -> World.

(** X22. [formatLdObject] on a list never raises, and what it returns is a
    list with one entry for each element that is not [None]: an element
    that cannot be formatted gives a [None] entry, not an exception. *)
Theorem formatLdObject_list fuel :
  forall a w l,
    obj a = JList l ->
    match formatLdObject_whole jsonld_expand py_str expand_fuel
                               raised_without_id applet_branch
                               activitySet_branch add_responseDates
                               print_exc_info fuel a w with
    | (Ok r, _) =>
        exists rs, r = JList rs /\
                   length rs = length (filter (fun o => negb (is_None o)) l)
    | (Raise _, _) => False
    | (OutOfFuel, _) => True
    end.
Proof.
  unfold formatLdObject_whole.
  induction fuel as [|fuel IH]; intros a w l Hobj; [exact I|].
  cbn [formatLdObject]. unfold formatLdObject_try at 1. cbv zeta.
  rewrite Hobj. cbn [py_in].
  destruct (existsb (py_eq (JStr "cached")) l && negb (refreshCache a)) eqn:Ec.
  - cbn [py_getitem]. apply andb_prop in Ec as [_ Hr]. rewrite Hr.
    apply IH. reflexivity.
  - pose proof (@format_each_shape World
                  (formatLdObject
                     (formatLdObject_try jsonld_expand py_str expand_fuel
                        raised_without_id applet_branch activitySet_branch add_responseDates)
                     print_exc_info fuel)
                  (camelCase (mesoPrefix a)) l
                  (@formatLdObject_never_raises World _ print_exc_info fuel)
                  w) as Hshape.
    destruct (format_each _ (camelCase (mesoPrefix a)) l w) as [[rs|e|] w'];
      cbn [bind]; [eauto | destruct Hshape | exact I].
Qed.

Lemma formatLdObject_try_without_id self a w d m x :
  obj a = JDict d ->
  dict_get d "meta" = Some (JDict m) ->
  dict_has d "cached" && negb (refreshCache a) = false ->
  dict_get d "_id" = None ->
  expand jsonld_expand expand_fuel
         (match dict_get m (camelCase (mesoPrefix a)) with
          | Some sub => sub
          | None => JDict m
          end) (keepUndefined a) = Ok x ->
  formatLdObject_try jsonld_expand py_str expand_fuel
                     raised_without_id applet_branch
                     activitySet_branch add_responseDates self a w
  = (Raise raised_without_id, (obj a, camelCase (mesoPrefix a)), w).
Proof.
  intros Hobj Hmeta Hcached Hid Hexp. unfold formatLdObject_try. cbv zeta.
  rewrite Hobj. unfold dict_has at 1. rewrite Hmeta. cbn [negb py_in].
  rewrite Hcached. cbn [py_get bind]. rewrite Hexp, Hid.
  reflexivity.
Qed.

(** X23. A stored document without [_id] cannot be formatted: when the
    object has a [meta] dict, no [cached] entry and no [_id], and the
    expansion of its content returns, [formatLdObject] returns [None]
    after one report of the exception that [raise ResourcePathNotFound()]
    raises, with [refreshCache] or without it. *)
Theorem formatLdObject_without_id fuel a w d m x :
  obj a = JDict d ->
  dict_get d "meta" = Some (JDict m) ->
  dict_has d "cached" = false ->
  dict_get d "_id" = None ->
  expand jsonld_expand expand_fuel
         (match dict_get m (camelCase (mesoPrefix a)) with
          | Some sub => sub
          | None => JDict m
          end) (keepUndefined a) = Ok x ->
  formatLdObject_whole jsonld_expand py_str expand_fuel
                               raised_without_id applet_branch
                       activitySet_branch add_responseDates print_exc_info
                       (S (S fuel)) a w
  = (Ok JNull, print_exc_info raised_without_id w).
Proof.
  intros Hobj Hmeta Hcached Hid Hexp. unfold formatLdObject_whole.
  cbn [formatLdObject].
  rewrite (@formatLdObject_try_without_id _ a w d m x); auto;
    [|now rewrite Hcached].
  destruct (refreshCache a) eqn:Er; cbn [negb]; [reflexivity|].
  rewrite (@formatLdObject_try_without_id _ _ w d m x); auto.
  - cbn [retry_args refreshCache negb]. apply andb_false_r.
  - cbn [retry_args mesoPrefix keepUndefined snd]. now rewrite camelCase_twice.
Qed.

(** X24. A value that is a string, a number or a boolean is never
    formatted: [formatLdObject] returns [None] after one report of an
    exception, a [TypeError] when [dropErrors] is not set; [dropErrors]
    changes what is reported, not what is returned. *)
Theorem formatLdObject_scalar fuel a w :
  match obj a with JBool _ | JNum _ | JStr _ => True | _ => False end ->
  exists e,
    formatLdObject_whole jsonld_expand py_str expand_fuel
                               raised_without_id applet_branch
                         activitySet_branch add_responseDates print_exc_info
                         (S (S fuel)) a w
    = (Ok JNull, print_exc_info e w) /\
    (dropErrors a = false -> e = TypeError).
Proof.
  unfold formatLdObject_whole. destruct a as [o p u k de rc rd].
  cbn [obj dropErrors]. intros Hs.
  destruct o as [|b|n|s|l|d]; try destruct Hs;
    cbn [formatLdObject]; unfold formatLdObject_try;
    cbn [obj mesoPrefix refreshCache dropErrors py_in];
    try destruct (is_infix "cached" s);
    destruct rc, de;
    cbn [negb andb py_getitem retry_args obj mesoPrefix refreshCache
         dropErrors fst snd py_in];
    try destruct (is_infix "cached" s);
    cbn [negb andb py_getitem retry_args obj mesoPrefix refreshCache
         dropErrors fst snd py_in];
    eexists; (split; [reflexivity | auto; try discriminate]).
Qed.

End FormatLdObjectProperties.

Lemma formatLdObject_list_witness :
  match plain_formatLdObject
          3 (with_obj (JList [JNull; JDict []; JStr "activity"])) [] with
  | (Ok r, _) =>
      exists rs, r = JList rs /\
                 length rs
                 = length (filter (fun o => negb (is_None o))
                                  [JNull; JDict []; JStr "activity"])
  | (Raise _, _) => False
  | (OutOfFuel, _) => True
  end.
Proof.
  apply (@formatLdObject_list
           (list exn) (fun _ => Expanded []) (fun _ => []) 1 TypeError
           (fun _ a r _ w => (Ok r, obj a, w))
           (fun _ _ r w => (Ok r, w))
           (fun _ r w => (r, w))
           (@cons exn)
           3 (with_obj (JList [JNull; JDict []; JStr "activity"])) []
           [JNull; JDict []; JStr "activity"]).
  reflexivity.
Defined.

Lemma formatLdObject_without_id_witness :
  plain_formatLdObject
    2 (with_obj (JDict [("meta" : str, JDict [("name" : str, JStr "Morning")])]))
    []
  = (Ok JNull, [TypeError]).
Proof.
  apply (@formatLdObject_without_id
           (list exn) (fun _ => Expanded []) (fun _ => []) 1 TypeError
           (fun _ a r _ w => (Ok r, obj a, w))
           (fun _ _ r w => (Ok r, w))
           (fun _ r w => (r, w))
           (@cons exn)
           0
           (with_obj (JDict [("meta" : str,
                              JDict [("name" : str, JStr "Morning")])]))
           []
           [("meta" : str, JDict [("name" : str, JStr "Morning")])]
           [("name" : str, JStr "Morning")]
           JNull); reflexivity.
Defined.

Lemma formatLdObject_scalar_witness :
  exists e,
    plain_formatLdObject 2 (with_obj (JStr "cached activity")) []
    = (Ok JNull, [e]) /\
    (dropErrors (with_obj (JStr "cached activity")) = false -> e = TypeError).
Proof.
  apply (@formatLdObject_scalar
           (list exn) (fun _ => Expanded []) (fun _ => []) 1 TypeError
           (fun _ a r _ w => (Ok r, obj a, w))
           (fun _ _ r w => (Ok r, w))
           (fun _ r w => (r, w))
           (@cons exn)
           0 (with_obj (JStr "cached activity")) []).
  exact I.
Defined.

(** ** [keyExpansion] *)

Lemma keyExpansion_no_address x keys :
  In x (keyExpansion keys) ->
  has_char ":"%char x = false \/ has_char "/"%char x = false.
Proof.
  intros H. apply keyExpansion_In in H
    as [(k & sep & _ & [->| ->] & _ & ->)|(_ & H & _)].
  - left. apply last_split_clean.
  - right. apply last_split_clean.
  - now left.
Qed.

(** X25. Every member of [keyExpansion(keys)] is the end of one of the
    keys and lacks [:] or lacks [/]; every key has an end among the
    members; and no member comes twice. *)
Theorem keyExpansion_ends keys :
  (forall x, In x (keyExpansion keys) ->
             (exists k p, In k keys /\ k = p ++ x) /\
             (has_char ":"%char x = false \/ has_char "/"%char x = false)) /\
  (forall k, In k keys ->
             exists x p, In x (keyExpansion keys) /\ k = p ++ x) /\
  NoDup (keyExpansion keys).
Proof.
  split; [|split].
  - intros x Hx. split; [|now apply keyExpansion_no_address in Hx].
    apply keyExpansion_In in Hx
      as [(k & sep & Hk & _ & _ & ->)|(Hx & _ & _)].
    + destruct (last_split_suffix sep k) as [p Hp]. eauto.
    + exists x, []. auto.
  - intros k Hk.
    destruct (has_char ":"%char k) eqn:Ec.
    + destruct (last_split_suffix ":"%char k) as [p Hp].
      exists (last (split ":"%char k) []), p. split; [|exact Hp].
      apply keyExpansion_In. left. exists k, ":"%char. auto.
    + destruct (has_char "/"%char k) eqn:Es.
      * destruct (last_split_suffix "/"%char k) as [p Hp].
        exists (last (split "/"%char k) []), p. split; [|exact Hp].
        apply keyExpansion_In. left. exists k, "/"%char. auto.
      * exists k, []. split; [|reflexivity].
        apply keyExpansion_In. right. auto.
  - apply NoDup_nodup.
Qed.

(** X26. [expand] puts the value of the input back under every key that is
    an address (a key with both [:] and [/]): such a key is never among
    the ends that [keyExpansion] gives, so when its value is truthy and it
    is not one of [KEYS_TO_EXPAND], the result holds the value of the
    input, whatever the expansion gave for it. *)
Theorem expand_address_key_unexpanded jsonld fuel keep od nd r k v :
  jsonld (JDict od) = Expanded [JDict nd] ->
  expand jsonld (S fuel) (JDict od) keep = Ok r ->
  dict_get od k = Some v ->
  truthy v = true ->
  has_char ":"%char k = true ->
  has_char "/"%char k = true ->
  ~ In k KEYS_TO_EXPAND ->
  dict_get (entries r) k = Some v.
Proof.
  intros Hexp. cbn [expand]. rewrite Hexp. cbv zeta.
  set (merged := dict_update (drop_falsy nd) (kept_back od (drop_falsy nd))).
  destruct (for_each (expand_key (expand jsonld fuel)) KEYS_TO_EXPAND merged)
    as [final| |] eqn:Eloop; cbn [bind]; try discriminate.
  intros Hr Hget Hv Hcolon Hslash Hnin.
  assert (Hent : entries r = final).
  { destruct final; inversion Hr; reflexivity. }
  rewrite Hent.
  erewrite expand_keys_other; [|exact Hnin|exact Eloop].
  apply dict_update_get.
  - intros v' H. apply kept_back_spec in H as (_ & H & _). congruence.
  - right. apply kept_back_spec. repeat split; auto.
    + now apply dict_get_keys in Hget.
    + destruct (str_in k (keyExpansion (dict_keys (drop_falsy nd)))) eqn:E;
        [|reflexivity].
      apply str_in_In, keyExpansion_no_address in E. destruct E; congruence.
Qed.

Lemma expand_address_key_unexpanded_witness :
  dict_get
    (entries (JDict [("http://schema.org/name" : str, JStr "Mood")]))
    "http://schema.org/name"
  = Some (JStr "Mood").
Proof.
  apply (@expand_address_key_unexpanded
           (expansion_table address_key_table) 0 false item_with_address_key
           [("http://schema.org/name" : str,
             JList [JDict [("@value" : str, JStr "Mood")]])]
           (JDict [("http://schema.org/name" : str, JStr "Mood")])
           "http://schema.org/name" (JStr "Mood")); try reflexivity.
  intros H. repeat (destruct H as [H|H]; [discriminate|]). destruct H.
Defined.

(** ** [fileObjectToStr] *)

(** X27. The handler of [fileObjectToStr] rescues nothing: the call
    returns a text only when the object is a dict and the request for its
    [@id] gives a response; after an exception that the handler catches
    (the object is not a dict, the connection fails, the address has no
    scheme) one warning is printed and the call raises [AttributeError];
    any other exception of the request goes to the caller. *)
Theorem fileObjectToStr_handler_rescues_nothing requests_get py_str obj :
  match fileObjectToStr requests_get py_str obj with
  | (inl text, printed) =>
      printed = [] /\
      exists d, obj = JDict d /\
                requests_get (match dict_get d "@id" with
                              | Some x => x
                              | None => JNull
                              end) = Response text
  | (inr e, printed) =>
      (e = Builtin AttributeError /\ length printed = 1 /\
       (forall d, obj <> JDict d) \/
       exists d e', obj = JDict d /\
                    requests_get (match dict_get d "@id" with
                                  | Some x => x
                                  | None => JNull
                                  end) = NoResponse e' /\
                    (caught e' = true /\ e = Builtin AttributeError /\
                     length printed = 1
                     \/ caught e' = false /\ e = e' /\ printed = []))
  end.
Proof.
  unfold fileObjectToStr, fileObjectToStr_try.
  destruct obj as [|b|n|s|l|d]; cbn [caught];
    try (left; repeat split; intros d; discriminate).
  destruct (requests_get _) as [text|e'] eqn:E.
  - split; [reflexivity|]. now exists d.
  - destruct (caught e') eqn:Ec; right; exists d, e'; repeat split; auto.
Qed.

(** ** [getByLanguage]: the most specific tag *)

Lemma In_insert_sorted A (key : A -> nat) reverse x y l :
  y = x \/ In y l -> In y (insert_sorted key reverse x l).
Proof.
  induction l as [|z l IH]; simpl.
  - intros [->|[]]. now left.
  - destruct (goes_first key reverse x z); simpl.
    + intros [->|H]; auto.
    + intros [->|[->|H]]; auto.
Qed.

Lemma In_sorted A (key : A -> nat) reverse y l :
  In y l -> In y (sorted key reverse l).
Proof.
  induction l as [|x l IH]; simpl; [auto|].
  intros [->|H]; apply In_insert_sorted; auto.
Qed.

Lemma insert_sorted_length A (key : A -> nat) reverse x l :
  length (insert_sorted key reverse x l) = S (length l).
Proof.
  induction l as [|z l IH]; simpl; [reflexivity|].
  destruct (goes_first key reverse x z); simpl; [reflexivity|].
  now rewrite IH.
Qed.

Lemma sorted_length A (key : A -> nat) reverse l :
  length (sorted key reverse l) = length l.
Proof.
  induction l as [|x l IH]; simpl; [reflexivity|].
  now rewrite insert_sorted_length, IH.
Qed.

Lemma keyed_of_values keyToMatch objectList :
  (forall x, In x objectList -> value_at keyToMatch x <> None) ->
  exists keyed,
    map_outcome
      (fun i => t <- py_get i keyToMatch (JStr "") ;;
                n <- py_len t ;; Ok (n, i)) objectList = Ok keyed.
Proof.
  induction objectList as [|i l IH]; intros Hall.
  - now exists [].
  - destruct IH as [keyed Hk].
    { intros x Hx. apply Hall. now right. }
    pose proof (Hall i (or_introl eq_refl)) as Hi.
    cbn [map_outcome]. unfold value_at in Hi.
    destruct i as [|b|n|s|l0|d]; try congruence.
    cbn [py_get].
    destruct (dict_get d keyToMatch) as [[|b|n|s|l0|d0]|]; try congruence;
      cbn [bind py_len]; rewrite Hk; cbn [bind]; eauto.
Qed.

Lemma sorted_keyed_all keyToMatch objectList keyed reverse x :
  map_outcome
    (fun i => t <- py_get i keyToMatch (JStr "") ;;
              n <- py_len t ;; Ok (n, i)) objectList = Ok keyed ->
  In x objectList -> In x (map snd (sorted fst reverse keyed)).
Proof.
  intros Hk Hx. apply keyed_elements in Hk. rewrite <- Hk in Hx.
  apply in_map_iff in Hx as (p & <- & Hp). apply in_map.
  now apply In_sorted.
Qed.

Lemma lowered_value_is_spec keyToMatch v x s :
  value_at keyToMatch x = Some s ->
  lowered_value_is keyToMatch v x = Ok (str_eqb (lower s) v).
Proof.
  unfold value_at. destruct x as [|b|n|s0|l0|d]; try discriminate.
  cbn [py_get].
  destruct (dict_get d keyToMatch) as [[|b|n|s0|l0|d0]|]; try discriminate;
    intros H; inversion H; subst; reflexivity.
Qed.

Lemma first_match_cases test l :
  (forall x, In x l -> exists b, test x = Ok b) ->
  (exists r, first_match test l = Ok (Some r) /\ In r l /\ test r = Ok true) \/
  (first_match test l = Ok None /\ forall x, In x l -> test x = Ok false).
Proof.
  induction l as [|x l IH]; intros Htest.
  - right. split; [reflexivity|]. intros x [].
  - cbn [first_match].
    destruct (Htest x (or_introl eq_refl)) as [[|] Hx]; rewrite Hx; cbn [bind].
    + left. exists x. repeat split; auto. now left.
    + destruct IH as [(r & Hr & Hin & Ht)|[Hnone Hall]].
      * intros y Hy. apply Htest. now right.
      * left. exists r. repeat split; auto. now right.
      * right. split; [exact Hnone|]. intros y [<-|Hy]; auto.
Qed.

Lemma getFromLongestMatchingValue_found
      fuel objectList listOfValues keyToMatch v keyed r :
  longest (map lower listOfValues) = Some v ->
  map_outcome
    (fun i => t <- py_get i keyToMatch (JStr "") ;;
              n <- py_len t ;; Ok (n, i)) objectList = Ok keyed ->
  first_match (lowered_value_is keyToMatch v)
              (map snd (sorted fst true keyed)) = Ok (Some r) ->
  getFromLongestMatchingValue (S fuel) objectList listOfValues keyToMatch true
  = Ok r.
Proof.
  intros Hv Hk Hfm. cbn [getFromLongestMatchingValue]. cbv zeta.
  rewrite Hv, Hk. cbn [bind or_None].
  match goal with
  | |- context [first_match ?test ?l] =>
      change (first_match test l)
        with (first_match (lowered_value_is keyToMatch v)
                          (map snd (sorted fst true keyed)))
  end.
  rewrite Hfm. reflexivity.
Qed.

Lemma getFromLongestMatchingValue_next
      fuel objectList listOfValues keyToMatch v keyed :
  longest (map lower listOfValues) = Some v ->
  nonempty v = true ->
  map_outcome
    (fun i => t <- py_get i keyToMatch (JStr "") ;;
              n <- py_len t ;; Ok (n, i)) objectList = Ok keyed ->
  first_match (lowered_value_is keyToMatch v)
              (map snd (sorted fst true keyed)) = Ok None ->
  1 <= length (remove_str v (map lower listOfValues)) ->
  getFromLongestMatchingValue (S fuel) objectList listOfValues keyToMatch true
  = getFromLongestMatchingValue fuel objectList
      (remove_str v (map lower listOfValues)) keyToMatch true.
Proof.
  intros Hv Hne Hk Hfm Hlen. cbn [getFromLongestMatchingValue]. cbv zeta.
  rewrite Hv, Hk, Hne. cbn [bind or_None andb].
  destruct (longest_spec _ Hv) as [Hin _].
  apply str_in_In in Hin. rewrite Hin.
  match goal with
  | |- context [first_match ?test ?l] =>
      change (first_match test l)
        with (first_match (lowered_value_is keyToMatch v)
                          (map snd (sorted fst true keyed)))
  end.
  rewrite Hfm. cbn [bind].
  apply Nat.leb_le in Hlen. now rewrite Hlen.
Qed.

Lemma longest_matching_value_wins keyToMatch fuel :
  forall objectList listOfValues k o s,
    length listOfValues < fuel ->
    (forall x, In x objectList -> value_at keyToMatch x <> None) ->
    In k listOfValues ->
    nonempty k = true ->
    In o objectList ->
    value_at keyToMatch o = Some s ->
    lower s = lower k ->
    (forall k', In k' listOfValues -> length k <= length k' ->
                lower k' = lower k \/
                forall x s', In x objectList ->
                             value_at keyToMatch x = Some s' ->
                             lower s' <> lower k') ->
    exists r s_r,
      getFromLongestMatchingValue fuel objectList listOfValues keyToMatch true
      = Ok r /\
      In r objectList /\
      value_at keyToMatch r = Some s_r /\
      lower s_r = lower k.
Proof.
  induction fuel as [|fuel IH];
    intros objectList listOfValues k o s Hfuel Hwf Hk Hne Ho Hs Hsk Hlonger;
    [lia|].
  assert (Hklow : In (lower k) (map lower listOfValues)) by now apply in_map.
  destruct (longest (map lower listOfValues)) as [v|] eqn:Hv;
    [|apply longest_none in Hv; rewrite Hv in Hklow; destruct Hklow].
  destruct (longest_spec _ Hv) as [Hin Hmax].
  assert (Hlen : length k <= length v).
  { rewrite <- (lower_length k). now apply Hmax. }
  assert (Hvne : nonempty v = true).
  { apply nonempty_length. apply nonempty_length in Hne. lia. }
  destruct (@keyed_of_values keyToMatch objectList Hwf) as [keyed Hkeyed].
  assert (Hvalue : forall x, In x (map snd (sorted fst true keyed)) ->
            exists sx, In x objectList /\ value_at keyToMatch x = Some sx /\
                       lowered_value_is keyToMatch v x
                       = Ok (str_eqb (lower sx) v)).
  { intros x Hx. apply (@sorted_keyed_elements _ _ _ _ _ Hkeyed) in Hx.
    destruct (value_at keyToMatch x) as [sx|] eqn:Ex;
      [|now destruct (Hwf x Hx)].
    exists sx. repeat split; auto. now apply lowered_value_is_spec. }
  destruct (first_match_cases (lowered_value_is keyToMatch v)
                              (map snd (sorted fst true keyed)))
    as [(r & Hfm & HrL & Hr)|[Hfm Hnone]].
  { intros x Hx. destruct (Hvalue x Hx) as (sx & _ & _ & ->). eauto. }
  - erewrite getFromLongestMatchingValue_found;
      [|exact Hv|exact Hkeyed|exact Hfm].
    destruct (Hvalue r HrL) as (sr & Hrin & Hrs & Hrt).
    rewrite Hrt in Hr. inversion Hr as [Heq]. apply str_eqb_eq in Heq.
    exists r, sr. repeat split; auto.
    apply in_map_iff in Hin as (k0 & Hk0 & Hin0).
    destruct (Hlonger k0 Hin0) as [Hsame|Habsent].
    + rewrite <- (lower_length k0), Hk0. exact Hlen.
    + congruence.
    + exfalso. apply (Habsent r sr Hrin Hrs). congruence.
  - assert (Hkv : lower k <> v).
    { intros <-.
      pose proof (@sorted_keyed_all _ _ _ true _ Hkeyed Ho) as HoL.
      destruct (Hvalue o HoL) as (so & _ & Hso & Hot).
      rewrite (Hnone o HoL) in Hot. inversion Hot as [Hfalse].
      symmetry in Hfalse. apply str_eqb_neq in Hfalse.
      rewrite Hs in Hso. inversion Hso; subst. contradiction. }
    assert (Hrest : In (lower k) (remove_str v (map lower listOfValues))).
    { now apply remove_str_keeps. }
    pose proof (remove_str_length _ _ Hin) as Hrem.
    rewrite length_map in Hrem.
    erewrite getFromLongestMatchingValue_next;
      [|exact Hv|exact Hvne|exact Hkeyed|exact Hfm|].
    2:{ destruct (remove_str v (map lower listOfValues));
          [destruct Hrest | simpl; lia]. }
    destruct (IH objectList (remove_str v (map lower listOfValues))
                 (lower k) o s) as (r & sr & Hr & Hrin & Hrs & Hrk); auto.
    + lia.
    + apply nonempty_length. rewrite lower_length. now apply nonempty_length.
    + now rewrite lower_idem.
    + intros k' Hk' Hlen'. apply remove_str_In in Hk'.
      apply in_map_iff in Hk' as (k0 & <- & Hk0).
      rewrite !lower_idem. apply Hlonger; [exact Hk0|].
      rewrite !lower_length in Hlen'. exact Hlen'.
    + exists r, sr. repeat split; auto. now rewrite lower_idem in Hrk.
Qed.



Lemma getMoreGeneric_prefix tag t :
  In t (getMoreGeneric tag) -> is_prefix t tag = true.
Proof.
  unfold getMoreGeneric. intros [<-|H]; [apply is_prefix_refl|].
  destruct (@getMoreGeneric_loop_spec (length tag) tag) as (_ & Hp & _);
    [apply count_occ_le_length|]. now apply Hp.
Qed.

Lemma is_prefix_same_length a :
  forall b c,
    is_prefix a c = true -> is_prefix b c = true -> length a = length b ->
    a = b.
Proof.
  induction a as [|x a IH]; intros [|y b] [|z c] Ha Hb Hlen;
    try discriminate; try reflexivity.
  cbn [is_prefix] in Ha, Hb.
  apply andb_prop in Ha as [Hx Ha]. apply andb_prop in Hb as [Hy Hb].
  apply Ascii.eqb_eq in Hx, Hy. subst. f_equal.
  apply (IH b c); auto.
Qed.

Lemma candidates_cases tag t k' :
  In t (getMoreGeneric tag) ->
  In k' (candidates tag) ->
  length t <= length k' ->
  k' = t \/
  (In k' (getMoreGeneric tag) /\ length t < length k') \/
  exists s, k' = "@"%char :: s.
Proof.
  intros Ht Hk' Hlen. unfold candidates in Hk'. apply sorted_In in Hk'.
  apply in_app_or in Hk' as [Hk'|Hk'].
  - destruct (Nat.eq_dec (length t) (length k')) as [Heq|Hneq].
    + left. symmetry.
      apply (@is_prefix_same_length t k' tag); auto using getMoreGeneric_prefix.
    + right. left. split; [exact Hk'|lia].
  - right. right. apply in_map_iff in Hk' as (s & <- & _). now exists s.
Qed.

Lemma candidates_length tag :
  length (candidates tag) = 2 * length (getMoreGeneric tag).
Proof.
  unfold candidates. rewrite sorted_length, length_app, length_map. lia.
Qed.

Lemma candidates_tags tag t : In t (getMoreGeneric tag) -> In t (candidates tag).
Proof.
  intros H. unfold candidates. apply In_sorted, in_or_app. now left.
Qed.

Lemma getMoreGeneric_nonempty tag t :
  In t (getMoreGeneric tag) -> nonempty t = true -> truthy (JStr tag) = true.
Proof.
  intros Ht Hne. destruct tag; [|reflexivity].
  simpl in Ht. destruct Ht as [<-|[]]. discriminate.
Qed.

Lemma to_lower_at c : to_lower c = "@"%char -> c = "@"%char.
Proof.
  destruct c as [[] [] [] [] [] [] [] []]; vm_compute; intros H;
    first [reflexivity | discriminate H].
Qed.

(** X29. On a dict without keys that begin with [@], [getByLanguage] gives
    the value of the most specific tag: when [t] is the tag or one of its
    more generic forms, is not empty and is, case ignored, a key of the
    dict with value [v], and no longer form of the tag is a key,
    [getByLanguage] returns [v]. *)
Theorem getByLanguage_dict_most_specific default_language fuel d tag t v :
  In t (getMoreGeneric tag) ->
  nonempty t = true ->
  (forall s, dict_get (lower_keys d) ("@"%char :: s) = None) ->
  dict_get (lower_keys d) (lower t) = Some v ->
  (forall t', In t' (getMoreGeneric tag) -> length t < length t' ->
              dict_get (lower_keys d) (lower t') = None) ->
  2 * length (getMoreGeneric tag) < fuel ->
  getByLanguage default_language fuel (JDict d) (JStr tag) = Ok v.
Proof.
  intros Ht Hne Hat Hv Hlonger Hfuel.
  unfold getByLanguage. rewrite (@getMoreGeneric_nonempty tag t Ht Hne).
  cbn [negb bind]. cbv zeta.
  apply (@longest_matching_key_wins fuel d (candidates tag) t v); auto.
  - now rewrite candidates_length.
  - now apply candidates_tags.
  - intros k' Hk' Hlen.
    destruct (@candidates_cases tag t k' Ht Hk' Hlen) as [->|[[Hin Hlt]|[s ->]]].
    + now left.
    + right. now apply Hlonger.
    + right. apply Hat.
Qed.

Lemma getByLanguage_dict_most_specific_witness :
  getByLanguage (Ok JNull) 5 (JDict languages) (JStr "en-GB")
  = Ok (JStr "Hi").
Proof.
  apply (@getByLanguage_dict_most_specific
           (Ok JNull) 5 languages "en-GB" "en" (JStr "Hi")).
  - right. now left.
  - reflexivity.
  - intros s. destruct (dict_get (lower_keys languages) _) eqn:E;
      [|reflexivity].
    apply dict_get_keys in E. vm_compute in E.
    destruct E as [E|[E|[E|[]]]]; discriminate.
  - reflexivity.
  - intros t' [<-|[<-|[]]] Hlen; [reflexivity | simpl in Hlen; lia].
  - simpl. lia.
Defined.

(** X30. On a list of values with a language, none beginning with [@],
    [getByLanguage] gives a value of the most specific tag: when [t] is
    the tag or one of its more generic forms, is not empty and is, case
    ignored, the [@language] of an object of the list, and no longer form
    of the tag is the language of an object, [getByLanguage] returns a
    list of one object of the list whose [@language] is [t] up to case. *)
Theorem getByLanguage_list_most_specific default_language fuel l tag t o s :
  (forall x, In x l -> value_at "@language" x <> None) ->
  (forall x s', In x l -> value_at "@language" x <> Some ("@"%char :: s')) ->
  In t (getMoreGeneric tag) ->
  nonempty t = true ->
  In o l ->
  value_at "@language" o = Some s ->
  lower s = lower t ->
  (forall t' x s', In t' (getMoreGeneric tag) -> length t < length t' ->
                   In x l -> value_at "@language" x = Some s' ->
                   lower s' <> lower t') ->
  2 * length (getMoreGeneric tag) < fuel ->
  exists r s_r,
    getByLanguage default_language fuel (JList l) (JStr tag)
    = Ok (JList [r]) /\
    In r l /\
    value_at "@language" r = Some s_r /\
    lower s_r = lower t.
Proof.
  intros Hwf Hat Ht Hne Ho Hs Hst Hlonger Hfuel.
  destruct (@longest_matching_value_wins "@language" fuel l (candidates tag)
              t o s) as (r & sr & Hr & Hin & Hrs & Hrt); auto.
  - now rewrite candidates_length.
  - now apply candidates_tags.
  - intros k' Hk' Hlen.
    destruct (@candidates_cases tag t k' Ht Hk' Hlen) as [->|[[Hin Hlt]|[s0 ->]]].
    + now left.
    + right. intros x s' Hx Hxs. now apply (Hlonger k' x s').
    + right. intros x s' Hx Hxs Heq.
      destruct s' as [|c s']; [discriminate|].
      cbn [lower map] in Heq. injection Heq as Hc _.
      change (to_lower "@"%char) with "@"%char in Hc.
      apply to_lower_at in Hc. subst c. now apply (Hat x s' Hx).
  - exists r, sr. repeat split; auto.
    unfold getByLanguage. rewrite (@getMoreGeneric_nonempty tag t Ht Hne).
    cbn [negb bind]. cbv zeta. fold (candidates tag). rewrite Hr.
    reflexivity.
Qed.

Lemma getByLanguage_list_most_specific_witness :
  exists r s_r,
    getByLanguage (Ok JNull) 5 (JList salutations) (JStr "en-GB")
    = Ok (JList [r]) /\
    In r salutations /\
    value_at "@language" r = Some s_r /\
    lower s_r = lower "en".
Proof.
  apply (@getByLanguage_list_most_specific
           (Ok JNull) 5 salutations "en-GB" "en"
           (JDict [("@language" : str, JStr "en"); ("@value" : str, JStr "Hi")])
           "en").
  - intros x [<-|[<-|[<-|[]]]]; discriminate.
  - intros x s' [<-|[<-|[<-|[]]]]; discriminate.
  - right. now left.
  - reflexivity.
  - right. now left.
  - reflexivity.
  - reflexivity.
  - intros t' x s' [<-|[<-|[]]] Hlen; [|simpl in Hlen; lia].
    intros [<-|[<-|[<-|[]]]] Hx; inversion Hx; discriminate.
  - simpl. lia.
Defined.

(* ================================================================= *)
(** * [snake_case] on Unicode text *)

(** ** The 8-bit model is the Unicode model on ASCII text *)

Lemma code_AZ c : Unicode.is_AZ (N_of_ascii c) = is_upper c.
Proof. destruct c as [[] [] [] [] [] [] [] []]; vm_compute; reflexivity. Qed.

Lemma code_az c : Unicode.is_az (N_of_ascii c) = is_lower c.
Proof. destruct c as [[] [] [] [] [] [] [] []]; vm_compute; reflexivity. Qed.

Lemma code_09 c : Unicode.is_09 (N_of_ascii c) = is_digit c.
Proof. destruct c as [[] [] [] [] [] [] [] []]; vm_compute; reflexivity. Qed.

Lemma code_line_feed c :
  (N_of_ascii c =? Unicode.line_feed)%N = Ascii.eqb c newline.
Proof. destruct c as [[] [] [] [] [] [] [] []]; vm_compute; reflexivity. Qed.

Lemma code_lower c :
  is_ascii c = true ->
  (N_of_ascii c =? 931)%N = false /\
  Unicode.to_lower_full (N_of_ascii c) = [N_of_ascii (to_lower c)].
Proof.
  destruct c as [[] [] [] [] [] [] [] []]; vm_compute; intros H;
    first [discriminate H | split; reflexivity].
Qed.

Lemma code_uppercase c :
  is_ascii c = true -> Unicode.is_uppercase (N_of_ascii c) = is_upper c.
Proof.
  destruct c as [[] [] [] [] [] [] [] []]; vm_compute; intros H;
    first [discriminate H | reflexivity].
Qed.

Lemma to_lower_ascii c : is_ascii c = true -> is_ascii (to_lower c) = true.
Proof.
  destruct c as [[] [] [] [] [] [] [] []]; vm_compute; intros H;
    first [discriminate H | reflexivity].
Qed.

Lemma codes_app a b : codes (a ++ b) = codes a ++ codes b.
Proof. apply map_app. Qed.

Lemma codes_length s : length (codes s) = length s.
Proof. apply length_map. Qed.

Lemma span_codes (p : ascii -> bool) (q : N -> bool) s :
  (forall c, q (N_of_ascii c) = p c) ->
  Unicode.span q (codes s) = (codes (fst (span p s)), codes (snd (span p s))).
Proof.
  intros H. induction s as [|c s IH]; [reflexivity|].
  cbn [codes map Unicode.span span]. rewrite H.
  destruct (p c); [|reflexivity].
  fold (codes s). rewrite IH. destruct (span p s); reflexivity.
Qed.

Lemma first_cap_re_codes s :
  Unicode.first_cap_re (codes s) = codes_match (first_cap_re s).
Proof.
  destruct s as [|c [|u s']]; try reflexivity.
  cbn [codes map Unicode.first_cap_re first_cap_re].
  rewrite code_line_feed, code_AZ.
  destruct (negb (Ascii.eqb c newline) && is_upper u); [|reflexivity].
  fold (codes s'). rewrite (@span_codes is_lower Unicode.is_az s' code_az).
  destruct (span is_lower s') as [[|x run] rest]; reflexivity.
Qed.

Lemma all_cap_re_codes s :
  Unicode.all_cap_re (codes s) = codes_match (all_cap_re s).
Proof.
  destruct s as [|a [|b rest]]; try reflexivity.
  cbn [codes map Unicode.all_cap_re all_cap_re].
  rewrite code_az, code_09, code_AZ.
  destruct ((is_lower a || is_digit a) && is_upper b); reflexivity.
Qed.

Lemma sub_from_codes (re : pattern) (ure : Unicode.pattern) :
  (forall s, ure (codes s) = codes_match (re s)) ->
  forall n s, Unicode.sub_from ure n (codes s) = codes (sub_from re n s).
Proof.
  intros H. induction n as [|n IH]; intros [|c s]; try reflexivity.
  change (codes (c :: s)) with (N_of_ascii c :: codes s).
  cbn [Unicode.sub_from sub_from].
  change (N_of_ascii c :: codes s) with (codes (c :: s)). rewrite H.
  destruct (re (c :: s)) as [[[g1 g2] rest]|]; cbn [codes_match].
  - rewrite IH. unfold codes. rewrite map_app. cbn [map]. rewrite map_app.
    reflexivity.
  - rewrite IH. reflexivity.
Qed.

Lemma lower_from_codes s :
  forall before,
    ascii_only s = true -> Unicode.lower_from before (codes s) = codes (lower s).
Proof.
  induction s as [|c s IH]; intros before Hs; [reflexivity|].
  cbn [ascii_only forallb] in Hs. apply andb_prop in Hs as [Hc Hs].
  destruct (code_lower c Hc) as [Hsigma Hlow].
  cbn [codes map Unicode.lower_from lower]. rewrite Hsigma, Hlow.
  fold (codes s). fold (lower s). rewrite IH by exact Hs. reflexivity.
Qed.

Lemma sub_from_ascii (re : pattern) :
  splitting re ->
  forall n s, ascii_only s = true -> ascii_only (sub_from re n s) = true.
Proof.
  intros Hre. unfold ascii_only.
  induction n as [|n IH]; intros [|c s] Hs; try reflexivity; try exact Hs.
  cbn [sub_from].
  destruct (re (c :: s)) as [[[g1 g2] rest]|] eqn:E.
  - apply Hre in E. rewrite E in Hs. rewrite !forallb_app in Hs.
    apply andb_prop in Hs as [H1 Hs]. apply andb_prop in Hs as [H2 H3].
    rewrite forallb_app. cbn [forallb]. rewrite forallb_app.
    rewrite H1, H2, IH by exact H3. reflexivity.
  - cbn [forallb] in *. apply andb_prop in Hs as [Hc Hs].
    rewrite Hc, IH by exact Hs. reflexivity.
Qed.

Lemma lower_ascii s : ascii_only s = true -> ascii_only (lower s) = true.
Proof.
  unfold ascii_only, lower. induction s as [|c s IH]; [reflexivity|].
  cbn [forallb map]. intros H. apply andb_prop in H as [Hc Hs].
  rewrite to_lower_ascii, IH; auto.
Qed.

Lemma first_cap_sub_ascii s :
  ascii_only s = true -> ascii_only (sub first_cap_re s) = true.
Proof. apply sub_from_ascii, first_cap_re_splitting. Qed.

Lemma all_cap_sub_ascii s :
  ascii_only s = true -> ascii_only (sub all_cap_re s) = true.
Proof. apply sub_from_ascii, all_cap_re_splitting. Qed.

Lemma snake_case_ascii s :
  ascii_only s = true -> ascii_only (snake_case s) = true.
Proof.
  intros H. unfold snake_case.
  now apply lower_ascii, all_cap_sub_ascii, first_cap_sub_ascii.
Qed.

Lemma snake_case_codes s :
  ascii_only s = true -> Unicode.snake_case (codes s) = codes (snake_case s).
Proof.
  intros H. unfold Unicode.snake_case, snake_case, Unicode.sub, sub,
    Unicode.lower.
  rewrite codes_length, (sub_from_codes _ _ first_cap_re_codes).
  rewrite codes_length, (sub_from_codes _ _ all_cap_re_codes).
  apply lower_from_codes.
  now apply all_cap_sub_ascii, first_cap_sub_ascii.
Qed.

Lemma ascii_points (s : list N) :
  Forall (fun c => (c < 128)%N) s ->
  exists s', s = codes s' /\ ascii_only s' = true.
Proof.
  induction 1 as [|c s Hc _ (s' & -> & Hs')]; [now exists []|].
  exists (ascii_of_N c :: s'). split.
  - cbn [codes map]. rewrite N_ascii_embedding by lia. reflexivity.
  - cbn [ascii_only forallb]. fold (ascii_only s'). rewrite Hs', andb_true_r.
    unfold is_ascii, nat_of_ascii. rewrite N_ascii_embedding by lia.
    apply Nat.ltb_lt. lia.
Qed.

Lemma code_underscore c :
  (N_of_ascii c =? Unicode.underscore)%N = Ascii.eqb c "_"%char.
Proof. destruct c as [[] [] [] [] [] [] [] []]; vm_compute; reflexivity. Qed.

Lemma remove_char_codes s :
  Unicode.remove_char Unicode.underscore (codes s)
  = codes (remove_char "_"%char s).
Proof.
  unfold Unicode.remove_char, remove_char, codes.
  induction s as [|c s IH]; [reflexivity|].
  cbn [map filter]. rewrite code_underscore, IH.
  destruct (Ascii.eqb c "_"%char); reflexivity.
Qed.

Lemma remove_char_ascii c s :
  ascii_only s = true -> ascii_only (remove_char c s) = true.
Proof.
  unfold ascii_only, remove_char. induction s as [|x s IH]; [reflexivity|].
  cbn [forallb filter]. intros H. apply andb_prop in H as [Hx Hs].
  destruct (negb (Ascii.eqb x c)); cbn [forallb]; rewrite ?Hx; auto.
Qed.

(** X2. On ASCII text [snake_case] changes nothing but the case of letters
    and the underscores: without its underscores, its result is the input
    without its underscores, in lowercase. *)
Theorem snake_case_only_underscores_and_case (s : list N) :
  Forall (fun c => (c < 128)%N) s ->
  Unicode.remove_char Unicode.underscore (Unicode.snake_case s)
  = Unicode.lower (Unicode.remove_char Unicode.underscore s).
Proof.
  intros Hs. destruct (ascii_points Hs) as (s' & -> & Hs').
  rewrite (snake_case_codes _ Hs'), !remove_char_codes.
  rewrite snake_case_adds_underscores.
  unfold Unicode.lower. symmetry. apply lower_from_codes.
  now apply remove_char_ascii.
Qed.

Lemma snake_case_only_underscores_and_case_witness :
  Unicode.remove_char Unicode.underscore
    (Unicode.snake_case [102; 111; 111; 95; 66; 97; 114]%N)
  = Unicode.lower
      (Unicode.remove_char Unicode.underscore
         [102; 111; 111; 95; 66; 97; 114]%N).
Proof.
  apply (@snake_case_only_underscores_and_case
           [102; 111; 111; 95; 66; 97; 114]%N).
  repeat constructor.
Defined.

(** ** Lowercase text *)

Lemma run_targets_in step :
  forall n target i,
    i < n -> In (target + N.of_nat i * step)%N (Unicode.run_targets n step target).
Proof.
  induction n as [|n IH]; intros target i Hi; [lia|].
  cbn [Unicode.run_targets]. destruct i as [|i].
  - left. cbn. lia.
  - right. replace (target + N.of_nat (S i) * step)%N
      with ((target + step) + N.of_nat i * step)%N by lia.
    apply IH. lia.
Qed.

Lemma lowercase_in_target runs c :
  Unicode.lowercase_in runs c = c \/
  In (Unicode.lowercase_in runs c) (Unicode.lowercase_targets runs).
Proof.
  induction runs as [|[[[first count] step] target] runs IH]; [now left|].
  cbn [Unicode.lowercase_in Unicode.lowercase_targets flat_map].
  destruct ((first <=? c) && (c <? first + count * step)
            && ((c - first) mod step =? 0))%N eqn:E.
  - right. apply in_or_app. left.
    apply andb_prop in E as [E Hmod]. apply andb_prop in E as [Hlo Hhi].
    apply N.leb_le in Hlo. apply N.ltb_lt in Hhi. apply N.eqb_eq in Hmod.
    assert (Hstep : step <> 0%N) by (intros ->; lia).
    apply N.Div0.div_exact in Hmod.
    set (q := ((c - first) / step)%N) in *.
    assert (Hq : (q < count)%N) by nia.
    replace (target + (c - first))%N
      with (target + N.of_nat (N.to_nat q) * step)%N
      by lia.
    apply run_targets_in. lia.
  - destruct IH as [IH|IH]; [now left|]. right. apply in_or_app. now right.
Qed.

Lemma targets_lowered :
  forallb Unicode.lowered (Unicode.lowercase_targets Unicode.lowercase_runs)
  = true.
Proof. vm_compute. reflexivity. Qed.

Lemma capital_lowers c :
  Unicode.is_AZ c = true ->
  Unicode.lowercase_in Unicode.lowercase_runs c = (c + 32)%N.
Proof.
  unfold Unicode.is_AZ, Unicode.in_range. intros H.
  apply andb_prop in H as [Hlo Hhi].
  apply N.leb_le in Hlo. apply N.leb_le in Hhi.
  assert (exists runs,
             Unicode.lowercase_runs = (65, 26, 1, 97)%N :: runs) as [runs ->]
    by (eexists; reflexivity).
  cbn [Unicode.lowercase_in].
  replace ((65 <=? c) && (c <? 65 + 26 * 1) && ((c - 65) mod 1 =? 0))%N
    with true; [lia|].
  symmetry. rewrite N.mod_1_r. cbn [N.eqb]. rewrite andb_true_r.
  apply andb_true_intro. split; [apply N.leb_le|apply N.ltb_lt]; lia.
Qed.

Lemma lowercase_in_lowered c :
  (c =? 931)%N = false -> (c =? 304)%N = false ->
  Unicode.lowered (Unicode.lowercase_in Unicode.lowercase_runs c) = true.
Proof.
  intros Hsigma Hdot.
  destruct (lowercase_in_target Unicode.lowercase_runs c) as [Heq|Hin].
  - rewrite Heq. unfold Unicode.lowered.
    rewrite Hsigma, Hdot, Heq, N.eqb_refl. cbn [negb andb].
    destruct (Unicode.is_AZ c) eqn:E; [|reflexivity].
    apply capital_lowers in E. lia.
  - pose proof targets_lowered as H. rewrite forallb_forall in H.
    now apply H.
Qed.

Lemma lowered_parts c :
  Unicode.lowered c = true ->
  (c =? 931)%N = false /\ Unicode.to_lower_full c = [c] /\
  Unicode.is_AZ c = false.
Proof.
  unfold Unicode.lowered, Unicode.to_lower_full. intros H.
  apply andb_prop in H as [H HAZ]. apply andb_prop in H as [H Hfix].
  apply andb_prop in H as [Hsigma Hdot].
  apply negb_true_iff in Hsigma, Hdot, HAZ. apply N.eqb_eq in Hfix.
  rewrite Hdot, Hfix. auto.
Qed.

Lemma lower_from_lowered s :
  forall before, forallb Unicode.lowered (Unicode.lower_from before s) = true.
Proof.
  induction s as [|c s IH]; intros before; [reflexivity|].
  cbn [Unicode.lower_from]. rewrite forallb_app, IH, andb_true_r.
  destruct (c =? 931)%N eqn:Hsigma.
  - destruct (Unicode.final_sigma before s); vm_compute; reflexivity.
  - unfold Unicode.to_lower_full. destruct (c =? 304)%N eqn:Hdot.
    + vm_compute. reflexivity.
    + cbn [forallb]. now rewrite lowercase_in_lowered.
Qed.

Lemma lower_from_fixed s :
  forallb Unicode.lowered s = true ->
  forall before, Unicode.lower_from before s = s.
Proof.
  induction s as [|c s IH]; intros H before; [reflexivity|].
  cbn [forallb] in H. apply andb_prop in H as [Hc Hs].
  destruct (lowered_parts _ Hc) as (Hsigma & Hlow & _).
  cbn [Unicode.lower_from]. rewrite Hsigma, Hlow, IH by exact Hs.
  reflexivity.
Qed.

Lemma first_cap_re_lowered s :
  forallb Unicode.lowered s = true -> Unicode.first_cap_re s = None.
Proof.
  destruct s as [|c [|u s]]; try reflexivity. cbn [forallb]. intros H.
  apply andb_prop in H as [_ H]. apply andb_prop in H as [Hu _].
  destruct (lowered_parts _ Hu) as (_ & _ & HAZ).
  cbn [Unicode.first_cap_re]. now rewrite HAZ, andb_false_r.
Qed.

Lemma all_cap_re_lowered s :
  forallb Unicode.lowered s = true -> Unicode.all_cap_re s = None.
Proof.
  destruct s as [|c [|u s]]; try reflexivity. cbn [forallb]. intros H.
  apply andb_prop in H as [_ H]. apply andb_prop in H as [Hu _].
  destruct (lowered_parts _ Hu) as (_ & _ & HAZ).
  cbn [Unicode.all_cap_re]. now rewrite HAZ, andb_false_r.
Qed.

Lemma sub_from_lowered (re : Unicode.pattern) :
  (forall s, forallb Unicode.lowered s = true -> re s = None) ->
  forall n s, forallb Unicode.lowered s = true -> Unicode.sub_from re n s = s.
Proof.
  intros Hre. induction n as [|n IH]; intros [|c s] Hs; try reflexivity.
  cbn [Unicode.sub_from]. rewrite (Hre _ Hs).
  cbn [forallb] in Hs. apply andb_prop in Hs as [_ Hs].
  now rewrite IH.
Qed.

Lemma snake_case_lowered s :
  forallb Unicode.lowered (Unicode.snake_case s) = true.
Proof. apply lower_from_lowered. Qed.

Lemma snake_case_of_lowered s :
  forallb Unicode.lowered s = true -> Unicode.snake_case s = s.
Proof.
  intros H. unfold Unicode.snake_case, Unicode.sub, Unicode.lower.
  rewrite (@sub_from_lowered _ first_cap_re_lowered _ _ H).
  rewrite (@sub_from_lowered _ all_cap_re_lowered _ _ H).
  now apply lower_from_fixed.
Qed.

(** ** The claim *)

(** C10, as stated: the Greek upsilon with hook, U+03D2, is an uppercase
    character without a lowercase, and [snake_case] returns it as it is. *)
Lemma snake_case_uppercase_counterexample :
  Unicode.snake_case [978%N] = [978%N] /\
  Unicode.is_uppercase 978 = true /\
  ~ (forall c, In c (Unicode.snake_case [978%N]) ->
               Unicode.is_uppercase c = false).
Proof.
  split; [vm_compute; reflexivity|]. split; [vm_compute; reflexivity|].
  intros H. assert (Hin : In 978%N (Unicode.snake_case [978%N])).
  { vm_compute. now left. }
  apply H in Hin. vm_compute in Hin. discriminate.
Qed.

(** C10, amended. For every string [s], [snake_case] is idempotent, applying
    it to its own result changes nothing, and every character of
    [snake_case s] is its own lowercase; when [s] is ASCII, no character of
    [snake_case s] is uppercase. *)
Theorem snake_case_lowercase_idempotent (s : list N) :
  Unicode.snake_case (Unicode.snake_case s) = Unicode.snake_case s /\
  (forall c, In c (Unicode.snake_case s) -> Unicode.lower [c] = [c]) /\
  (Forall (fun c => (c < 128)%N) s ->
   forall c, In c (Unicode.snake_case s) -> Unicode.is_uppercase c = false).
Proof.
  pose proof (snake_case_lowered s) as Hlow.
  split; [now apply snake_case_of_lowered|]. split.
  - intros c Hc. rewrite forallb_forall in Hlow.
    apply lower_from_fixed. cbn [forallb]. now rewrite Hlow.
  - intros Hs. destruct (ascii_points Hs) as (s' & -> & Hs').
    rewrite (snake_case_codes _ Hs').
    pose proof (snake_case_ascii _ Hs') as Hres.
    destruct (snake_case_no_capital s') as [Hupper _].
    intros c Hc. apply in_map_iff in Hc as (c0 & <- & Hc0).
    rewrite code_uppercase.
    + now apply Hupper.
    + unfold ascii_only in Hres. rewrite forallb_forall in Hres.
      now apply Hres.
Qed.

Lemma snake_case_lowercase_idempotent_witness :
  Unicode.snake_case (Unicode.snake_case [102; 111; 111; 66; 97; 114]%N)
  = Unicode.snake_case [102; 111; 111; 66; 97; 114]%N /\
  (forall c, In c (Unicode.snake_case [102; 111; 111; 66; 97; 114]%N) ->
             Unicode.is_uppercase c = false).
Proof.
  destruct (@snake_case_lowercase_idempotent
              [102; 111; 111; 66; 97; 114]%N) as (Hfixed & _ & Hupper).
  split; [exact Hfixed|]. apply Hupper. repeat constructor.
Defined.
